(** * Nearby-transit: ingestion joiners, shape selector, nearest-stops query
      and arrival estimator

    A shallow embedding of the computational core of the repository:
    - [src/App.jsx]: [distanceMeters], [timeToSecondsSinceMidnight],
      [etaSecondsFromGTFS], [fmtEtaMinutes], [simulateEtas], [nearbyStops],
      [nextArrivals];
    - [scripts/build_route_shapes.mjs]: [parseCSVLine] and the shape selection
      of [main];
    - [scripts/build_station_to_lines.mjs] and
      [scripts/build_station_arrivals_by_destination.mjs]: [splitCsvLine],
      [pushTime], [normalizeTime] and the joins of [main];
    - [scripts/build_gtfs_json.js]: [parseCSV], [csvToObjects],
      [routeIdToShort] and the stop-to-routes table.

    Conventions of the embedding.
    - A JavaScript string is a [string]; its code units are the 8-bit [ascii]
      characters, which covers the identifiers and clock strings of a feed.
    - A JavaScript number that the code only uses for integer arithmetic
      (seconds, minutes, counts) is a [number]: [Some z] for the integer [z],
      [None] for [NaN].  All such values stay far below 2^53, where the
      arithmetic of doubles is exact.
    - The numbers of the geospatial code are real-valued ([rnum]); [Math.sin]
      and friends are the functions of the real-number library.  Where the
      rounding of double precision changes the kind of a result, a number
      becoming [NaN], the rounded value is an input of the model: the
      haversine term of [distanceMeters] is given by an [arith], and [exact]
      is exact arithmetic.
    - A plain object used as a dictionary is a finite map of its own
      properties.  The code reads [obj[key]] through the prototype chain, so
      the map stands for the object at the keys that are not property names
      of [Object.prototype] ([plainKey]); an assignment to the key
      [__proto__] writes no property.
    - [Math.random] and the wall clock are inputs: the random source is a
      stream of rationals threaded through the code as state, the clock is the
      argument [nowSec].
    - [Array.prototype.sort] is stable; it is embedded as a stable insertion
      sort driven by the test "comparefn(x, y) > 0".  On a list for which
      the comparator is a consistent order this is the order of every
      engine.  The comparator of [nearbyStops] yields [NaN] for a stop
      without a distance, and the order of such a list is left to the
      engine: the statements about order are made for lists in which every
      distance is a number, the others use only that sorting permutes, and
      the examples that hold a stop without a distance are lists in which
      no comparison asks for an exchange, so that they are left as they
      are. *)

From Stdlib Require Import ZArith QArith Qround Reals Lqa Lra Lia List String Ascii Bool.
From Stdlib Require Import Permutation Sorting.Sorted DecimalString OrderedTypeEx.
From stdpp Require Import gmap strings list fin_maps.
Import ListNotations.

Local Open Scope Z_scope.
Local Open Scope string_scope.

(* ===================================================================== *)
(** * Part I: definitions *)
(* ===================================================================== *)

(** ** JavaScript primitives *)

Module Js.

(** [number]: an integer-valued double, or [NaN]. *)
Definition number : Type := option Z.

Definition NaN : number := None.

Definition lift2 (f : Z -> Z -> Z) (a b : number) : number :=
  match a, b with
  | Some x, Some y => Some (f x y)
  | _, _ => None
  end.

Definition add : number -> number -> number := lift2 Z.add.
Definition sub : number -> number -> number := lift2 Z.sub.
Definition mul : number -> number -> number := lift2 Z.mul.
(** [%] keeps the sign of the dividend. *)
Definition rem : number -> number -> number := lift2 Z.rem.

(** Comparisons: every comparison with [NaN] is false. *)
Definition cmp2 (f : Z -> Z -> bool) (a b : number) : bool :=
  match a, b with
  | Some x, Some y => f x y
  | _, _ => false
  end.

Definition geb : number -> number -> bool := cmp2 Z.geb.
Definition leb : number -> number -> bool := cmp2 Z.leb.
Definition ltb : number -> number -> bool := cmp2 Z.ltb.
Definition gtb : number -> number -> bool := cmp2 Z.gtb.

(** [x || 0] on a number or [undefined]: [NaN], [0] and [undefined] are falsy. *)
Definition orZero (a : number) : number :=
  match a with
  | Some x => Some x
  | None => Some 0
  end.

(** Code units. *)
Definition dquote : ascii := ascii_of_nat 34.
Definition comma : ascii := ascii_of_nat 44.
Definition colon : ascii := ascii_of_nat 58.
Definition pipe : ascii := ascii_of_nat 124.
Definition LF : ascii := ascii_of_nat 10.
Definition CR : ascii := ascii_of_nat 13.

(** White space and line terminators among the 8-bit code units. *)
Definition isWhite (c : ascii) : bool :=
  let n := nat_of_ascii c in
  ((9 <=? n)%nat && (n <=? 13)%nat) || (n =? 32)%nat || (n =? 160)%nat.

Fixpoint trimStart (s : string) : string :=
  match s with
  | String c r => if isWhite c then trimStart r else s
  | EmptyString => EmptyString
  end.

(** [trimEnd]: a white-space character is dropped when everything after it
    has been dropped. *)
Fixpoint trimEnd (s : string) : string :=
  match s with
  | String c r =>
      match trimEnd r with
      | EmptyString => if isWhite c then EmptyString else String c EmptyString
      | r' => String c r'
      end
  | EmptyString => EmptyString
  end.

Definition trim (s : string) : string := trimEnd (trimStart s).

Definition upperChar (c : ascii) : ascii :=
  let n := nat_of_ascii c in
  if ((97 <=? n)%nat && (n <=? 122)%nat)%bool then ascii_of_nat (n - 32) else c.

Fixpoint toUpperCase (s : string) : string :=
  match s with
  | String c r => String (upperChar c) (toUpperCase r)
  | EmptyString => EmptyString
  end.

(** [s.split(sep)] for a one-character separator: never the empty array. *)
Fixpoint split (sep : ascii) (s : string) : list string :=
  match s with
  | EmptyString => [EmptyString]
  | String c r =>
      if Ascii.eqb c sep then EmptyString :: split sep r
      else match split sep r with
           | h :: t => String c h :: t
           | [] => [String c EmptyString]
           end
  end.

Definition digitOf (c : ascii) : option Z :=
  let n := nat_of_ascii c in
  if ((48 <=? n)%nat && (n <=? 57)%nat)%bool then Some (Z.of_nat (n - 48)) else None.

(** The longest prefix of decimal digits, read as an integer; [acc] is
    [None] until a digit has been seen. *)
Fixpoint readDigits (acc : option Z) (s : string) : option Z :=
  match s with
  | String c r =>
      match digitOf c with
      | Some d => readDigits (Some (10 * default 0 acc + d)) r
      | None => acc
      end
  | EmptyString => acc
  end.

(** [parseInt(x, 10)]: leading white space is skipped, one sign is
    accepted, then the digits; [NaN] when there is no digit. *)
Definition parseInt10 (x : string) : number :=
  match trimStart x with
  | String c r =>
      if Ascii.eqb c (ascii_of_nat 45) then
        match readDigits None r with Some v => Some (- v) | None => None end
      else if Ascii.eqb c (ascii_of_nat 43) then readDigits None r
      else readDigits None (String c r)
  | EmptyString => None
  end.

(** Decimal rendering of a number in a template literal. *)
Definition toString (a : number) : string :=
  match a with
  | Some z => NilZero.string_of_int (Z.to_int z)
  | None => "NaN"
  end.

(** Stable sort; [gt x y] is the test [comparefn(x, y) > 0]. *)
Section Sort.
Context {A : Type} (gt : A -> A -> bool).

Fixpoint insert (x : A) (l : list A) : list A :=
  match l with
  | [] => [x]
  | y :: l' => if gt x y then y :: insert x l' else x :: l
  end.

Fixpoint sort (l : list A) : list A :=
  match l with
  | [] => []
  | x :: l' => insert x (sort l')
  end.
End Sort.

(** [arr.slice(0, n)]. *)
Definition slice0 {A : Type} (n : nat) (l : list A) : list A := firstn n l.

(** The random source: the stream of values [Math.random] will return. *)
Definition rng : Type := nat -> Q.

(** Computations that draw from the random source. *)
Definition Rand (A : Type) : Type := rng -> A * rng.

Definition ret {A : Type} (a : A) : Rand A := fun g => (a, g).

Definition bind {A B : Type} (m : Rand A) (k : A -> Rand B) : Rand B :=
  fun g => let (a, g') := m g in k a g'.

Definition random : Rand Q := fun g => (g O, fun n => g (S n)).

End Js.

Notation "'let*' x ':=' m 'in' k" := (Js.bind m (fun x => k))
(at level 10, x name, m at level 100, k at level 200, only parsing).

(** ** The application: [src/App.jsx] *)

Module App.
Import Js.

(** *** Distance *)

(** A real-valued number, or [NaN]. *)
Definition rnum : Type := option R.

Definition Rltb (a b : R) : bool := if Rlt_dec a b then true else false.
Definition Rleb (a b : R) : bool := if Rle_dec a b then true else false.

Definition rlift2 (f : R -> R -> R) (a b : rnum) : rnum :=
  match a, b with
  | Some x, Some y => Some (f x y)
  | _, _ => None
  end.

Definition rmap (f : R -> R) (a : rnum) : rnum :=
  match a with
  | Some x => Some (f x)
  | None => None
  end.

(** [Math.sqrt]: [NaN] below zero. *)
Definition rsqrt (a : rnum) : rnum :=
  match a with
  | Some x => if Rltb x 0 then None else Some (sqrt x)
  | None => None
  end.

(** [Math.atan2(y, x)] on reals (the zeros carry no sign). *)
Definition atan2 (y x : R) : R :=
  if Rltb 0 x then atan (y / x)
  else if Rltb x 0 then
    (if Rleb 0 y then atan (y / x) + PI else atan (y / x) - PI)%R
  else if Rltb 0 y then (PI / 2)%R
  else if Rltb y 0 then (- (PI / 2))%R
  else 0%R.

Definition toRad (d : rnum) : rnum := rmap (fun d => d * PI / 180)%R d.

Definition sq (a : rnum) : rnum := rmap (fun v => v * v)%R a.

(** The haversine term [x] of [distanceMeters], in exact arithmetic. *)
Definition exactTerm (aLat aLon bLat bLon : rnum) : rnum :=
  let dLat := toRad (rlift2 Rminus bLat aLat) in
  let dLon := toRad (rlift2 Rminus bLon aLon) in
  let lat1 := toRad aLat in
  let lat2 := toRad bLat in
  rlift2 Rplus
    (sq (rmap sin (rmap (fun v => v / 2)%R dLat)))
    (rlift2 Rmult (rlift2 Rmult (rmap cos lat1) (rmap cos lat2))
       (sq (rmap sin (rmap (fun v => v / 2)%R dLon)))).

(** The arithmetic of the engine.  In double precision the term [x] is
    rounded, and this can change more than its digits: for two points that
    are nearly antipodal the computed term exceeds 1, so that
    [Math.sqrt(1 - x)] and the distance are [NaN], and for coordinates of
    huge magnitude an intermediate value overflows and the term itself is
    [NaN].  Like the random source, the arithmetic is an input of the model:
    [ar aLat aLon bLat bLon] is the term that the engine computes for four
    numbers, a number or [NaN].  [exact] is exact arithmetic. *)
Definition arith : Type := R -> R -> R -> R -> rnum.

Definition exact : arith :=
  fun aLat aLon bLat bLon => exactTerm (Some aLat) (Some aLon) (Some bLat) (Some bLon).

(** The computed term: [NaN] as soon as an argument is. *)
Definition term (ar : arith) (aLat aLon bLat bLon : rnum) : rnum :=
  match aLat, aLon, bLat, bLon with
  | Some a, Some o, Some b, Some p => ar a o b p
  | _, _, _, _ => None
  end.

Definition distanceMeters (ar : arith) (aLat aLon bLat bLon : rnum) : rnum :=
  let R := 6371000%R in
  let x := term ar aLat aLon bLat bLon in
  rmap (fun a => 2 * R * a)%R
    (rlift2 atan2 (rsqrt x) (rsqrt (rlift2 Rminus (Some 1%R) x))).

(** *** Clock strings and countdowns *)

Definition timeToSecondsSinceMidnight (hms : string) : number :=
  let parts := List.map parseInt10 (split colon hms) in
  let h := nth 0 parts NaN in
  let m := nth 1 parts NaN in
  let s := nth 2 parts NaN in
  add (add (mul h (Some 3600)) (mul m (Some 60))) (orZero s).

(** [nowSec] is the value of [nowSecondsSinceMidnight()]. *)
Definition etaSecondsFromGTFS (nowSec : Z) (timeStr : string) : number :=
  let tSecRaw := timeToSecondsSinceMidnight timeStr in
  let tSecNorm := rem tSecRaw (Some 86400) in
  let isNextDay := geb tSecRaw (Some 86400) in
  if isNextDay then sub (add tSecNorm (Some 86400)) (Some nowSec)
  else if ltb tSecNorm (Some nowSec) then sub (add tSecNorm (Some 86400)) (Some nowSec)
  else sub tSecNorm (Some nowSec).

(** [Math.round(diffSec / 60)]: halves round up. *)
Definition roundDiv60 (diffSec : number) : number :=
  match diffSec with
  | Some d => Some ((d + 30) / 60)
  | None => None
  end.

Definition fmtEtaMinutes (diffSec : number) : string :=
  let min := roundDiv60 diffSec in
  if leb min (Some 0) then "Now"
  else if cmp2 Z.eqb min (Some 1) then "1 min"
  else toString min ++ " min".

(** [Math.floor(Math.random() * (jitter * 2 + 1) - jitter)] for the drawn
    value [r]. *)
Definition noiseOf (jitter : Z) (r : Q) : Z :=
  Qfloor (r * inject_Z (jitter * 2 + 1) - inject_Z jitter).

(** The loop of [simulateEtas], from index [i], [n] iterations left. *)
Fixpoint simulateLoop (base jitter step : Z) (i : Z) (n : nat) : Rand (list Z) :=
  match n with
  | O => ret []
  | S n' =>
      let* r := random in
      let minutes := Z.max 1 (base + i * step + noiseOf jitter r) in
      let* rest := simulateLoop base jitter step (i + 1) n' in
      ret (minutes :: rest)
  end.

Definition simulateEtas (base : Z) (count : nat) (jitter step : Z) : Rand (list Z) :=
  let* out := simulateLoop base jitter step 0 count in
  ret (sort (fun a b => (a - b >? 0)) out).

Definition MAX_SHOW_MIN : Z := 90.
Definition SOON_WINDOW_MIN : Z := 20.

(** *** Nearest stops *)

(** The value stored under [lat] or [lon] of a stop object. [JOther]
    stands for any value that [Number] maps to [NaN], such as a
    non-numeric string. *)
Inductive json : Type :=
| JNumber (r : R)
| JNull
| JUndefined
| JOther.

(** [Number(v)]. *)
Definition Number (v : json) : rnum :=
  match v with
  | JNumber r => Some r
  | JNull => Some 0%R
  | JUndefined => None
  | JOther => None
  end.

Record Stop : Type := mkStop
  { id : string;
    name : string;
    lat : json;
    lon : json }.

Record Loc : Type := mkLoc { loc_lat : R; loc_lon : R }.

(** The object [{...s, distM}]. *)
Definition StopDist : Type := (Stop * rnum)%type.

Definition distM (s : StopDist) : rnum := snd s.

(** [a.distM - b.distM > 0]. *)
Definition byDist (a b : StopDist) : bool :=
  match rlift2 Rminus (distM a) (distM b) with
  | Some d => Rltb 0 d
  | None => false
  end.

Definition withinRadius (s : StopDist) : bool :=
  match distM s with
  | Some d => Rleb d 1200
  | None => false
  end.

Definition withDist (ar : arith) (STOPS : list Stop) (activeLoc : Loc) : list StopDist :=
  sort byDist
    (List.map
       (fun s => (s, distanceMeters ar (Some (loc_lat activeLoc)) (Some (loc_lon activeLoc))
                       (Number (lat s)) (Number (lon s))))
       STOPS).

Definition nearbyStops (ar : arith) (STOPS : list Stop) (activeLoc : option Loc)
  : list StopDist :=
  match activeLoc with
  | None => []
  | Some loc =>
      let withDist := withDist ar STOPS loc in
      let within := List.filter withinRadius withDist in
      slice0 12 (match within with _ :: _ => within | [] => withDist end)
  end.

(** *** Arrival groups *)

Inductive Source : Type := scheduled | estimated.

Record Arrival : Type := mkArrival
  { timeStr : option string;
    etaSec : number;
    etaLabel : string;
    source : Source }.

Record Group : Type := mkGroup
  { line : string;
    headsign : string;
    upcoming : list Arrival }.

(** The [{timeStr, etaSec}] objects of the first [map]. *)
Definition timed : Type := (string * number)%type.

Definition byEta (a b : number) : bool := gtb (sub a b) (Some 0).

Definition upcomingScheduled (nowSec : Z) (times : list string) : list Arrival :=
  List.map
    (fun x : timed =>
       {| timeStr := Some (fst x);
          etaSec := snd x;
          etaLabel := fmtEtaMinutes (snd x);
          source := scheduled |})
    (slice0 5
       (sort (fun a b : timed => byEta (snd a) (snd b))
          (List.filter (fun x : timed => leb (snd x) (Some (MAX_SHOW_MIN * 60)))
             (List.filter (fun x : timed => geb (snd x) (Some 0))
                (List.map (fun t => (t, etaSecondsFromGTFS nowSec t)) times))))).

Definition hasSoon (ups : list Arrival) : bool :=
  existsb (fun u => leb (etaSec u) (Some (SOON_WINDOW_MIN * 60))) ups.

Definition simArrival (m : Z) : Arrival :=
  {| timeStr := None;
     etaSec := Some (m * 60);
     etaLabel := toString (Some m) ++ " min";
     source := estimated |}.

(** The body of the inner loop: the groups pushed for one
    (line, headsign) key, none or one. *)
Definition groupsForKey (nowSec : Z) (ln hs : string) (times : list string)
  : Rand (list Group) :=
  let ups := upcomingScheduled nowSec times in
  if negb (hasSoon ups) then
    let* mins := simulateEtas 6 3 2 6 in
    let sim := List.map simArrival mins in
    let maybeFirstScheduled := match ups with u :: _ => [u] | [] => [] end in
    ret [ {| line := toUpperCase ln;
             headsign := hs;
             upcoming := slice0 4 (sim ++ maybeFirstScheduled)%list |} ]
  else
    match ups with
    | _ :: _ =>
        ret [ {| line := toUpperCase ln;
                 headsign := hs;
                 upcoming := slice0 4 ups |} ]
    | [] => ret []
    end.

(** A JSON object: its keys in [Object.keys] order, with their values. *)
Definition obj (V : Type) : Type := list (string * V).

Fixpoint getProp {V : Type} (o : obj V) (k : string) : option V :=
  match o with
  | [] => None
  | (k', v) :: o' => if String.eqb k' k then Some v else getProp o' k
  end.

Fixpoint forHeadsigns (nowSec : Z) (ln : string) (byHeadsign : obj (list string))
  : Rand (list Group) :=
  match byHeadsign with
  | [] => ret []
  | (hs, times) :: rest =>
      let* g := groupsForKey nowSec ln hs times in
      let* gs := forHeadsigns nowSec ln rest in
      ret (g ++ gs)%list
  end.

Fixpoint forLines (nowSec : Z) (stationData : obj (obj (list string)))
  : Rand (list Group) :=
  match stationData with
  | [] => ret []
  | (ln, byHeadsign) :: rest =>
      let* g := forHeadsigns nowSec ln byHeadsign in
      let* gs := forLines nowSec rest in
      ret (g ++ gs)%list
  end.

(** [a.upcoming[0]?.etaSec ?? 999999]. *)
Definition firstEta (g : Group) : number :=
  match upcoming g with
  | u :: _ => etaSec u
  | [] => Some 999999
  end.

Definition nextArrivals (ARRIVALS_BY_DEST : obj (obj (obj (list string))))
    (nowSec : Z) (selectedStopId : option string) : Rand (list Group) :=
  match selectedStopId with
  | None => ret []
  | Some id =>
      match getProp ARRIVALS_BY_DEST id with
      | None => ret []
      | Some stationData =>
          let* groups := forLines nowSec stationData in
          ret (sort (fun a b => byEta (firstEta a) (firstEta b)) groups)
      end
  end.

End App.

(** ** Rows of the feed's relations

  A row object, restricted to the fields the scripts read; [None] is a
  field that is [undefined] in the row. *)

Module Stops.
Record row : Type := mk
  { stop_id : option string;
    parent_station : option string }.
End Stops.

Module Routes.
Record row : Type := mk
  { route_id : option string;
    route_short_name : option string;
    route_type : option string }.
End Routes.

Module Trips.
Record row : Type := mk
  { trip_id : option string;
    route_id : option string;
    trip_headsign : option string;
    direction_id : option string;
    shape_id : option string }.
End Trips.

Module StopTimes.
Record row : Type := mk
  { trip_id : option string;
    stop_id : option string;
    arrival_time : option string }.
End StopTimes.

(** A row of [shapes.txt]; the three numeric fields are given by their value
  under [Number], [None] when that value is not finite. *)
Module Shapes.
Record row : Type := mk
  { shape_id : option string;
    shape_pt_lat : option Q;
    shape_pt_lon : option Q;
    shape_pt_sequence : option Q }.
End Shapes.

(** Truthiness of a string-valued field; [x || ""]; a [Map] with string keys
  read at a possibly undefined key. *)
Definition truthy (x : option string) : bool :=
match x with
| Some s => negb (String.eqb s "")
| None => false
end.

Definition orEmpty (x : option string) : string := default "" x.

Definition mapGet {V : Type} (m : gmap string V) (k : option string) : option V :=
match k with
| Some k => m !! k
| None => None
end.

(** ** [scripts/build_station_to_lines.mjs] *)

Module StationToLines.
Import Js.

Fixpoint splitCsvLoop (line : string) (out : list string) (cur : string)
    (inQuotes : bool) : list string :=
  match line with
  | EmptyString => (out ++ [cur])%list
  | String ch rest =>
      if Ascii.eqb ch dquote then splitCsvLoop rest out cur (negb inQuotes)
      else if Ascii.eqb ch comma && negb inQuotes then
        splitCsvLoop rest (out ++ [cur])%list "" inQuotes
      else splitCsvLoop rest out (cur ++ String ch "") inQuotes
  end.

Definition splitCsvLine (line : string) : list string :=
  splitCsvLoop line [] "" false.

(** Step 2 of [main]: one route row. *)
Definition addRoute (routeIdToShort : gmap string string) (r : Routes.row)
  : gmap string string :=
  let routeId := Routes.route_id r in
  let shortName := trim (orEmpty (Routes.route_short_name r)) in
  if truthy routeId && truthy (Some shortName)
  then <[orEmpty routeId := toUpperCase shortName]> routeIdToShort
  else routeIdToShort.

Definition routeIdToShort (routes : list Routes.row) : gmap string string :=
  fold_left addRoute routes ∅.

End StationToLines.

(** ** [scripts/build_station_arrivals_by_destination.mjs] *)

Module Arrivals.
Import Js.

(** The same splitter as in [build_station_to_lines.mjs]. *)
Definition splitCsvLine : string -> list string := StationToLines.splitCsvLine.

(** The index under construction: station -> line -> headsign -> times. *)
Abbreviation index := (gmap string (gmap string (gmap string (list string)))).

(** A property key: [undefined] reads as the string "undefined". *)
Definition propKey (k : option string) : string := default "undefined" k.

(** The objects are the maps of their entries, which is what the code sees
    at keys that are not property names of [Object.prototype]; at such a
    name [obj[key]] is the inherited value, and the code does not create an
    entry. *)
Definition pushTime (obj : index) (stationId : option string)
    (line headsign t : string) : index :=
  let sid := propKey stationId in
  let st := default ∅ (obj !! sid) in
  let ln := default ∅ (st !! line) in
  let arr := default [] (ln !! headsign) in
  <[sid := <[line := <[headsign := (arr ++ [t])%list]> ln]> st]> obj.

Definition normalizeTime (t : option string) : option string :=
  match t with
  | None => None
  | Some t =>
      if String.eqb t "" then None
      else let s := trim t in
           if String.eqb s "" then None else Some s
  end.

(** Step 1: [stop_id -> parent_station], or itself.  The key and the value
    may be [undefined]. *)
Definition addStop (stopToStation : gmap (option string) (option string))
    (r : Stops.row) : gmap (option string) (option string) :=
  let stopId := Stops.stop_id r in
  let parent := Stops.parent_station r in
  <[stopId := if truthy parent then parent else stopId]> stopToStation.

(** Step 2: [route_id -> short name]. *)
Definition addRoute (routeIdToLine : gmap string string) (r : Routes.row)
  : gmap string string :=
  let routeId := Routes.route_id r in
  let short := trim (orEmpty (Routes.route_short_name r)) in
  if truthy routeId && truthy (Some short)
  then <[orEmpty routeId := toUpperCase short]> routeIdToLine
  else routeIdToLine.

Definition routeIdToLine (routes : list Routes.row) : gmap string string :=
  fold_left addRoute routes ∅.

(** Step 3: [trip_id -> (line, headsign)]. *)
Definition addTrip (routeIdToLine : gmap string string)
    (tripInfo : gmap string (string * string)) (r : Trips.row)
  : gmap string (string * string) :=
  let tripId := Trips.trip_id r in
  let line := mapGet routeIdToLine (Trips.route_id r) in
  let headsign := trim (orEmpty (Trips.trip_headsign r)) in
  if truthy tripId && truthy line && truthy (Some headsign)
  then <[orEmpty tripId := (orEmpty line, headsign)]> tripInfo
  else tripInfo.

(** Step 4: one row of [stop_times.txt]. *)
Definition addStopTime (stopToStation : gmap (option string) (option string))
    (tripInfo : gmap string (string * string)) (out : index) (r : StopTimes.row)
  : index :=
  match normalizeTime (StopTimes.arrival_time r) with
  | None => out
  | Some time =>
      match mapGet tripInfo (StopTimes.trip_id r) with
      | None => out
      | Some info =>
          let stopId := StopTimes.stop_id r in
          let found := default None (stopToStation !! stopId) in
          let stationId := if truthy found then found else stopId in
          pushTime out stationId (fst info) (snd info) time
      end
  end.

(** Step 5: [arr.sort()] orders strings by their code units. *)
Definition finalizeBucket (arr : list string) : list string :=
  slice0 120 (sort (fun a b => String.ltb b a) arr).

Definition finalize (out : index) : index :=
  (fun st : gmap string (gmap string (list string)) =>
     (fun ln : gmap string (list string) => finalizeBucket <$> ln) <$> st) <$> out.

Definition main (stops : list Stops.row) (routes : list Routes.row)
    (trips : list Trips.row) (stopTimes : list StopTimes.row) : index :=
  let stopToStation := fold_left addStop stops ∅ in
  let routeIdToLine := routeIdToLine routes in
  let tripInfo := fold_left (addTrip routeIdToLine) trips ∅ in
  let out := fold_left (addStopTime stopToStation tripInfo) stopTimes ∅ in
  finalize out.

End Arrivals.

(** ** [scripts/build_gtfs_json.js] *)

Module GtfsJson.
Import Js.

Definition nextIs (c : ascii) (rest : string) : bool :=
  match rest with
  | String c' _ => Ascii.eqb c' c
  | EmptyString => false
  end.

(** The loop of [parseCSV]; the result is the state [(rows, row, cur)] at the
    end of the text. *)
Fixpoint parseLoop (text : string) (rows : list (list string)) (row : list string)
    (cur : string) (inQuotes : bool) : list (list string) * list string * string :=
  match text with
  | EmptyString => (rows, row, cur)
  | String ch rest =>
      if Ascii.eqb ch dquote then
        match rest with
        | String next rest' =>
            if inQuotes && Ascii.eqb next dquote
            then parseLoop rest' rows row (cur ++ String dquote "") inQuotes
            else parseLoop rest rows row cur (negb inQuotes)
        | EmptyString => parseLoop rest rows row cur (negb inQuotes)
        end
      else if negb inQuotes && (Ascii.eqb ch comma || Ascii.eqb ch LF || Ascii.eqb ch CR) then
        if Ascii.eqb ch CR && nextIs LF rest then parseLoop rest rows row cur inQuotes
        else if Ascii.eqb ch comma then parseLoop rest rows (row ++ [cur])%list "" inQuotes
        else parseLoop rest (rows ++ [(row ++ [cur])%list])%list [] "" inQuotes
      else parseLoop rest rows row (cur ++ String ch "") inQuotes
  end.

Definition nonBlankRow (r : list string) : bool :=
  existsb (fun c => negb (String.eqb (trim c) "")) r.

Definition parseCSV (text : string) : list (list string) :=
  let '(rows, row, cur) := parseLoop text [] [] "" false in
  let rows :=
    if negb (String.eqb cur "") || negb (Nat.eqb (List.length row) 0)
    then (rows ++ [(row ++ [cur])%list])%list
    else rows in
  List.filter nonBlankRow rows.

(** Only the routes of type 1 when the relation has a [route_type] column. *)
Definition subwayRoutes (routes : list Routes.row) : list Routes.row :=
  if existsb (fun r => bool_decide (is_Some (Routes.route_type r))) routes
  then List.filter
         (fun r => String.eqb (default "undefined" (Routes.route_type r)) "1") routes
  else routes.

(** The key and the value of the [Map] may be [undefined]. *)
Definition addRoute (routeIdToShort : gmap (option string) (option string))
    (r : Routes.row) : gmap (option string) (option string) :=
  let shortName := trim (orEmpty (Routes.route_short_name r)) in
  <[Routes.route_id r :=
      if truthy (Some shortName) then Some shortName else Routes.route_id r]>
    routeIdToShort.

Definition routeIdToShort (routes : list Routes.row)
  : gmap (option string) (option string) :=
  fold_left addRoute (subwayRoutes routes) ∅.

End GtfsJson.

(** ** [scripts/build_route_shapes.mjs] *)

Module RouteShapes.
Import Js.

Definition LINE_COLORS : list (string * string) :=
  [ ("1", "#EE352E"); ("2", "#EE352E"); ("3", "#EE352E");
    ("4", "#00933C"); ("5", "#00933C"); ("6", "#00933C");
    ("7", "#B933AD");
    ("A", "#0039A6"); ("C", "#0039A6"); ("E", "#0039A6");
    ("B", "#FF6319"); ("D", "#FF6319"); ("F", "#FF6319"); ("M", "#FF6319");
    ("N", "#FCCC0A"); ("Q", "#FCCC0A"); ("R", "#FCCC0A"); ("W", "#FCCC0A");
    ("J", "#996633"); ("Z", "#996633");
    ("L", "#A7A9AC");
    ("S", "#808183") ].

Fixpoint parseCSVLoop (line : string) (out : list string) (cur : string)
    (inQuotes : bool) : list string :=
  match line with
  | EmptyString => (out ++ [cur])%list
  | String ch rest =>
      if Ascii.eqb ch dquote then
        match rest with
        | String next rest' =>
            if inQuotes && Ascii.eqb next dquote
            then parseCSVLoop rest' out (cur ++ String dquote "") inQuotes
            else parseCSVLoop rest out cur (negb inQuotes)
        | EmptyString => parseCSVLoop rest out cur (negb inQuotes)
        end
      else if Ascii.eqb ch comma && negb inQuotes then
        parseCSVLoop rest (out ++ [cur])%list "" inQuotes
      else parseCSVLoop rest out (cur ++ String ch "") inQuotes
  end.

Definition parseCSVLine (line : string) : list string :=
  parseCSVLoop line [] "" false.

(** A [Map] whose iteration order is observed: the entries in insertion
    order; [set] on a present key keeps its place. *)
Definition omap (V : Type) : Type := list (string * V).

Fixpoint omapGet {V : Type} (m : omap V) (k : string) : option V :=
  match m with
  | [] => None
  | (k', v) :: m' => if String.eqb k' k then Some v else omapGet m' k
  end.

Fixpoint omapSet {V : Type} (m : omap V) (k : string) (v : V) : omap V :=
  match m with
  | [] => [(k, v)]
  | (k', v') :: m' =>
      if String.eqb k' k then (k, v) :: m' else (k', v') :: omapSet m' k v
  end.

(** Step 1: [route_id -> route_short_name], the id when the name is blank. *)
Definition addRoute (routeIdToShort : gmap string string) (r : Routes.row)
  : gmap string string :=
  let route_id := Routes.route_id r in
  let short := trim (orEmpty (Routes.route_short_name r)) in
  if truthy route_id
  then <[orEmpty route_id := if truthy (Some short) then short else orEmpty route_id]>
         routeIdToShort
  else routeIdToShort.

Definition routeIdToShort (routes : list Routes.row) : gmap string string :=
  fold_left addRoute routes ∅.

Definition joinKey (parts : list string) : string :=
  String.concat (String pipe "") parts.

(** Step 2: one trip row; the key is [route_id|dir|shape_id]. *)
Definition addTrip (counts : omap Z) (t : Trips.row) : omap Z :=
  let route_id := Trips.route_id t in
  let shape_id := Trips.shape_id t in
  let direction_id := trim (orEmpty (Trips.direction_id t)) in
  if negb (truthy route_id) || negb (truthy shape_id) then counts
  else
    let dir := if String.eqb direction_id "" then "0" else direction_id in
    let key := joinKey [orEmpty route_id; dir; orEmpty shape_id] in
    omapSet counts key (default 0 (omapGet counts key) + 1).

Definition counts (trips : list Trips.row) : omap Z := fold_left addTrip trips [].

Record Best : Type := mkBest { shape_id : string; count : Z }.

(** One entry of [counts]; a key has at least two separators, so its first
    three parts exist. *)
Definition pickBest (bestShapeByRouteDir : omap Best) (entry : string * Z)
  : omap Best :=
  let '(key, count) := entry in
  let parts := split pipe key in
  let route_id := nth 0 parts "undefined" in
  let dir := nth 1 parts "undefined" in
  let shape_id := nth 2 parts "undefined" in
  let rd := joinKey [route_id; dir] in
  match omapGet bestShapeByRouteDir rd with
  | Some existing =>
      if count >? RouteShapes.count existing
      then omapSet bestShapeByRouteDir rd {| shape_id := shape_id; count := count |}
      else bestShapeByRouteDir
  | None => omapSet bestShapeByRouteDir rd {| shape_id := shape_id; count := count |}
  end.

Definition bestShapeByRouteDir (counts : omap Z) : omap Best :=
  fold_left pickBest counts [].

Definition chosenShapeIds (best : omap Best) : list string :=
  List.map (fun x => shape_id (snd x)) best.

Record Point : Type := mkPoint { seq : Q; lat : Q; lon : Q }.

(** Step 3: one row of [shapes.txt]. *)
Definition addShape (chosen : list string) (shapePoints : gmap string (list Point))
    (s : Shapes.row) : gmap string (list Point) :=
  let shape_id := Shapes.shape_id s in
  if negb (truthy shape_id) || negb (existsb (String.eqb (orEmpty shape_id)) chosen)
  then shapePoints
  else
    match Shapes.shape_pt_lat s, Shapes.shape_pt_lon s, Shapes.shape_pt_sequence s with
    | Some lat, Some lon, Some seq =>
        let pts := default [] (shapePoints !! orEmpty shape_id) in
        <[orEmpty shape_id := (pts ++ [ {| seq := seq; lat := lat; lon := lon |} ])%list]>
          shapePoints
    | _, _, _ => shapePoints
    end.

Definition bySeq (a b : Point) : bool := negb (Qle_bool (seq a) (seq b)).

Definition shapePoints (chosen : list string) (shapes : list Shapes.row)
  : gmap string (list Point) :=
  sort bySeq <$> fold_left (addShape chosen) shapes ∅.

Record Feature : Type := mkFeature
  { coordinates : list (Q * Q);
    route_id : string;
    route_short_name : string;
    direction_id : string;
    f_shape_id : string;
    color : string;
    trips_sampled : Z }.

Definition colorOf (short : string) : string :=
  default "#999999" (omapGet LINE_COLORS (toUpperCase short)).

(** Step 4: the features pushed for one entry of [bestShapeByRouteDir],
    none or one. *)
Definition featureFor (routeIdToShort : gmap string string)
    (shapePoints : gmap string (list Point)) (entry : string * Best) : list Feature :=
  let '(rd, best) := entry in
  let parts := split pipe rd in
  let route_id := nth 0 parts "undefined" in
  let dir := nth 1 parts "undefined" in
  let shape_id := shape_id best in
  let pts := default [] (shapePoints !! shape_id) in
  if (List.length pts <? 2)%nat then []
  else
    let short :=
      trim (match routeIdToShort !! route_id with
            | Some v => if String.eqb v "" then route_id else v
            | None => route_id
            end) in
    [ {| coordinates := List.map (fun p => (lon p, lat p)) pts;
         route_id := route_id;
         route_short_name := short;
         direction_id := dir;
         f_shape_id := shape_id;
         color := colorOf short;
         trips_sampled := count best |} ].

(** The array [features] as the loop of step 4 leaves it; the final
    [features.sort] reorders it by short name and direction. *)
Definition features (routes : list Routes.row) (trips : list Trips.row)
    (shapes : list Shapes.row) : list Feature :=
  let routeIdToShort := routeIdToShort routes in
  let best := bestShapeByRouteDir (counts trips) in
  let shapePoints := shapePoints (chosenShapeIds best) shapes in
  flat_map (featureFor routeIdToShort shapePoints) best.

End RouteShapes.

(** ** Row objects of the table loaders *)

Module Tables.
Import Js.

(** A row object: field name -> value; a field that is [undefined] is
    absent. *)
Abbreviation rowObject := (gmap string string).







(** [csvToObjects] of [build_gtfs_json.js]: [o[headers[j]] = r[j] ?? ""].
    The assignment of a string to the key [__proto__] writes nothing. *)
Fixpoint fillObject (headers r : list string) (o : rowObject) : rowObject :=
  match headers with
  | [] => o
  | h :: hs =>
      fillObject hs (tl r)
        (if negb (String.eqb h "__proto__") then <[h := default "" (head r)]> o else o)
  end.

Definition csvToObjects (raw : string) : list rowObject :=
  match GtfsJson.parseCSV raw with
  | [] => []
  | headers :: rows => List.map (fun r => fillObject headers r ∅) rows
  end.

(** The fields that the scripts read from a row. *)
Definition stopsRow (r : rowObject) : Stops.row :=
  Stops.mk (r !! "stop_id") (r !! "parent_station").

Definition routesRow (r : rowObject) : Routes.row :=
  Routes.mk (r !! "route_id") (r !! "route_short_name") (r !! "route_type").

Definition tripsRow (r : rowObject) : Trips.row :=
  Trips.mk (r !! "trip_id") (r !! "route_id") (r !! "trip_headsign")
    (r !! "direction_id") (r !! "shape_id").

Definition stopTimesRow (r : rowObject) : StopTimes.row :=
  StopTimes.mk (r !! "trip_id") (r !! "stop_id") (r !! "arrival_time").

End Tables.

(** ** The rest of [scripts/build_station_to_lines.mjs] *)

Module BuildStationToLines.
Import Js.

(** A [Map] keyed by a possibly undefined id, in insertion order. *)
Definition kmap (V : Type) : Type := list (option string * V).

Fixpoint kget {V : Type} (m : kmap V) (k : option string) : option V :=
  match m with
  | [] => None
  | (k', v) :: m' => if bool_decide (k' = k) then Some v else kget m' k
  end.

Fixpoint kset {V : Type} (m : kmap V) (k : option string) (v : V) : kmap V :=
  match m with
  | [] => [(k, v)]
  | (k', v') :: m' =>
      if bool_decide (k' = k) then (k, v) :: m' else (k', v') :: kset m' k v
  end.

(** A [Set] of strings, in insertion order. *)
Definition setAdd (s : list string) (x : string) : list string :=
  if existsb (String.eqb x) s then s else (s ++ [x])%list.

(** Step 1 is the step 1 of the arrivals script. *)
Definition stopToStation (stops : list Stops.row) : gmap (option string) (option string) :=
  fold_left Arrivals.addStop stops ∅.

(** Step 3: [trip_id -> route_short_name]. *)
Definition addTrip (routeIdToShort : gmap string string) (tripToLine : gmap string string)
    (r : Trips.row) : gmap string string :=
  let tripId := Trips.trip_id r in
  let line := mapGet routeIdToShort (Trips.route_id r) in
  if truthy tripId && truthy line
  then <[orEmpty tripId := orEmpty line]> tripToLine
  else tripToLine.

(** Step 4: one row of [stop_times.txt]. *)
Definition addStopTime (stopToStation : gmap (option string) (option string))
    (tripToLine : gmap string string) (stationToLines : kmap (list string))
    (r : StopTimes.row) : kmap (list string) :=
  let line := mapGet tripToLine (StopTimes.trip_id r) in
  if negb (truthy line) then stationToLines
  else
    let stopId := StopTimes.stop_id r in
    let found := default None (stopToStation !! stopId) in
    let stationId := if truthy found then found else stopId in
    kset stationToLines stationId
      (setAdd (default [] (kget stationToLines stationId)) (orEmpty line)).

(** Step 5: [outObj[stationId] = Array.from(set).sort()].  An assignment to
    the key [__proto__] sets the prototype of [outObj] and writes no
    property. *)
Definition addOutput (outObj : gmap string (list string))
    (entry : option string * list string) : gmap string (list string) :=
  let key := Arrivals.propKey (fst entry) in
  if negb (String.eqb key "__proto__")
  then <[key := sort (fun a b => String.ltb b a) (snd entry)]> outObj
  else outObj.

Definition stationToLines (stops : list Stops.row) (routes : list Routes.row)
    (trips : list Trips.row) (stopTimes : list StopTimes.row) : kmap (list string) :=
  let stopToStation := stopToStation stops in
  let routeIdToShort := StationToLines.routeIdToShort routes in
  let tripToLine := fold_left (addTrip routeIdToShort) trips ∅ in
  fold_left (addStopTime stopToStation tripToLine) stopTimes [].

Definition main (stops : list Stops.row) (routes : list Routes.row)
    (trips : list Trips.row) (stopTimes : list StopTimes.row)
  : gmap string (list string) :=
  fold_left addOutput (stationToLines stops routes trips stopTimes) ∅.

End BuildStationToLines.

(** ** The stop-to-routes table of [scripts/build_gtfs_json.js] *)

Module StopToRoutes.
Import Js.

(** Step 3: [trip_id -> route_id]. *)
Definition addTrip (tripToRoute : gmap string string) (t : Trips.row)
  : gmap string string :=
  if truthy (Trips.trip_id t) && truthy (Trips.route_id t)
  then <[orEmpty (Trips.trip_id t) := orEmpty (Trips.route_id t)]> tripToRoute
  else tripToRoute.

Definition tripToRoute (trips : list Trips.row) : gmap string string :=
  fold_left addTrip trips ∅.

(** Step 4: one data row of [stop_times.txt]; the [Map] of sets is kept in
    insertion order. *)
Definition addStopTime (routeIdToShort : gmap (option string) (option string))
    (tripToRoute : gmap string string)
    (stopToRouteShortSet : RouteShapes.omap (list string)) (row : StopTimes.row)
  : RouteShapes.omap (list string) :=
  let tripId := StopTimes.trip_id row in
  let stopId := StopTimes.stop_id row in
  if negb (truthy tripId) || negb (truthy stopId) then stopToRouteShortSet
  else
    let routeId := mapGet tripToRoute tripId in
    if negb (truthy routeId) then stopToRouteShortSet
    else
      let short := default None (routeIdToShort !! routeId) in
      if negb (truthy short) then stopToRouteShortSet
      else
        RouteShapes.omapSet stopToRouteShortSet (orEmpty stopId)
          (BuildStationToLines.setAdd
             (default [] (RouteShapes.omapGet stopToRouteShortSet (orEmpty stopId)))
             (toUpperCase (orEmpty short))).

Definition stopToRouteShortSet (routes : list Routes.row) (trips : list Trips.row)
    (stopTimes : list StopTimes.row) : RouteShapes.omap (list string) :=
  fold_left (addStopTime (GtfsJson.routeIdToShort routes) (tripToRoute trips)) stopTimes [].

(** [stopToRoutesJson[stopId] = Array.from(set).sort()].  An assignment to
    the key [__proto__] sets the prototype of the object and writes no
    property. *)
Definition addOutput (stopToRoutesJson : gmap string (list string))
    (entry : string * list string) : gmap string (list string) :=
  if negb (String.eqb (fst entry) "__proto__")
  then <[fst entry := sort (fun a b => String.ltb b a) (snd entry)]> stopToRoutesJson
  else stopToRoutesJson.

Definition stopToRoutesJson (routes : list Routes.row) (trips : list Trips.row)
    (stopTimes : list StopTimes.row) : gmap string (list string) :=
  fold_left addOutput (stopToRouteShortSet routes trips stopTimes) ∅.

End StopToRoutes.

(** ** Walking time and favorites: [src/App.jsx] *)

Module Walk.
Import Js App.

(** [Math.round] on a real number: the nearest integer, halves up. *)
Definition round (x : R) : Z := Int_part (x + / 2).

(** [fmtWalkMinutes]; a value of type [rnum] that is a number is finite. *)
Definition fmtWalkMinutes (meters : rnum) : string :=
  match meters with
  | None => ""
  | Some m =>
      if Rltb m 80 then "< 1 min"
      else toString (Some (Z.max 1 (round (m / 80)))) ++ " min"
  end.

End Walk.

Module Favorites.
Import Js App.

(** [isFav]: [favorites.includes(id)]. *)
Definition isFav (favorites : list string) (id : string) : bool :=
  existsb (String.eqb id) favorites.

(** The update function that [toggleFav] passes to [setFavorites]. *)
Definition toggleFav (prev : list string) (id : string) : list string :=
  if existsb (String.eqb id) prev
  then List.filter (fun x => negb (String.eqb x id)) prev
  else (prev ++ [id])%list.

(** [new Map(all.map((s) => [s.id, s]))]: the last stop of an id wins. *)
Definition mapById (all : list Stop) : gmap string Stop :=
  fold_left (fun m s => <[id s := s]> m) all ∅.

(** [favorites.map((id) => mapById.get(id)).filter(Boolean)]. *)
Definition favoriteStopsList (STOPS : list Stop) (favorites : list string) : list Stop :=
  flat_map (fun found : option Stop => match found with Some s => [s] | None => [] end)
    (List.map (fun id => mapById STOPS !! id) favorites).

End Favorites.

(** ** The kept stops of [scripts/build_gtfs_json.js] *)

Module GtfsStations.

(** A row object of [stops.txt], restricted to the fields read here. *)
Record row : Type := mk
  { stop_id : option string;
    stop_name : option string;
    location_type : option string }.

(** The parent stations ([location_type] 1) when there is one, otherwise all
    stops. *)
Definition stationStops (stops : list row) : list row :=
  let stationStops :=
    List.filter (fun s => String.eqb (orEmpty (location_type s)) "1") stops in
  if Nat.eqb (List.length stationStops) 0 then stops else stationStops.

End GtfsStations.

(** ** Selections of the application: [src/App.jsx] *)

Module AppView.
Import Js App.

(** [headsignOptions]: the directions offered for the selected stop and
    line. *)
Definition headsignOptions (ARRIVALS_BY_DEST : obj (obj (obj (list string))))
    (selectedStopId selectedLine : option string) : list string :=
  match selectedStopId with
  | None => []
  | Some id =>
      if negb (truthy selectedLine) then []
      else
        match getProp ARRIVALS_BY_DEST id with
        | None => []
        | Some stationData =>
            match getProp stationData (toUpperCase (orEmpty selectedLine)) with
            | None => []
            | Some lineData => List.map fst lineData
            end
        end
  end.

(** [visibleArrivals]: the groups of the selected line and direction. *)
Definition visibleArrivals (nextArrivals : list Group)
    (selectedLine selectedHeadsign : option string) : list Group :=
  let list := nextArrivals in
  let list :=
    if truthy selectedLine
    then List.filter
           (fun g => String.eqb (line g) (toUpperCase (orEmpty selectedLine))) list
    else list in
  if truthy selectedHeadsign
  then List.filter (fun g => String.eqb (headsign g) (orEmpty selectedHeadsign)) list
  else list.

End AppView.

(** ** The selected stop: [src/App.jsx] *)

Module Selection.
Import Js App.




End Selection.

(** ** Vocabulary of the statements *)

(** The clock string [HH:MM:SS] of two-digit fields. *)
Definition digitChar (d : nat) : ascii := ascii_of_nat (48 + d).

Definition twoDigits (n : nat) : string :=
  String (digitChar (n / 10)) (String (digitChar (n mod 10)) "").

Definition clock (h m s : nat) : string :=
  twoDigits h ++ String Js.colon (twoDigits m ++ String Js.colon (twoDigits s)).

(** The raw seconds of a clock string. *)
Definition rawSeconds (h m s : nat) : Z :=
  Z.of_nat h * 3600 + Z.of_nat m * 60 + Z.of_nat s.

(** A listed clock string is inside the display horizon when its countdown
    is a number between 0 and 90 minutes. *)
Definition inHorizon (nowSec : Z) (t : string) : bool :=
  match App.etaSecondsFromGTFS nowSec t with
  | Some e => (0 <=? e)%Z && (e <=? 5400)%Z
  | None => false
  end.

(** The scheduled estimate that traces back to the clock string [t]. *)
Definition scheduledArrival (nowSec : Z) (t : string) : App.Arrival :=
  {| App.timeStr := Some t;
     App.etaSec := App.etaSecondsFromGTFS nowSec t;
     App.etaLabel := App.fmtEtaMinutes (App.etaSecondsFromGTFS nowSec t);
     App.source := App.scheduled |}.

(** Ascending order on countdowns that are numbers. *)
Definition etaLe (a b : Js.number) : Prop :=
  exists x y : Z, a = Some x /\ b = Some y /\ x <= y.

(** The (line, headsign) keys stored at a station, lines as displayed. *)
Definition keysOf (stationData : App.obj (App.obj (list string))) : list (string * string) :=
  flat_map (fun l => List.map (fun h => (Js.toUpperCase (fst l), fst h)) (snd l)) stationData.

(** The contract of [Math.random]: every value lies in [0, 1). *)
Definition inUnit (g : Js.rng) : Prop := forall n : nat, (0 <= g n)%Q /\ (g n < 1)%Q.

(** The key a group is emitted for, and the bound on its upcoming list. *)
Definition keyOf (grp : App.Group) : string * string := (App.line grp, App.headsign grp).

Definition wellSized (grp : App.Group) : Prop :=
  (1 <= List.length (App.upcoming grp) <= 4)%nat.

(** A field written in quotes, every quote of its value doubled; a line of
    such fields; and the value of a field without its quote characters. *)
Fixpoint escapeQuotes (s : string) : string :=
  match s with
  | EmptyString => EmptyString
  | String c r =>
      if Ascii.eqb c Js.dquote
      then String Js.dquote (String Js.dquote (escapeQuotes r))
      else String c (escapeQuotes r)
  end.

Definition quoteField (s : string) : string :=
  String Js.dquote (escapeQuotes s ++ String Js.dquote "").

Definition joinComma (fields : list string) : string :=
  String.concat (String Js.comma "") fields.

Fixpoint dropQuotes (s : string) : string :=
  match s with
  | EmptyString => EmptyString
  | String c r => if Ascii.eqb c Js.dquote then dropQuotes r else String c (dropQuotes r)
  end.

(** The text that may follow a closing quote: nothing, or a character that
    is not a quote. *)
Definition afterField (rest : string) : Prop :=
  match rest with
  | EmptyString => True
  | String c _ => Ascii.eqb c Js.dquote = false
  end.

(** Lexicographic order on strings, by code units. *)
Definition lexLe (a b : string) : Prop := a = b \/ String_as_OT.lt a b.

(** The trimmed short display name of a route row; the latest row of a
    relation that satisfies a test. *)
Definition shortNameOf (r : Routes.row) : string :=
  Js.trim (orEmpty (Routes.route_short_name r)).

Definition latest {R : Type} (test : R -> bool) (rows : list R) : option R :=
  List.find test (rev rows).

(** A route row that the joiners keep under the id [id]: the id is not
    empty and the trimmed short name is not blank. *)
Definition namedRoute (id : string) (r : Routes.row) : bool :=
  bool_decide (Routes.route_id r = Some id) && negb (String.eqb id "")
  && negb (String.eqb (shortNameOf r) "").

(** The haversine of the central angle between two points given in degrees,
    and the great-circle distance on a sphere of radius 6371000 m. *)
Definition rad (d : R) : R := (d * PI / 180)%R.

Definition haversine (aLat aLon bLat bLon : R) : R :=
  (sin ((rad bLat - rad aLat) / 2) * sin ((rad bLat - rad aLat) / 2) +
   cos (rad aLat) * cos (rad bLat) *
   (sin ((rad bLon - rad aLon) / 2) * sin ((rad bLon - rad aLon) / 2)))%R.

Definition greatCircle (aLat aLon bLat bLon : R) : R :=
  (2 * 6371000 * asin (sqrt (haversine aLat aLon bLat bLon)))%R.

(** The distance the query attaches to a stop. *)
Definition distOf (ar : App.arith) (loc : App.Loc) (s : App.Stop) : App.rnum :=
  App.distanceMeters ar (Some (App.loc_lat loc)) (Some (App.loc_lon loc))
    (App.Number (App.lat s)) (App.Number (App.lon s)).

(** The haversine term that the engine computes for a stop. *)
Definition termOf (ar : App.arith) (loc : App.Loc) (s : App.Stop) : App.rnum :=
  App.term ar (Some (App.loc_lat loc)) (Some (App.loc_lon loc))
    (App.Number (App.lat s)) (App.Number (App.lon s)).

(** A stop whose two coordinates [Number] converts to numbers: numbers, and
    [null], which [Number] converts to 0. *)
Definition validStop (s : App.Stop) : Prop :=
  App.Number (App.lat s) <> None /\ App.Number (App.lon s) <> None.

(** Ascending order on distances that are numbers. *)
Definition distLe (a b : App.StopDist) : Prop :=
  exists x y : R, App.distM a = Some x /\ App.distM b = Some y /\ (x <= y)%R.

(** The (route, direction) group of a trip row that carries a route id and
    a shape id; the trips of a group that use a shape; the valid points that
    [shapes.txt] lists for a shape; the features emitted for a group. *)
Definition validTrip (t : Trips.row) : bool :=
  truthy (Trips.route_id t) && truthy (Trips.shape_id t).

Definition routeOf (t : Trips.row) : string := orEmpty (Trips.route_id t).

Definition dirOf (t : Trips.row) : string :=
  let d := Js.trim (orEmpty (Trips.direction_id t)) in
  if String.eqb d "" then "0" else d.

Definition shapeOf (t : Trips.row) : string := orEmpty (Trips.shape_id t).

Definition inGroup (r d : string) (t : Trips.row) : bool :=
  validTrip t && String.eqb (routeOf t) r && String.eqb (dirOf t) d.

Definition tripsWith (r d s : string) (trips : list Trips.row) : Z :=
  Z.of_nat (List.length
              (List.filter (fun t => inGroup r d t && String.eqb (shapeOf t) s) trips)).

Definition validPoint (s : string) (p : Shapes.row) : bool :=
  bool_decide (Shapes.shape_id p = Some s)
  && bool_decide (is_Some (Shapes.shape_pt_lat p))
  && bool_decide (is_Some (Shapes.shape_pt_lon p))
  && bool_decide (is_Some (Shapes.shape_pt_sequence p)).

Definition validPoints (shapes : list Shapes.row) (s : string) : list Shapes.row :=
  List.filter (validPoint s) shapes.

Definition emitted (r d : string) (features : list RouteShapes.Feature)
  : list RouteShapes.Feature :=
  List.filter
    (fun f => String.eqb (RouteShapes.route_id f) r
              && String.eqb (RouteShapes.direction_id f) d)
    features.

(** A text without the separator of the keys. *)
Fixpoint noPipe (s : string) : bool :=
  match s with
  | EmptyString => true
  | String c r => negb (Ascii.eqb c Js.pipe) && noPipe r
  end.

Definition plainTrip (t : Trips.row) : Prop :=
  noPipe (routeOf t) = true /\ noPipe (dirOf t) = true /\ noPipe (shapeOf t) = true.

(** The key under which a trip is counted, the number of trips counted
    under a key, and the two halves of a key as [pickBest] reads them. *)
Definition keyOfTrip (t : Trips.row) : string :=
  RouteShapes.joinKey [routeOf t; dirOf t; shapeOf t].

Definition tripsAtKey (k : string) (trips : list Trips.row) : Z :=
  Z.of_nat (List.length
              (List.filter (fun t => validTrip t && String.eqb (keyOfTrip t) k) trips)).

Definition rdOf (key : string) : string :=
  RouteShapes.joinKey [nth 0 (Js.split Js.pipe key) "undefined";
                       nth 1 (Js.split Js.pipe key) "undefined"].

Definition shapeOfKey (key : string) : string :=
  nth 2 (Js.split Js.pipe key) "undefined".

(** What [bestShapeByRouteDir] holds after the entries [es]. *)
Definition bestInv (es : list (string * Z)) (B : RouteShapes.omap RouteShapes.Best) : Prop :=
  List.NoDup (List.map fst B) /\
  (forall rd b, RouteShapes.omapGet B rd = Some b ->
     exists k, In (k, RouteShapes.count b) es /\ rdOf k = rd /\ RouteShapes.shape_id b = shapeOfKey k /\
               forall k' c', In (k', c') es -> rdOf k' = rd -> c' <= RouteShapes.count b) /\
  (forall k c, In (k, c) es -> RouteShapes.omapGet B (rdOf k) <> None).

(** The points that step 4 finds for a chosen shape. *)
Definition pointsOf (spts : gmap string (list RouteShapes.Point)) (b : RouteShapes.Best)
  : list RouteShapes.Point :=
  default [] (spts !! RouteShapes.shape_id b).

(** ** Further vocabulary: lines and texts of tables *)

(** A line without quote characters; a line in which no quote character is
    immediately followed by another one. *)
Fixpoint noQuote (s : string) : bool :=
  match s with
  | EmptyString => true
  | String c r => negb (Ascii.eqb c Js.dquote) && noQuote r
  end.

Fixpoint noQuotePair (s : string) : bool :=
  match s with
  | EmptyString => true
  | String c r =>
      negb (Ascii.eqb c Js.dquote && GtfsJson.nextIs Js.dquote r) && noQuotePair r
  end.

(** The line of a row of quoted fields, and the text of rows whose lines
    are separated by [sep]. *)
Definition rowLine (row : list string) : string :=
  joinComma (List.map quoteField row).

Definition tableText (sep : string) (rows : list (list string)) : string :=
  String.concat sep (List.map rowLine rows).

Definition eolLF : string := String Js.LF "".
Definition eolCRLF : string := String Js.CR (String Js.LF "").

(** A row as [parseCSV] stores it: the empty line is a row of one empty
    field. *)
Definition storedRow (row : list string) : list string :=
  match row with
  | [] => [""]
  | _ :: _ => row
  end.

(** The entry of an arrival index at a station, a line and a headsign. *)
Definition entryAt (out : Arrivals.index) (st ln hs : string) : option (list string) :=
  match out !! st with
  | Some byLine =>
      match byLine !! ln with
      | Some byHeadsign => byHeadsign !! hs
      | None => None
      end
  | None => None
  end.

(** The station a stop id is filed under: the parent station of the latest
    row of [stops.txt] with this id when it has one, else the id itself. *)
Definition stationFor (stops : list Stops.row) (stopId : option string) : option string :=
  match latest (fun r => bool_decide (Stops.stop_id r = stopId)) stops with
  | Some r => if truthy (Stops.parent_station r) then Stops.parent_station r else stopId
  | None => stopId
  end.

(** The line of a trip row: the displayed name of the latest named route
    row of its route id.  Its headsign, trimmed.  The label of a trip id:
    line and headsign of the latest trip row with this id that has both. *)
Definition lineOfTrip (routes : list Routes.row) (t : Trips.row) : option string :=
  match Trips.route_id t with
  | Some rid =>
      option_map (fun r => Js.toUpperCase (shortNameOf r)) (latest (namedRoute rid) routes)
  | None => None
  end.

Definition headsignOf (t : Trips.row) : string := Js.trim (orEmpty (Trips.trip_headsign t)).

Definition labelledTrip (routes : list Routes.row) (tid : string) (t : Trips.row) : bool :=
  bool_decide (Trips.trip_id t = Some tid) && negb (String.eqb tid "")
  && bool_decide (is_Some (lineOfTrip routes t))
  && negb (String.eqb (headsignOf t) "").

Definition tripLabel (routes : list Routes.row) (trips : list Trips.row)
    (tid : option string) : option (string * string) :=
  match tid with
  | Some tid =>
      option_map (fun t => (orEmpty (lineOfTrip routes t), headsignOf t))
        (latest (labelledTrip routes tid) trips)
  | None => None
  end.

(** What a row of [stop_times.txt] files: station, line, headsign and time;
    nothing when its time is blank or its trip has no label. *)
Definition filed (stops : list Stops.row) (routes : list Routes.row)
    (trips : list Trips.row) (r : StopTimes.row)
  : option (string * string * string * string) :=
  match Arrivals.normalizeTime (StopTimes.arrival_time r),
        tripLabel routes trips (StopTimes.trip_id r) with
  | Some time, Some (ln, hs) =>
      Some (Arrivals.propKey (stationFor stops (StopTimes.stop_id r)), ln, hs, time)
  | _, _ => None
  end.

(** The times filed at a station, a line and a headsign, in row order. *)
Definition timesAt (stops : list Stops.row) (routes : list Routes.row)
    (trips : list Trips.row) (st ln hs : string) (stopTimes : list StopTimes.row)
  : list string :=
  flat_map
    (fun r => match filed stops routes trips r with
              | Some (s, l, h, t) =>
                  if bool_decide ((s, l, h) = (st, ln, hs)) then [t] else []
              | None => []
              end)
    stopTimes.

(** The line of a trip id in the station-to-lines script: the line of the
    latest trip row with this id that has one. *)
Definition lineTrip (routes : list Routes.row) (tid : string) (t : Trips.row) : bool :=
  bool_decide (Trips.trip_id t = Some tid) && negb (String.eqb tid "")
  && bool_decide (is_Some (lineOfTrip routes t)).

Definition tripLine (routes : list Routes.row) (trips : list Trips.row)
    (tid : option string) : option string :=
  match tid with
  | Some tid =>
      match latest (lineTrip routes tid) trips with
      | Some t => lineOfTrip routes t
      | None => None
      end
  | None => None
  end.

(** A row of [stop_times.txt] that puts the line [ln] at the station [k]. *)
Definition serves (stops : list Stops.row) (routes : list Routes.row)
    (trips : list Trips.row) (k : option string) (ln : string) (r : StopTimes.row) : Prop :=
  stationFor stops (StopTimes.stop_id r) = k /\
  tripLine routes trips (StopTimes.trip_id r) = Some ln.

(** The point stored for a row of [shapes.txt] whose three numbers are
    finite. *)
Definition pointOf (p : Shapes.row) : RouteShapes.Point :=
  {| RouteShapes.seq := default 0%Q (Shapes.shape_pt_sequence p);
     RouteShapes.lat := default 0%Q (Shapes.shape_pt_lat p);
     RouteShapes.lon := default 0%Q (Shapes.shape_pt_lon p) |}.

(** The points of a shape as a feature lists them. *)
Definition lineOfShape (shapes : list Shapes.row) (s : string) : list RouteShapes.Point :=
  Js.sort RouteShapes.bySeq (List.map pointOf (validPoints shapes s)).

(** The name under which the shapes script shows a route id: the trimmed
    short name of the latest route row with this id, or the trimmed id when
    there is no such row or its short name is blank. *)
Definition shapeRouteName (routes : list Routes.row) (id : string) : string :=
  match latest (fun r => bool_decide (Routes.route_id r = Some id)
                         && negb (String.eqb id "")) routes with
  | Some r => if String.eqb (shortNameOf r) "" then Js.trim id else shortNameOf r
  | None => Js.trim id
  end.

(** In [build_gtfs_json.js]: the name of a route id, in upper case (the
    short name of the latest kept route row with this id, or the id when
    that name is blank); a trip row that gives the trip id a route; the
    name of the route of a trip id; a row of [stop_times.txt] that lists a
    name at a stop. *)
Definition gtfsName (routes : list Routes.row) (rid : string) : option string :=
  option_map
    (fun r => Js.toUpperCase (if String.eqb (shortNameOf r) "" then rid else shortNameOf r))
    (latest (fun r => bool_decide (Routes.route_id r = Some rid))
       (GtfsJson.subwayRoutes routes)).

Definition routedTrip (tid : string) (t : Trips.row) : bool :=
  bool_decide (Trips.trip_id t = Some tid) && negb (String.eqb tid "")
  && truthy (Trips.route_id t).

Definition stopRouteName (routes : list Routes.row) (trips : list Trips.row)
    (tid : option string) : option string :=
  match tid with
  | Some tid =>
      match latest (routedTrip tid) trips with
      | Some t => gtfsName routes (orEmpty (Trips.route_id t))
      | None => None
      end
  | None => None
  end.

Definition lists (routes : list Routes.row) (trips : list Trips.row)
    (stop ln : string) (r : StopTimes.row) : Prop :=
  StopTimes.stop_id r = Some stop /\ stop <> "" /\
  stopRouteName routes trips (StopTimes.trip_id r) = Some ln.

(** The property names of [Object.prototype]: every plain object has them
    without owning them, so that [obj[key]] is not [undefined] at such a key
    even when the object has no such entry.  A key is plain when it is none
    of them; at plain keys a plain object is the map of its entries. *)
Definition inheritedNames : list string :=
  [ "constructor"; "__defineGetter__"; "__defineSetter__"; "hasOwnProperty";
    "__lookupGetter__"; "__lookupSetter__"; "isPrototypeOf";
    "propertyIsEnumerable"; "toString"; "valueOf"; "__proto__"; "toLocaleString" ].

Definition plainKey (k : string) : bool :=
  negb (existsb (String.eqb k) inheritedNames).

(** A field that a text can hold without quotes: it has no quote, comma or
    line break.  A field as a text writes it: in quotes, or as it is when it
    is bare.  The text of lines of written fields, separated by [sep]. *)
Fixpoint bare (s : string) : bool :=
  match s with
  | EmptyString => true
  | String c r =>
      negb (Ascii.eqb c Js.dquote || Ascii.eqb c Js.comma
            || Ascii.eqb c Js.LF || Ascii.eqb c Js.CR)
      && bare r
  end.

Definition written (f w : string) : Prop :=
  w = quoteField f \/ (bare f = true /\ w = f).

Definition csvText (sep : string) (lines : list (list string)) : string :=
  String.concat sep (List.map joinComma lines).

(* ===================================================================== *)
(** * Part II: properties *)
(* ===================================================================== *)

(** ** Clock strings *)

Section ClockStrings.
Import Js.

Lemma digit_cases (d : nat) :
  (d < 10)%nat ->
  d = 0%nat \/ d = 1%nat \/ d = 2%nat \/ d = 3%nat \/ d = 4%nat \/
  d = 5%nat \/ d = 6%nat \/ d = 7%nat \/ d = 8%nat \/ d = 9%nat.
Proof. lia. Qed.

Ltac each_digit H :=
  apply digit_cases in H;
  repeat (destruct H as [H | H]); subst; reflexivity.

Lemma digitOf_digitChar (d : nat) :
  (d < 10)%nat -> digitOf (digitChar d) = Some (Z.of_nat d).
Proof. intros H. each_digit H. Qed.

Lemma digitChar_not_colon (d : nat) :
  (d < 10)%nat -> Ascii.eqb (digitChar d) colon = false.
Proof. intros H. each_digit H. Qed.

Lemma digitChar_not_white (d : nat) :
  (d < 10)%nat -> isWhite (digitChar d) = false.
Proof. intros H. each_digit H. Qed.

Lemma digitChar_not_minus (d : nat) :
  (d < 10)%nat -> Ascii.eqb (digitChar d) (ascii_of_nat 45) = false.
Proof. intros H. each_digit H. Qed.

Lemma digitChar_not_plus (d : nat) :
  (d < 10)%nat -> Ascii.eqb (digitChar d) (ascii_of_nat 43) = false.
Proof. intros H. each_digit H. Qed.

Lemma parseInt10_two (a b : nat) :
  (a < 10)%nat -> (b < 10)%nat ->
  parseInt10 (String (digitChar a) (String (digitChar b) "")) =
  Some (10 * Z.of_nat a + Z.of_nat b).
Proof.
  intros Ha Hb. unfold parseInt10. cbn [trimStart].
  rewrite (digitChar_not_white a Ha), (digitChar_not_minus a Ha),
    (digitChar_not_plus a Ha).
  cbn [readDigits].
  rewrite (digitOf_digitChar a Ha), (digitOf_digitChar b Hb).
  cbn [default]. f_equal; lia.
Qed.

Lemma parseInt10_twoDigits (n : nat) :
  (n < 100)%nat -> parseInt10 (twoDigits n) = Some (Z.of_nat n).
Proof.
  intros Hn. unfold twoDigits.
  rewrite parseInt10_two.
  - f_equal. pose proof (Nat.div_mod_eq n 10). lia.
  - apply Nat.Div0.div_lt_upper_bound. lia.
  - apply Nat.mod_upper_bound. lia.
Qed.

Lemma split_twoDigits_end (n : nat) :
  (n < 100)%nat -> split colon (twoDigits n) = [twoDigits n].
Proof.
  intros Hn. unfold twoDigits. cbn [split].
  rewrite !digitChar_not_colon; [reflexivity | |].
  - apply Nat.mod_upper_bound. lia.
  - apply Nat.Div0.div_lt_upper_bound. lia.
Qed.

Lemma append_cons (c : ascii) (s t : string) : String c s ++ t = String c (s ++ t).
Proof. reflexivity. Qed.

Lemma append_nil (t : string) : "" ++ t = t.
Proof. reflexivity. Qed.

Lemma split_twoDigits_colon (n : nat) (rest : string) :
  (n < 100)%nat ->
  split colon (twoDigits n ++ String colon rest) = twoDigits n :: split colon rest.
Proof.
  intros Hn. unfold twoDigits. rewrite !append_cons, append_nil. cbn [split].
  rewrite !digitChar_not_colon.
  - rewrite Ascii.eqb_refl. reflexivity.
  - apply Nat.mod_upper_bound. lia.
  - apply Nat.Div0.div_lt_upper_bound. lia.
Qed.

Lemma timeToSeconds_clock (h m s : nat) :
  (h < 100)%nat -> (m < 100)%nat -> (s < 100)%nat ->
  App.timeToSecondsSinceMidnight (clock h m s) = Some (rawSeconds h m s).
Proof.
  intros Hh Hm Hs. unfold App.timeToSecondsSinceMidnight, clock.
  rewrite split_twoDigits_colon, split_twoDigits_colon, split_twoDigits_end by assumption.
  cbn [List.map nth].
  rewrite !parseInt10_twoDigits by assumption.
  reflexivity.
Qed.

End ClockStrings.

(** C1 (clock normalization).  For the clock string [HH:MM:SS] with
    [raw = H*3600 + M*60 + S] and any [nowSec] in [0, 86399],
    [etaSecondsFromGTFS] returns [(raw mod 86400) + 86400 - nowSec] when
    [raw >= 86400], the same when [raw < 86400] and [raw mod 86400 < nowSec],
    and [raw - nowSec] otherwise.  It returns 90600 for "25:10:00" at
    [nowSec = 0] and 86340 for "07:59:00" at [nowSec = 28800], an entry that
    the 90-minute horizon of the selection then excludes. *)
Theorem etaSecondsFromGTFS_normalization (h m s : nat) (nowSec : Z) :
  (h < 100)%nat -> (m < 100)%nat -> (s < 100)%nat ->
  0 <= nowSec <= 86399 ->
  let raw := rawSeconds h m s in
  (raw >= 86400 ->
   App.etaSecondsFromGTFS nowSec (clock h m s) = Some (raw mod 86400 + 86400 - nowSec)) /\
  (raw < 86400 -> raw mod 86400 < nowSec ->
   App.etaSecondsFromGTFS nowSec (clock h m s) = Some (raw mod 86400 + 86400 - nowSec)) /\
  (raw < 86400 -> ~ raw mod 86400 < nowSec ->
   App.etaSecondsFromGTFS nowSec (clock h m s) = Some (raw - nowSec)) /\
  App.etaSecondsFromGTFS 0 "25:10:00" = Some 90600 /\
  App.etaSecondsFromGTFS 28800 "07:59:00" = Some 86340 /\
  App.upcomingScheduled 28800 ["07:59:00"] = [].
Proof.
  intros Hh Hm Hs Hnow raw.
  assert (Hraw : 0 <= raw) by (unfold raw, rawSeconds; lia).
  assert (Hrem : Z.rem raw 86400 = raw mod 86400) by (apply Z.rem_mod_nonneg; lia).
  unfold App.etaSecondsFromGTFS.
  rewrite (timeToSeconds_clock h m s Hh Hm Hs). fold raw.
  cbn [Js.rem Js.geb Js.ltb Js.lift2 Js.cmp2 Js.add Js.sub].
  rewrite Hrem.
  repeat split.
  - intros Hge. destruct (Z.geb_spec raw 86400); [reflexivity | lia].
  - intros Hlt Hpast. destruct (Z.geb_spec raw 86400); [lia |].
    destruct (Z.ltb_spec (raw mod 86400) nowSec); [reflexivity | lia].
  - intros Hlt Hnot. destruct (Z.geb_spec raw 86400); [lia |].
    destruct (Z.ltb_spec (raw mod 86400) nowSec); [lia |].
    rewrite Z.mod_small by lia. reflexivity.
Qed.

(** The three branches of C1 at "25:10:00", "07:59:00" and "08:05:00". *)
Lemma etaSecondsFromGTFS_normalization_witness :
  (App.etaSecondsFromGTFS 0 (clock 25 10 0) = Some 90600) /\
  (App.etaSecondsFromGTFS 28800 (clock 7 59 0) = Some 86340) /\
  (App.etaSecondsFromGTFS 28800 (clock 8 5 0) = Some 300).
Proof.
  split; [| split].
  - destruct (etaSecondsFromGTFS_normalization 25 10 0 0) as [H _]; [lia | lia | lia | lia |].
    apply H. vm_compute. discriminate.
  - destruct (etaSecondsFromGTFS_normalization 7 59 0 28800) as (_ & H & _);
      [lia | lia | lia | lia |].
    apply H; vm_compute; reflexivity.
  - destruct (etaSecondsFromGTFS_normalization 8 5 0 28800) as (_ & _ & H & _);
      [lia | lia | lia | lia |].
    apply H; vm_compute; [reflexivity | discriminate].
Defined.

(** ** The stable sort *)

Lemma Forall_perm {A : Type} (P : A -> Prop) (l l' : list A) :
  Permutation l l' -> Forall P l -> Forall P l'.
Proof.
  intros Hp. rewrite !List.Forall_forall. intros H x Hx.
  apply H. eapply Permutation_in; [symmetry; exact Hp | exact Hx].
Qed.

Section SortFacts.
Context {A : Type} (gt : A -> A -> bool).

Lemma insert_perm (x : A) (l : list A) : Permutation (Js.insert gt x l) (x :: l).
Proof.
  induction l as [| y l IH]; cbn [Js.insert].
  - reflexivity.
  - destruct (gt x y).
    + rewrite IH. apply perm_swap.
    + reflexivity.
Qed.

Lemma sort_perm (l : list A) : Permutation (Js.sort gt l) l.
Proof.
  induction l as [| x l IH]; cbn [Js.sort].
  - reflexivity.
  - rewrite insert_perm. now apply perm_skip.
Qed.

Lemma sort_length (l : list A) : List.length (Js.sort gt l) = List.length l.
Proof. apply Permutation_length, sort_perm. Qed.

Lemma sort_In (x : A) (l : list A) : In x (Js.sort gt l) <-> In x l.
Proof.
  split; apply Permutation_in; [| symmetry]; apply sort_perm.
Qed.

Lemma sort_Forall (P : A -> Prop) (l : list A) : Forall P l -> Forall P (Js.sort gt l).
Proof. apply Forall_perm. symmetry. apply sort_perm. Qed.

(** The sort orders every list on whose elements the comparison function
    decides a transitive relation [le]. *)
Section Sorted.
Context (P : A -> Prop) (le : A -> A -> Prop).
Hypothesis le_of_not_gt : forall x y, P x -> P y -> gt x y = false -> le x y.
Hypothesis le_of_gt : forall x y, P x -> P y -> gt x y = true -> le y x.
Hypothesis le_trans : forall x y z, le x y -> le y z -> le x z.

Lemma insert_sorted (x : A) (l : list A) :
  P x -> Forall P l -> StronglySorted le l -> StronglySorted le (Js.insert gt x l).
Proof.
  intros Hx HP Hs. induction l as [| y l IH]; cbn [Js.insert].
  - constructor; constructor.
  - inversion HP as [| ? ? Hy HPl]; subst.
    inversion Hs as [| ? ? Hsl Hall]; subst.
    destruct (gt x y) eqn:E.
    + constructor; [now apply IH |].
      apply (Forall_perm _ (x :: l)); [symmetry; apply insert_perm |].
      constructor; [now apply le_of_gt | assumption].
    + constructor; [assumption |].
      constructor; [now apply le_of_not_gt |].
      eapply List.Forall_impl; [| exact Hall].
      intros z Hz. eapply le_trans; [| exact Hz]. now apply le_of_not_gt.
Qed.

Lemma sort_sorted (l : list A) : Forall P l -> StronglySorted le (Js.sort gt l).
Proof.
  induction l as [| x l IH]; cbn [Js.sort]; intros HP.
  - constructor.
  - inversion HP; subst. apply insert_sorted; auto using sort_Forall.
Qed.

End Sorted.

(** Whatever the elements, an asymmetric comparison function leaves no
    element immediately before one it is greater than. *)
Lemma insert_adjacent (x : A) (l : list A) :
  (forall a b, gt a b = true -> gt b a = false) ->
  Sorted (fun a b => gt a b = false) l ->
  Sorted (fun a b => gt a b = false) (Js.insert gt x l).
Proof.
  intros Hasym Hs. induction l as [| y l IH]; cbn [Js.insert].
  - repeat constructor.
  - inversion Hs as [| ? ? Hsl Hhd]; subst.
    destruct (gt x y) eqn:E.
    + constructor; [now apply IH |].
      destruct l as [| z l]; cbn [Js.insert].
      * constructor. now apply Hasym.
      * inversion Hhd; subst. destruct (gt x z); constructor; auto.
    + constructor; [exact Hs | now constructor].
Qed.

Lemma sort_adjacent (l : list A) :
  (forall a b, gt a b = true -> gt b a = false) ->
  Sorted (fun a b => gt a b = false) (Js.sort gt l).
Proof.
  intros Hasym. induction l as [| x l IH]; cbn [Js.sort]; [constructor |].
  now apply insert_adjacent.
Qed.

End SortFacts.

Lemma sort_map {A B : Type} (gtA : A -> A -> bool) (gtB : B -> B -> bool) (f : B -> A) :
  (forall x y, gtA (f x) (f y) = gtB x y) ->
  forall l, Js.sort gtA (List.map f l) = List.map f (Js.sort gtB l).
Proof.
  intros Hf.
  assert (Hins : forall x l, Js.insert gtA (f x) (List.map f l) = List.map f (Js.insert gtB x l)).
  { intros x l. induction l as [| y l IH]; cbn [Js.insert List.map]; [reflexivity |].
    rewrite Hf. destruct (gtB x y); cbn [List.map]; [now rewrite IH | reflexivity]. }
  induction l as [| x l IH]; cbn [Js.sort List.map]; [reflexivity |].
  now rewrite IH, Hins.
Qed.

Lemma filter_map_comm {A B : Type} (p : A -> bool) (f : B -> A) (l : list B) :
  List.filter p (List.map f l) = List.map f (List.filter (fun x => p (f x)) l).
Proof.
  induction l as [| x l IH]; cbn [List.filter List.map]; [reflexivity |].
  destruct (p (f x)); cbn [List.map]; now rewrite IH.
Qed.

Lemma filter_filter_and {A : Type} (p q : A -> bool) (l : list A) :
  List.filter q (List.filter p l) = List.filter (fun x => p x && q x) l.
Proof.
  induction l as [| x l IH]; cbn [List.filter]; [reflexivity |].
  destruct (p x); cbn [List.filter andb]; [destruct (q x) |]; now rewrite IH.
Qed.

Lemma In_firstn_In {A : Type} (n : nat) (x : A) (l : list A) :
  In x (firstn n l) -> In x l.
Proof.
  intros H. rewrite <- (firstn_skipn n l). apply in_or_app. now left.
Qed.

Lemma StronglySorted_firstn {A : Type} (le : A -> A -> Prop) (n : nat) (l : list A) :
  StronglySorted le l -> StronglySorted le (firstn n l).
Proof.
  intros Hs. revert n. induction Hs as [| x l Hs IH Hall]; intros [| n]; cbn [firstn];
    try constructor.
  - apply IH.
  - rewrite List.Forall_forall in *. intros y Hy. apply Hall.
    exact (In_firstn_In n y l Hy).
Qed.

(** ** The arrival estimator *)

Section Estimator.
Import Js App.

Lemma upcomingScheduled_eq (nowSec : Z) (times : list string) :
  upcomingScheduled nowSec times =
  List.map (scheduledArrival nowSec)
    (firstn 5
       (sort (fun a b => byEta (etaSecondsFromGTFS nowSec a) (etaSecondsFromGTFS nowSec b))
          (List.filter (inHorizon nowSec) times))).
Proof.
  unfold upcomingScheduled, slice0.
  rewrite filter_map_comm, filter_map_comm, filter_filter_and.
  rewrite (sort_map _
             (fun a b => byEta (etaSecondsFromGTFS nowSec a) (etaSecondsFromGTFS nowSec b)))
    by reflexivity.
  rewrite List.firstn_map, List.map_map.
  cbn [fst snd]. f_equal. f_equal. f_equal.
  apply List.filter_ext. intros t. unfold inHorizon, MAX_SHOW_MIN.
  destruct (etaSecondsFromGTFS nowSec t) as [e |]; cbn; [| reflexivity].
  rewrite Z.geb_leb. reflexivity.
Qed.

Lemma inHorizon_spec (nowSec : Z) (t : string) :
  inHorizon nowSec t = true <->
  exists e, etaSecondsFromGTFS nowSec t = Some e /\ 0 <= e <= 5400.
Proof.
  unfold inHorizon. destruct (etaSecondsFromGTFS nowSec t) as [e |].
  - rewrite andb_true_iff, !Z.leb_le. split.
    + intros H. exists e. split; [reflexivity | lia].
    + intros (e' & [= <-] & H). lia.
  - split; [discriminate | intros (e & [=] & _)].
Qed.

Lemma sorted_by_eta (nowSec : Z) (l : list string) :
  Forall (fun t => inHorizon nowSec t = true) l ->
  StronglySorted
    (fun a b => etaLe (etaSecondsFromGTFS nowSec a) (etaSecondsFromGTFS nowSec b))
    (sort (fun a b => byEta (etaSecondsFromGTFS nowSec a) (etaSecondsFromGTFS nowSec b)) l).
Proof.
  apply sort_sorted.
  - intros x y Hx%inHorizon_spec Hy%inHorizon_spec.
    destruct Hx as (ex & -> & _), Hy as (ey & -> & _). cbn.
    intros H. exists ex, ey. repeat split. lia.
  - intros x y Hx%inHorizon_spec Hy%inHorizon_spec.
    destruct Hx as (ex & -> & _), Hy as (ey & -> & _). cbn.
    intros H. exists ey, ex. repeat split. lia.
  - intros x y z (a & b & -> & -> & Hab) (b' & c & [= <-] & -> & Hbc).
    exists a, c. repeat split. lia.
Qed.

Lemma hasSoon_spec (ups : list Arrival) :
  hasSoon ups = true <->
  Exists (fun u => exists e, etaSec u = Some e /\ e <= 1200) ups.
Proof.
  unfold hasSoon. rewrite existsb_exists, List.Exists_exists.
  split; intros (u & Hin & H); exists u; (split; [exact Hin |]).
  - destruct (etaSec u) as [e |]; cbn in H; [| discriminate].
    exists e. split; [reflexivity |]. apply Z.leb_le in H. exact H.
  - destruct H as (e & -> & H). cbn. apply Z.leb_le. exact H.
Qed.

Lemma upcomingScheduled_Forall (nowSec : Z) (times : list string) :
  Forall
    (fun u => exists t e, In t times /\ u = scheduledArrival nowSec t /\
                          etaSec u = Some e /\ 0 <= e <= 5400)
    (upcomingScheduled nowSec times).
Proof.
  rewrite upcomingScheduled_eq, List.Forall_forall.
  intros u (t & <- & Hin)%in_map_iff.
  apply (In_firstn_In 5), sort_In, filter_In in Hin. destruct Hin as [Hin Hh].
  apply inHorizon_spec in Hh. destruct Hh as (e & He & Hr).
  exists t, e. repeat split; try assumption; lia.
Qed.

Lemma upcomingScheduled_sorted (nowSec : Z) (times : list string) :
  StronglySorted (fun a b => etaLe (etaSec a) (etaSec b)) (upcomingScheduled nowSec times).
Proof.
  rewrite upcomingScheduled_eq.
  assert (Hmap : forall l,
             StronglySorted
               (fun a b => etaLe (etaSecondsFromGTFS nowSec a) (etaSecondsFromGTFS nowSec b)) l ->
             StronglySorted (fun a b => etaLe (etaSec a) (etaSec b))
               (List.map (scheduledArrival nowSec) l)).
  { induction 1 as [| x l Hs IH Hall]; cbn [List.map]; constructor; [exact IH |].
    rewrite List.Forall_forall in *. intros u (t & <- & Hin)%in_map_iff.
    exact (Hall t Hin). }
  apply Hmap, StronglySorted_firstn, sorted_by_eta.
  rewrite List.Forall_forall. intros t Ht%filter_In. tauto.
Qed.

End Estimator.

(** C2 (per-key scheduled selection).  For every key of the arrival index
    with the clock strings [times]: the kept entries are the first five of a
    list [sorted] that holds exactly the listed clock strings whose countdown
    is between 0 and 5400 seconds, ascending by countdown; [hasSoon] holds if
    and only if a kept entry has a countdown of at most 1200 seconds; and when
    [hasSoon] holds, one group is emitted whose upcoming list is the first
    four kept entries, each labeled [scheduled] and carrying its source clock
    string. *)
Theorem per_key_scheduled_selection (nowSec : Z) (ln hs : string)
    (times : list string) (g : Js.rng) :
  let eta := App.etaSecondsFromGTFS nowSec in
  let ups := App.upcomingScheduled nowSec times in
  (exists sorted : list string,
      Permutation sorted (List.filter (inHorizon nowSec) times) /\
      StronglySorted (fun a b => etaLe (eta a) (eta b)) sorted /\
      ups = List.map (scheduledArrival nowSec) (firstn 5 sorted)) /\
  (forall t, inHorizon nowSec t = true <-> exists e, eta t = Some e /\ 0 <= e <= 5400) /\
  (List.length ups <= 5)%nat /\
  (App.hasSoon ups = true <->
   Exists (fun u => exists e, App.etaSec u = Some e /\ e <= 1200) ups) /\
  (App.hasSoon ups = true ->
   exists grp,
     fst (App.groupsForKey nowSec ln hs times g) = [grp] /\
     App.line grp = Js.toUpperCase ln /\
     App.headsign grp = hs /\
     App.upcoming grp = firstn 4 ups /\
     (1 <= List.length (App.upcoming grp) <= 4)%nat /\
     Forall
       (fun u => In u ups /\ App.source u = App.scheduled /\
                 exists t, In t times /\ App.timeStr u = Some t /\ App.etaSec u = eta t)
       (App.upcoming grp)).
Proof.
  intros eta ups.
  split; [| split; [| split; [| split]]].
  - eexists. split; [apply sort_perm | split].
    + apply sorted_by_eta. rewrite List.Forall_forall. intros t Ht%filter_In. tauto.
    + apply upcomingScheduled_eq.
  - apply inHorizon_spec.
  - unfold ups. rewrite upcomingScheduled_eq, List.length_map. apply List.firstn_le_length.
  - apply hasSoon_spec.
  - intros Hsoon. unfold App.groupsForKey. fold ups. rewrite Hsoon. cbn [negb].
    destruct ups as [| u0 ups'] eqn:Eups; [discriminate |].
    eexists. split; [reflexivity |]. cbn [App.line App.headsign App.upcoming].
    unfold Js.slice0. repeat split.
    + cbn. lia.
    + apply List.firstn_le_length.
    + rewrite List.Forall_forall. intros u Hu. apply In_firstn_In in Hu.
      pose proof (upcomingScheduled_Forall nowSec times) as HF.
      fold ups in HF. rewrite Eups, List.Forall_forall in HF.
      destruct (HF u Hu) as (t & e & Hin & -> & _ & _).
      split; [exact Hu | split; [reflexivity |]].
      exists t. repeat split. exact Hin.
Qed.

(** C2 at 08:00:00 on a key with five listed strings: the two inside the
    horizon are kept in order and, one of them being due within 20 minutes,
    both are shown as scheduled. *)
Lemma per_key_scheduled_selection_witness :
  exists grp : App.Group,
    fst (App.groupsForKey 28800 "a" "Uptown"
           ["08:30:00"; "08:05:00"; "07:59:00"; "10:00:00"; "soon"] (fun _ => 0%Q)) = [grp] /\
    List.map App.timeStr (App.upcoming grp) = [Some "08:05:00"; Some "08:30:00"] /\
    Forall (fun u => App.source u = App.scheduled) (App.upcoming grp).
Proof.
  destruct (per_key_scheduled_selection 28800 "a" "Uptown"
              ["08:30:00"; "08:05:00"; "07:59:00"; "10:00:00"; "soon"] (fun _ => 0%Q))
    as (_ & _ & _ & _ & H).
  destruct H as (grp & Hg & _ & _ & Hup & _ & Hall); [vm_compute; reflexivity |].
  exists grp. split; [exact Hg | split].
  - rewrite Hup. vm_compute. reflexivity.
  - eapply List.Forall_impl; [| exact Hall]. intros u (_ & Hs & _). exact Hs.
Defined.

(** ** Synthesized estimates *)

Section Synthesis.
Import Js App.

Lemma noiseOf_bounds (jitter : Z) (r : Q) :
  0 <= jitter -> (0 <= r)%Q -> (r < 1)%Q ->
  - jitter <= noiseOf jitter r <= jitter.
Proof.
  intros Hj H0 H1. unfold noiseOf.
  set (w := inject_Z (jitter * 2 + 1)).
  set (x := (r * w - inject_Z jitter)%Q).
  assert (Hw : (w == inject_Z jitter + inject_Z jitter + 1)%Q).
  { unfold w. rewrite inject_Z_plus, inject_Z_mult. change (inject_Z 2) with 2%Q.
    change (inject_Z 1) with 1%Q. ring. }
  assert (Hpos : (0 < w)%Q).
  { unfold w. change 0%Q with (inject_Z 0). rewrite <- Zlt_Qlt. lia. }
  assert (Hp0 : (0 <= r * w)%Q).
  { apply Qmult_le_0_compat; [assumption | apply Qlt_le_weak; assumption]. }
  assert (Hp1 : (r * w < 1 * w)%Q).
  { apply Qmult_lt_compat_r; assumption. }
  assert (Hlo : (inject_Z (- jitter) <= x)%Q).
  { unfold x. rewrite inject_Z_opp. set (p := (r * w)%Q) in *. Lqa.lra. }
  assert (Hhi : (x < inject_Z (jitter + 1))%Q).
  { unfold x. rewrite inject_Z_plus. change (inject_Z 1) with 1%Q.
    set (p := (r * w)%Q) in *. Lqa.lra. }
  split.
  - apply Qfloor_resp_le in Hlo. rewrite Qfloor_Z in Hlo. exact Hlo.
  - pose proof (Qfloor_le x) as Hf.
    assert (Hlt : (inject_Z (Qfloor x) < inject_Z (jitter + 1))%Q).
    { eapply Qle_lt_trans; eassumption. }
    rewrite <- Zlt_Qlt in Hlt. lia.
Qed.

Lemma simulateLoop_cons (base jitter step i : Z) (n : nat) (g : rng) :
  fst (simulateLoop base jitter step i (S n) g) =
  Z.max 1 (base + i * step + noiseOf jitter (g O)) ::
  fst (simulateLoop base jitter step (i + 1) n (fun k => g (S k))).
Proof.
  cbn [simulateLoop]. unfold bind, random, ret.
  destruct (simulateLoop base jitter step (i + 1) n (fun k => g (S k))) as [rest g'].
  reflexivity.
Qed.

Lemma simulateLoop_length (base jitter step i : Z) (n : nat) (g : rng) :
  List.length (fst (simulateLoop base jitter step i n g)) = n.
Proof.
  revert i g. induction n as [| n IH]; intros i g; [reflexivity |].
  rewrite simulateLoop_cons. cbn [List.length]. now rewrite IH.
Qed.

Lemma simulateLoop_floor (base jitter step i : Z) (n : nat) (g : rng) :
  Forall (fun m => 1 <= m) (fst (simulateLoop base jitter step i n g)).
Proof.
  revert i g. induction n as [| n IH]; intros i g; [constructor |].
  rewrite simulateLoop_cons. constructor; [lia | apply IH].
Qed.

Lemma simulateLoop_upper (base jitter step i : Z) (n : nat) (g : rng) :
  0 <= jitter -> 0 <= step -> inUnit g ->
  Forall (fun m => m <= Z.max 1 (base + (i + Z.of_nat n - 1) * step + jitter))
    (fst (simulateLoop base jitter step i n g)).
Proof.
  intros Hj Hs. revert i g. induction n as [| n IH]; intros i g Hg; [constructor |].
  rewrite simulateLoop_cons. constructor.
  - destruct (Hg O) as [H0 H1].
    pose proof (noiseOf_bounds jitter (g O) Hj H0 H1). nia.
  - replace (i + Z.of_nat (S n) - 1) with (i + 1 + Z.of_nat n - 1) by lia.
    apply IH. intros k. apply (Hg (S k)).
Qed.

Lemma simulateEtas_fst (base : Z) (count : nat) (jitter step : Z) (g : rng) :
  fst (simulateEtas base count jitter step g) =
  sort (fun a b => a - b >? 0) (fst (simulateLoop base jitter step 0 count g)).
Proof.
  unfold simulateEtas, bind, ret.
  destruct (simulateLoop base jitter step 0 count g) as [out g']. reflexivity.
Qed.

Lemma simulateEtas_sorted (base : Z) (count : nat) (jitter step : Z) (g : rng) :
  StronglySorted Z.le (fst (simulateEtas base count jitter step g)).
Proof.
  rewrite simulateEtas_fst.
  apply (sort_sorted _ (fun _ => True)).
  - intros x y _ _ H. lia.
  - intros x y _ _ H. lia.
  - intros x y z. lia.
  - rewrite List.Forall_forall. trivial.
Qed.

End Synthesis.

(** C3 (synthesis fallback).  Whenever [hasSoon] is false for a key,
    [simulateEtas] with base 6, count 3, jitter 2 and step 6 returns exactly
    three minute values, each at least 1, in non-decreasing order; the emitted
    group is these three entries labeled [estimated] followed by the nearest
    kept scheduled entry if there is one, at most 4 entries in all; and, the
    random source being in [0, 1), the combined list is ascending by
    [etaSec]. *)
Theorem synthesis_fallback (nowSec : Z) (ln hs : string) (times : list string)
    (g : Js.rng) :
  let ups := App.upcomingScheduled nowSec times in
  App.hasSoon ups = false ->
  exists (m1 m2 m3 : Z) (grp : App.Group),
    fst (App.simulateEtas 6 3 2 6 g) = [m1; m2; m3] /\
    (1 <= m1 /\ m1 <= m2 /\ m2 <= m3) /\
    fst (App.groupsForKey nowSec ln hs times g) = [grp] /\
    App.upcoming grp = (List.map App.simArrival [m1; m2; m3] ++ firstn 1 ups)%list /\
    Forall (fun u => App.source u = App.estimated /\ App.timeStr u = None)
      (List.map App.simArrival [m1; m2; m3]) /\
    (forall u, In u (firstn 1 ups) ->
               App.source u = App.scheduled /\
               Forall (fun v => etaLe (App.etaSec u) (App.etaSec v)) ups) /\
    (List.length (App.upcoming grp) <= 4)%nat /\
    (inUnit g ->
     StronglySorted (fun a b => etaLe (App.etaSec a) (App.etaSec b)) (App.upcoming grp)).
Proof.
  intros ups Hsoon.
  pose proof (simulateEtas_sorted 6 3 2 6 g) as Hsorted.
  pose proof (simulateEtas_fst 6 3 2 6 g) as Hfst.
  pose proof (sort_length (fun a b => a - b >? 0)
                (fst (App.simulateLoop 6 2 6 0 3 g))) as Hlen.
  rewrite <- Hfst, simulateLoop_length in Hlen.
  pose proof (sort_Forall (fun a b => a - b >? 0) _ _ (simulateLoop_floor 6 2 6 0 3 g))
    as Hfloor.
  rewrite <- Hfst in Hfloor.
  assert (Hupper : inUnit g -> Forall (fun m => m <= 20) (fst (App.simulateEtas 6 3 2 6 g))).
  { intros Hg. rewrite Hfst. apply sort_Forall.
    apply (simulateLoop_upper 6 2 6 0 3 g); [lia | lia | exact Hg]. }
  destruct (fst (App.simulateEtas 6 3 2 6 g)) as [| m1 [| m2 [| m3 [| m4 l]]]] eqn:Emins;
    try discriminate Hlen.
  exists m1, m2, m3.
  assert (Hord : 1 <= m1 /\ m1 <= m2 /\ m2 <= m3).
  { inversion Hfloor as [| ? ? H1 _]; subst.
    inversion Hsorted as [| ? ? Hs' Hall1]; subst.
    inversion Hall1 as [| ? ? H12 _]; subst.
    inversion Hs' as [| ? ? _ Hall2]; subst.
    inversion Hall2 as [| ? ? H23 _]; subst. lia. }
  assert (Hups : Forall
            (fun u => exists t e, In t times /\ u = scheduledArrival nowSec t /\
                                  App.etaSec u = Some e /\ 0 <= e <= 5400) ups)
    by apply upcomingScheduled_Forall.
  assert (Hupsorted : StronglySorted (fun a b => etaLe (App.etaSec a) (App.etaSec b)) ups)
    by apply upcomingScheduled_sorted.
  unfold App.groupsForKey. fold ups. rewrite Hsoon. cbn [negb].
  unfold Js.bind, Js.ret.
  destruct (App.simulateEtas 6 3 2 6 g) as [mins g'] eqn:Esim.
  cbn [fst] in Emins. subst mins.
  eexists. split; [reflexivity |]. split; [exact Hord |]. split; [reflexivity |].
  cbn [App.upcoming].
  assert (Hfirst : match ups with u :: _ => [u] | [] => [] end = firstn 1 ups)
    by (destruct ups; reflexivity).
  rewrite Hfirst.
  assert (Hcap : Js.slice0 4 (List.map App.simArrival [m1; m2; m3] ++ firstn 1 ups)%list =
                 (List.map App.simArrival [m1; m2; m3] ++ firstn 1 ups)%list)
    by (destruct ups; reflexivity).
  rewrite Hcap.
  split; [reflexivity |].
  split; [repeat constructor |].
  split.
  { intros u Hu. destruct ups as [| u0 ups']; [destruct Hu |].
    destruct Hu as [<- | []].
    inversion Hups as [| ? ? (t & e & _ & -> & He & _) _]; subst.
    split; [reflexivity |].
    inversion Hupsorted as [| ? ? _ Hall]; subst.
    constructor; [| exact Hall].
    exists e, e. repeat split; [exact He | exact He | lia]. }
  split; [destruct ups; simpl; lia |].
  intros Hg. specialize (Hupper Hg).
  inversion Hupper as [| ? ? Hm1 Hu1]; subst.
  inversion Hu1 as [| ? ? Hm2 Hu2]; subst.
  inversion Hu2 as [| ? ? Hm3 _]; subst.
  assert (Hle : forall a b, a <= b -> etaLe (App.etaSec (App.simArrival a))
                                        (App.etaSec (App.simArrival b))).
  { intros a b Hab. exists (a * 60), (b * 60). repeat split. lia. }
  destruct ups as [| u0 ups']; cbn [firstn List.map List.app].
  - repeat (first [apply SSorted_nil | apply SSorted_cons
                   | apply List.Forall_nil | apply List.Forall_cons]);
      apply Hle; lia.
  - inversion Hups as [| ? ? (t & e & _ & Hu0 & He & Hr) _]; subst.
    cbn [App.hasSoon existsb] in Hsoon. apply orb_false_iff in Hsoon.
    destruct Hsoon as [Hsoon _]. rewrite He in Hsoon. cbn in Hsoon.
    apply Z.leb_gt in Hsoon. unfold App.SOON_WINDOW_MIN in Hsoon.
    assert (Hlast : forall a, a <= 20 ->
                              etaLe (App.etaSec (App.simArrival a))
                                (App.etaSec (scheduledArrival nowSec t))).
    { intros a Ha. exists (a * 60), e. repeat split; [exact He | lia]. }
    repeat (first [apply SSorted_nil | apply SSorted_cons
                   | apply List.Forall_nil | apply List.Forall_cons]);
      first [apply Hle; lia | apply Hlast; lia].
Qed.

(** C3 at 08:00:00 with one train listed for 08:25:00 and every random draw
    equal to 1/2: the estimates are 6, 12 and 18 minutes. *)
Lemma synthesis_fallback_witness :
  exists grp : App.Group,
    fst (App.groupsForKey 28800 "a" "Uptown" ["08:25:00"] (fun _ => 1 # 2)%Q) = [grp] /\
    List.map App.etaSec (App.upcoming grp) = [Some 360; Some 720; Some 1080; Some 1500] /\
    StronglySorted (fun a b => etaLe (App.etaSec a) (App.etaSec b)) (App.upcoming grp).
Proof.
  destruct (synthesis_fallback 28800 "a" "Uptown" ["08:25:00"] (fun _ => 1 # 2)%Q)
    as (m1 & m2 & m3 & grp & Hm & _ & Hg & Hup & _ & _ & _ & Hs).
  - vm_compute. reflexivity.
  - exists grp. split; [exact Hg |]. split.
    + rewrite Hup. vm_compute in Hm. injection Hm as <- <- <-. vm_compute. reflexivity.
    + apply Hs. intros n. split; [discriminate | reflexivity].
Defined.

(** ** Arrival groups of a station *)

Section Groups.
Import Js App.

Lemma simulateEtas_length (base : Z) (count : nat) (jitter step : Z) (g : rng) :
  List.length (fst (simulateEtas base count jitter step g)) = count.
Proof. now rewrite simulateEtas_fst, sort_length, simulateLoop_length. Qed.

Lemma groupsForKey_shape (nowSec : Z) (ln hs : string) (times : list string) (g : rng) :
  exists grp, fst (groupsForKey nowSec ln hs times g) = [grp] /\
              keyOf grp = (toUpperCase ln, hs) /\ wellSized grp.
Proof.
  unfold groupsForKey, wellSized.
  destruct (hasSoon (upcomingScheduled nowSec times)) eqn:Hsoon; cbn [negb].
  - destruct (upcomingScheduled nowSec times) as [| u ups]; [discriminate |].
    eexists. split; [reflexivity |]. split; [reflexivity |].
    cbn [upcoming]. unfold slice0. rewrite List.length_firstn. cbn [List.length]. lia.
  - unfold bind, ret.
    pose proof (simulateEtas_length 6 3 2 6 g) as Hlen.
    destruct (simulateEtas 6 3 2 6 g) as [mins g']. cbn [fst] in Hlen.
    eexists. split; [reflexivity |]. split; [reflexivity |].
    cbn [upcoming]. unfold slice0.
    rewrite List.length_firstn, List.length_app, List.length_map, Hlen.
    destruct (upcomingScheduled nowSec times); cbn [List.length]; lia.
Qed.

Lemma forHeadsigns_shape (nowSec : Z) (ln : string) (byHeadsign : obj (list string))
    (g : rng) :
  List.map keyOf (fst (forHeadsigns nowSec ln byHeadsign g)) =
  List.map (fun h => (toUpperCase ln, fst h)) byHeadsign /\
  Forall wellSized (fst (forHeadsigns nowSec ln byHeadsign g)).
Proof.
  revert g. induction byHeadsign as [| [hs times] rest IH]; intros g.
  - split; [reflexivity | constructor].
  - cbn [forHeadsigns]. unfold bind, ret.
    destruct (groupsForKey_shape nowSec ln hs times g) as (grp & Hg & Hk & Hw).
    destruct (groupsForKey nowSec ln hs times g) as [one g1]. cbn [fst] in Hg. subst one.
    specialize (IH g1).
    destruct (forHeadsigns nowSec ln rest g1) as [gs g2]. cbn [fst] in *.
    destruct IH as [IHk IHw]. split.
    + cbn [List.app List.map fst]. now rewrite Hk, IHk.
    + constructor; assumption.
Qed.

Lemma forLines_shape (nowSec : Z) (stationData : obj (obj (list string))) (g : rng) :
  List.map keyOf (fst (forLines nowSec stationData g)) = keysOf stationData /\
  Forall wellSized (fst (forLines nowSec stationData g)).
Proof.
  revert g. induction stationData as [| [ln byHeadsign] rest IH]; intros g.
  - split; [reflexivity | constructor].
  - cbn [forLines]. unfold bind, ret.
    destruct (forHeadsigns_shape nowSec ln byHeadsign g) as [Hk Hw].
    destruct (forHeadsigns nowSec ln byHeadsign g) as [gs1 g1]. cbn [fst] in Hk, Hw.
    specialize (IH g1).
    destruct (forLines nowSec rest g1) as [gs2 g2]. cbn [fst] in *.
    destruct IH as [IHk IHw]. split.
    + cbn [keysOf flat_map fst snd]. rewrite List.map_app, Hk, IHk. reflexivity.
    + apply List.Forall_app. split; assumption.
Qed.

End Groups.

(** C10 (one group per key).  For a station present in the arrival index,
    the groups computed are, up to the final ordering, exactly one per
    (line, headsign) key stored at the station, and the upcoming list of
    every group has at least 1 and at most 4 entries: no empty group is
    produced. *)
Theorem one_group_per_key (ARRIVALS_BY_DEST : App.obj (App.obj (App.obj (list string))))
    (nowSec : Z) (id : string) (stationData : App.obj (App.obj (list string)))
    (g : Js.rng) :
  App.getProp ARRIVALS_BY_DEST id = Some stationData ->
  let groups := fst (App.nextArrivals ARRIVALS_BY_DEST nowSec (Some id) g) in
  Permutation (List.map keyOf groups) (keysOf stationData) /\
  List.length groups = List.length (keysOf stationData) /\
  Forall (fun grp => (1 <= List.length (App.upcoming grp) <= 4)%nat) groups.
Proof.
  intros Hget groups. unfold groups, App.nextArrivals. rewrite Hget.
  unfold Js.bind, Js.ret.
  destruct (forLines_shape nowSec stationData g) as [Hk Hw].
  destruct (App.forLines nowSec stationData g) as [gs g']. cbn [fst] in *.
  set (gt := fun a b : App.Group => App.byEta (App.firstEta a) (App.firstEta b)).
  assert (Hperm : Permutation (List.map keyOf (Js.sort gt gs)) (keysOf stationData)).
  { rewrite <- Hk. apply Permutation_map, sort_perm. }
  split; [exact Hperm | split].
  - rewrite <- (List.length_map keyOf). apply Permutation_length, Hperm.
  - apply sort_Forall. exact Hw.
Qed.

(** C10 at a station with two lines and three keys, one of them with no
    listed time. *)
Lemma one_group_per_key_witness :
  let index := [("S1", [("a", [("Uptown", ["08:05:00"; "08:25:00"]); ("Downtown", [])]);
                        ("7", [("Queens", ["09:10:00"])])])] in
  let groups := fst (App.nextArrivals index 28800 (Some "S1") (fun _ => 1 # 2)%Q) in
  Permutation (List.map keyOf groups) [("A", "Uptown"); ("A", "Downtown"); ("7", "Queens")] /\
  Forall (fun grp => (1 <= List.length (App.upcoming grp) <= 4)%nat) groups.
Proof.
  intros index groups.
  destruct (one_group_per_key index 28800 "S1"
              [("a", [("Uptown", ["08:05:00"; "08:25:00"]); ("Downtown", [])]);
               ("7", [("Queens", ["09:10:00"])])] (fun _ => 1 # 2)%Q)
    as (Hp & _ & Hw).
  - reflexivity.
  - split; [exact Hp | exact Hw].
Defined.

(** ** The tabular readers *)

Section Readers.
Import Js.

Lemma append_assoc (a b c : string) : (a ++ b) ++ c = a ++ (b ++ c).
Proof. induction a as [| x a IH]; [reflexivity |]. rewrite !append_cons. now rewrite IH. Qed.

Lemma append_snoc (cur : string) (c : ascii) (s : string) :
  (cur ++ String c "") ++ s = cur ++ String c s.
Proof. now rewrite append_assoc. Qed.

Lemma append_empty_r (a : string) : a ++ "" = a.
Proof. induction a as [| x a IH]; [reflexivity |]. now rewrite append_cons, IH. Qed.

Lemma joinComma_cons (f f' : string) (fs : list string) :
  joinComma (f :: f' :: fs) = f ++ String comma (joinComma (f' :: fs)).
Proof. reflexivity. Qed.

(** *** [parseCSVLine] *)

Lemma parseCSVLoop_quoted (s rest : string) (out : list string) (cur : string) :
  afterField rest ->
  RouteShapes.parseCSVLoop (escapeQuotes s ++ String dquote rest) out cur true =
  RouteShapes.parseCSVLoop rest out (cur ++ s) false.
Proof.
  intros Hrest. revert cur. induction s as [| c s IH]; intros cur.
  - rewrite append_empty_r. cbn [escapeQuotes]. rewrite append_nil.
    cbn [RouteShapes.parseCSVLoop]. rewrite Ascii.eqb_refl.
    destruct rest as [| c' rest']; [reflexivity |].
    cbn in Hrest. rewrite Hrest. reflexivity.
  - cbn [escapeQuotes]. destruct (Ascii.eqb c dquote) eqn:E.
    + apply Ascii.eqb_eq in E. subst c. rewrite !append_cons.
      cbn [RouteShapes.parseCSVLoop]. rewrite Ascii.eqb_refl. cbn [andb].
      rewrite IH, append_snoc. reflexivity.
    + rewrite append_cons. cbn [RouteShapes.parseCSVLoop]. rewrite E.
      rewrite andb_false_r, IH, append_snoc. reflexivity.
Qed.

Lemma parseCSVLoop_field (s rest : string) (out : list string) (cur : string) :
  afterField rest ->
  RouteShapes.parseCSVLoop (quoteField s ++ rest) out cur false =
  RouteShapes.parseCSVLoop rest out (cur ++ s) false.
Proof.
  intros Hrest. unfold quoteField. rewrite append_cons, append_assoc, append_cons, append_nil.
  cbn [RouteShapes.parseCSVLoop]. rewrite Ascii.eqb_refl. cbn [andb negb].
  rewrite <- (parseCSVLoop_quoted s rest out cur Hrest).
  destruct (escapeQuotes s ++ String dquote rest); reflexivity.
Qed.

Lemma parseCSVLoop_fields (f : string) (fs out : list string) :
  RouteShapes.parseCSVLoop (joinComma (List.map quoteField (f :: fs))) out "" false =
  (out ++ f :: fs)%list.
Proof.
  revert f out. induction fs as [| f' fs IH]; intros f out.
  - cbn [List.map joinComma String.concat].
    rewrite <- (append_empty_r (quoteField f)).
    rewrite parseCSVLoop_field by exact I. reflexivity.
  - cbn [List.map]. rewrite joinComma_cons.
    rewrite parseCSVLoop_field by reflexivity.
    cbn [RouteShapes.parseCSVLoop].
    replace (Ascii.eqb comma dquote) with false by reflexivity.
    rewrite Ascii.eqb_refl. cbn [andb negb]. rewrite append_nil.
    change (quoteField f' :: List.map quoteField fs) with (List.map quoteField (f' :: fs)).
    rewrite IH, <- List.app_assoc. reflexivity.
Qed.

(** *** [parseCSV] *)

Lemma parseLoop_quoted (s rest : string) (rows : list (list string)) (row : list string)
    (cur : string) :
  afterField rest ->
  GtfsJson.parseLoop (escapeQuotes s ++ String dquote rest) rows row cur true =
  GtfsJson.parseLoop rest rows row (cur ++ s) false.
Proof.
  intros Hrest. revert cur. induction s as [| c s IH]; intros cur.
  - rewrite append_empty_r. cbn [escapeQuotes]. rewrite append_nil.
    cbn [GtfsJson.parseLoop]. rewrite Ascii.eqb_refl.
    destruct rest as [| c' rest']; [reflexivity |].
    cbn in Hrest. rewrite Hrest. reflexivity.
  - cbn [escapeQuotes]. destruct (Ascii.eqb c dquote) eqn:E.
    + apply Ascii.eqb_eq in E. subst c. rewrite !append_cons.
      cbn [GtfsJson.parseLoop]. rewrite Ascii.eqb_refl. cbn [andb].
      rewrite IH, append_snoc. reflexivity.
    + rewrite append_cons. cbn [GtfsJson.parseLoop]. rewrite E. cbn [negb andb].
      rewrite IH, append_snoc. reflexivity.
Qed.

Lemma parseLoop_field (s rest : string) (rows : list (list string)) (row : list string)
    (cur : string) :
  afterField rest ->
  GtfsJson.parseLoop (quoteField s ++ rest) rows row cur false =
  GtfsJson.parseLoop rest rows row (cur ++ s) false.
Proof.
  intros Hrest. unfold quoteField. rewrite append_cons, append_assoc, append_cons, append_nil.
  cbn [GtfsJson.parseLoop]. rewrite Ascii.eqb_refl. cbn [andb negb].
  rewrite <- (parseLoop_quoted s rest rows row cur Hrest).
  destruct (escapeQuotes s ++ String dquote rest); reflexivity.
Qed.

Lemma parseLoop_fields (f : string) (fs : list string) (rows : list (list string))
    (row : list string) :
  GtfsJson.parseLoop (joinComma (List.map quoteField (f :: fs))) rows row "" false =
  (rows, (row ++ removelast (f :: fs))%list, List.last (f :: fs) "").
Proof.
  revert f row. induction fs as [| f' fs IH]; intros f row.
  - cbn [List.map joinComma String.concat].
    rewrite <- (append_empty_r (quoteField f)).
    rewrite parseLoop_field by exact I.
    cbn [GtfsJson.parseLoop removelast List.last]. now rewrite List.app_nil_r.
  - cbn [List.map]. rewrite joinComma_cons.
    rewrite parseLoop_field by reflexivity.
    cbn [GtfsJson.parseLoop].
    replace (Ascii.eqb comma dquote) with false by reflexivity.
    replace (Ascii.eqb comma CR) with false by reflexivity.
    rewrite Ascii.eqb_refl. cbn [andb negb orb]. rewrite append_nil.
    change (quoteField f' :: List.map quoteField fs) with (List.map quoteField (f' :: fs)).
    rewrite IH, <- List.app_assoc. reflexivity.
Qed.

(** *** [splitCsvLine] *)

Lemma splitCsvLoop_quoted (s rest : string) (out : list string) (cur : string) :
  StationToLines.splitCsvLoop (escapeQuotes s ++ String dquote rest) out cur true =
  StationToLines.splitCsvLoop rest out (cur ++ dropQuotes s) false.
Proof.
  revert cur. induction s as [| c s IH]; intros cur.
  - rewrite append_empty_r. cbn [escapeQuotes]. rewrite append_nil.
    cbn [StationToLines.splitCsvLoop]. rewrite Ascii.eqb_refl. reflexivity.
  - cbn [escapeQuotes dropQuotes]. destruct (Ascii.eqb c dquote) eqn:E.
    + rewrite !append_cons. cbn [StationToLines.splitCsvLoop].
      rewrite Ascii.eqb_refl. cbn [negb]. apply IH.
    + rewrite append_cons. cbn [StationToLines.splitCsvLoop]. rewrite E.
      rewrite andb_false_r, IH, append_snoc. reflexivity.
Qed.

Lemma splitCsvLoop_field (s rest : string) (out : list string) (cur : string) :
  StationToLines.splitCsvLoop (quoteField s ++ rest) out cur false =
  StationToLines.splitCsvLoop rest out (cur ++ dropQuotes s) false.
Proof.
  unfold quoteField. rewrite append_cons, append_assoc, append_cons, append_nil.
  cbn [StationToLines.splitCsvLoop]. rewrite Ascii.eqb_refl. cbn [negb].
  apply splitCsvLoop_quoted.
Qed.

Lemma splitCsvLoop_fields (f : string) (fs out : list string) :
  StationToLines.splitCsvLoop (joinComma (List.map quoteField (f :: fs))) out "" false =
  (out ++ List.map dropQuotes (f :: fs))%list.
Proof.
  revert f out. induction fs as [| f' fs IH]; intros f out.
  - cbn [List.map joinComma String.concat].
    rewrite <- (append_empty_r (quoteField f)).
    rewrite splitCsvLoop_field. reflexivity.
  - cbn [List.map]. rewrite joinComma_cons.
    rewrite splitCsvLoop_field.
    cbn [StationToLines.splitCsvLoop].
    replace (Ascii.eqb comma dquote) with false by reflexivity.
    rewrite Ascii.eqb_refl. cbn [andb negb]. rewrite append_nil.
    change (quoteField f' :: List.map quoteField fs) with (List.map quoteField (f' :: fs)).
    rewrite IH, <- List.app_assoc. reflexivity.
Qed.

Lemma dropQuotes_id (s : string) :
  (forall c, In c (list_ascii_of_string s) -> c <> dquote) -> dropQuotes s = s.
Proof.
  induction s as [| c s IH]; intros H; [reflexivity |].
  cbn [dropQuotes]. destruct (Ascii.eqb c dquote) eqn:E.
  - apply Ascii.eqb_eq in E. exfalso. apply (H c); [now left | exact E].
  - f_equal. apply IH. intros c' Hc'. apply H. now right.
Qed.

End Readers.

(** C9, as the code has it (tabular reader quoting).  Inside a quoted
    field, whatever was read before and whatever follows the closing quote,
    [parseCSVLine] and [parseCSV] add the value itself to the current field:
    a doubled quote yields one literal quote and a comma stays in the field;
    [splitCsvLine] keeps the comma in the field as well, but adds the value
    without its quote characters.  Hence a line of quoted fields is read back
    as its values by [parseCSVLine] and [parseCSV], and as its values without
    their quotes by the two copies of [splitCsvLine]. *)
Theorem quoted_fields_read (f : string) (fs : list string) :
  let line := joinComma (List.map quoteField (f :: fs)) in
  (forall s rest out cur, afterField rest ->
     RouteShapes.parseCSVLoop (escapeQuotes s ++ String Js.dquote rest) out cur true =
     RouteShapes.parseCSVLoop rest out (cur ++ s) false) /\
  (forall s rest rows row cur, afterField rest ->
     GtfsJson.parseLoop (escapeQuotes s ++ String Js.dquote rest) rows row cur true =
     GtfsJson.parseLoop rest rows row (cur ++ s) false) /\
  (forall s rest out cur,
     StationToLines.splitCsvLoop (escapeQuotes s ++ String Js.dquote rest) out cur true =
     StationToLines.splitCsvLoop rest out (cur ++ dropQuotes s) false) /\
  RouteShapes.parseCSVLine line = f :: fs /\
  GtfsJson.parseCSV line = List.filter GtfsJson.nonBlankRow [f :: fs] /\
  StationToLines.splitCsvLine line = List.map dropQuotes (f :: fs) /\
  Arrivals.splitCsvLine line = List.map dropQuotes (f :: fs) /\
  ((forall s, In s (f :: fs) -> forall c, In c (list_ascii_of_string s) -> c <> Js.dquote) ->
   StationToLines.splitCsvLine line = f :: fs).
Proof.
  intros line.
  assert (Hsplit : StationToLines.splitCsvLine line = List.map dropQuotes (f :: fs))
    by apply splitCsvLoop_fields.
  split; [intros s rest out cur; apply parseCSVLoop_quoted |].
  split; [intros s rest rows row cur; apply parseLoop_quoted |].
  split; [intros s rest out cur; apply splitCsvLoop_quoted |].
  split; [apply parseCSVLoop_fields |].
  split; [| split; [exact Hsplit | split; [exact Hsplit |]]].
  - unfold GtfsJson.parseCSV, line. rewrite parseLoop_fields.
    cbn [List.app].
    destruct (negb (String.eqb (List.last (f :: fs) "") "")
              || negb (Nat.eqb (List.length (removelast (f :: fs))) 0)) eqn:E.
    + rewrite <- List.app_removelast_last by discriminate. reflexivity.
    + apply orb_false_iff in E. destruct E as [E1 E2].
      apply negb_false_iff, String.eqb_eq in E1.
      apply negb_false_iff, Nat.eqb_eq, List.length_zero_iff_nil in E2.
      rewrite (List.app_removelast_last "" (l := f :: fs)) by discriminate.
      rewrite E1, E2. reflexivity.
  - intros Hq. rewrite Hsplit.
    rewrite <- (List.map_id (f :: fs)) at 2. apply List.map_ext_in.
    intros s Hs. apply dropQuotes_id. exact (Hq s Hs).
Qed.

(** C9 fails for [splitCsvLine]: the value made of [a], a quote and [b],
    written as a quoted field with its quote doubled, is read as [ab]. *)
Lemma splitCsvLine_loses_doubled_quote :
  let value := String "a" (String Js.dquote "b") in
  RouteShapes.parseCSVLine (quoteField value) = [value] /\
  StationToLines.splitCsvLine (quoteField value) = ["ab"] /\
  StationToLines.splitCsvLine (quoteField value) <> [value].
Proof.
  cbv zeta. split; [reflexivity | split; [reflexivity | discriminate]].
Qed.

(** ** The joiners *)

Section Joiners.
Import Js.

(** A [Map] filled by one conditional [set] per row holds, at each key, the
    value of the latest row that was kept under this key. *)
Lemma fold_set_lookup {K : Type} `{Countable K} {V R : Type}
    (keep : R -> bool) (key : R -> K) (val : R -> V) (rows : list R)
    (m : gmap K V) (k : K) :
  fold_left (fun m r => if keep r then <[key r := val r]> m else m) rows m !! k =
  match latest (fun r => keep r && bool_decide (key r = k)) rows with
  | Some r => Some (val r)
  | None => m !! k
  end.
Proof.
  unfold latest. induction rows as [| r rows IH] using rev_ind; [reflexivity |].
  rewrite fold_left_app, rev_app_distr. cbn [fold_left rev List.app List.find].
  destruct (keep r); cbn [andb].
  - destruct (bool_decide_reflect (key r = k)) as [-> | Hne].
    + apply lookup_insert_eq.
    + rewrite lookup_insert_ne by exact Hne. apply IH.
  - apply IH.
Qed.

Lemma truthy_orEmpty (x : option string) (k : string) :
  truthy x && bool_decide (orEmpty x = k) =
  bool_decide (x = Some k) && negb (String.eqb k "").
Proof.
  destruct x as [s |]; cbn.
  - destruct (bool_decide_reflect (s = k)) as [-> | Hne].
    + rewrite bool_decide_eq_true_2 by reflexivity. now rewrite andb_true_r.
    + rewrite bool_decide_eq_false_2 by congruence. now rewrite andb_false_r.
  - rewrite bool_decide_eq_false_2 by discriminate. reflexivity.
Qed.

Lemma joiner_route_test (r : Routes.row) (k : string) :
  truthy (Routes.route_id r) && truthy (Some (shortNameOf r))
  && bool_decide (orEmpty (Routes.route_id r) = k) = namedRoute k r.
Proof.
  unfold namedRoute. rewrite <- truthy_orEmpty. cbn [truthy].
  destruct (truthy (Routes.route_id r)), (negb (String.eqb (shortNameOf r) "")),
    (bool_decide (orEmpty (Routes.route_id r) = k)); reflexivity.
Qed.

Lemma latest_ext {R : Type} (p q : R -> bool) (rows : list R) :
  (forall r, p r = q r) -> latest p rows = latest q rows.
Proof.
  intros Hpq. unfold latest. induction (rev rows) as [| r l IH]; [reflexivity |].
  cbn [List.find]. now rewrite Hpq, IH.
Qed.

Lemma routeIdToLine_lookup (routes : list Routes.row) (id : string) :
  Arrivals.routeIdToLine routes !! id =
  option_map (fun r => toUpperCase (shortNameOf r)) (latest (namedRoute id) routes).
Proof.
  etransitivity;
    [exact (fold_set_lookup
              (fun r => truthy (Routes.route_id r) && truthy (Some (shortNameOf r)))
              (fun r => orEmpty (Routes.route_id r))
              (fun r => toUpperCase (shortNameOf r)) routes ∅ id) |].
  rewrite (latest_ext _ (namedRoute id)) by (intros r; apply joiner_route_test).
  destruct (latest (namedRoute id) routes); reflexivity.
Qed.

Lemma routeIdToShort_lookup (routes : list Routes.row) (id : string) :
  StationToLines.routeIdToShort routes !! id =
  option_map (fun r => toUpperCase (shortNameOf r)) (latest (namedRoute id) routes).
Proof.
  etransitivity;
    [exact (fold_set_lookup
              (fun r => truthy (Routes.route_id r) && truthy (Some (shortNameOf r)))
              (fun r => orEmpty (Routes.route_id r))
              (fun r => toUpperCase (shortNameOf r)) routes ∅ id) |].
  rewrite (latest_ext _ (namedRoute id)) by (intros r; apply joiner_route_test).
  destruct (latest (namedRoute id) routes); reflexivity.
Qed.

Lemma gtfs_routeIdToShort_lookup (routes : list Routes.row) (k : option string) :
  GtfsJson.routeIdToShort routes !! k =
  option_map
    (fun r => if truthy (Some (shortNameOf r)) then Some (shortNameOf r)
              else Routes.route_id r)
    (latest (fun r => bool_decide (Routes.route_id r = k)) (GtfsJson.subwayRoutes routes)).
Proof.
  etransitivity;
    [exact (fold_set_lookup (fun _ => true) Routes.route_id
              (fun r => if truthy (Some (shortNameOf r)) then Some (shortNameOf r)
                        else Routes.route_id r) (GtfsJson.subwayRoutes routes) ∅ k) |].
  cbn [andb].
  destruct (latest _ (GtfsJson.subwayRoutes routes)); reflexivity.
Qed.

Lemma shapes_route_test (r : Routes.row) (k : string) :
  truthy (Routes.route_id r) && bool_decide (orEmpty (Routes.route_id r) = k) =
  bool_decide (Routes.route_id r = Some k) && negb (String.eqb k "").
Proof. apply truthy_orEmpty. Qed.

Lemma shapes_routeIdToShort_at (routes : list Routes.row) (id : string) :
  RouteShapes.routeIdToShort routes !! id =
  option_map (fun r => if String.eqb (shortNameOf r) "" then id else shortNameOf r)
    (latest (fun r => bool_decide (Routes.route_id r = Some id)
                      && negb (String.eqb id "")) routes).
Proof.
  etransitivity;
    [exact (fold_set_lookup
              (fun r => truthy (Routes.route_id r))
              (fun r => orEmpty (Routes.route_id r))
              (fun r => if truthy (Some (shortNameOf r)) then shortNameOf r
                        else orEmpty (Routes.route_id r)) routes ∅ id) |].
  rewrite (latest_ext _ (fun r => bool_decide (Routes.route_id r = Some id)
                                  && negb (String.eqb id "")))
    by (intros r; apply shapes_route_test).
  unfold latest.
  destruct (List.find _ (rev routes)) as [r |] eqn:E; [| reflexivity].
  apply List.find_some in E. destruct E as [_ Hid].
  apply andb_true_iff in Hid. destruct Hid as [Hid _].
  apply bool_decide_eq_true_1 in Hid. cbn [option_map truthy].
  rewrite Hid. cbn [orEmpty]. destruct (String.eqb (shortNameOf r) ""); reflexivity.
Qed.

End Joiners.

(** C8, as the code has it (route-name resolution).  In the two joiners
    ([build_station_to_lines.mjs] and the arrivals script) a route id is
    mapped to the upper-cased trimmed short name of the latest route row
    that has this id and a non-blank trimmed short name; a row with a blank
    short name is left out, so an id with no named row is not in the
    mapping.  The fall-back to the route id for a blank short name is the
    behaviour of [routeIdToShort] in [build_gtfs_json.js], over the routes
    it keeps, and of [routeIdToShort] in [build_route_shapes.mjs], over the
    rows with a non-empty id; neither changes the case of the name. *)
Theorem route_name_resolution (routes : list Routes.row) (id : string) :
  Arrivals.routeIdToLine routes !! id =
    option_map (fun r => Js.toUpperCase (shortNameOf r)) (latest (namedRoute id) routes) /\
  StationToLines.routeIdToShort routes !! id =
    option_map (fun r => Js.toUpperCase (shortNameOf r)) (latest (namedRoute id) routes) /\
  ((forall r, In r routes -> Routes.route_id r = Some id -> shortNameOf r = "") ->
   Arrivals.routeIdToLine routes !! id = None /\
   StationToLines.routeIdToShort routes !! id = None) /\
  GtfsJson.routeIdToShort routes !! Some id =
    option_map
      (fun r => Some (if String.eqb (shortNameOf r) "" then id else shortNameOf r))
      (latest (fun r => bool_decide (Routes.route_id r = Some id))
         (GtfsJson.subwayRoutes routes)) /\
  RouteShapes.routeIdToShort routes !! id =
    option_map (fun r => if String.eqb (shortNameOf r) "" then id else shortNameOf r)
      (latest (fun r => bool_decide (Routes.route_id r = Some id)
                        && negb (String.eqb id "")) routes).
Proof.
  split; [apply routeIdToLine_lookup | split; [apply routeIdToShort_lookup | split]];
    [| split; [| apply shapes_routeIdToShort_at]].
  - intros Hblank.
    assert (Hnone : latest (namedRoute id) routes = None).
    { unfold latest. destruct (List.find (namedRoute id) (rev routes)) as [r |] eqn:E;
        [| reflexivity].
      apply List.find_some in E. destruct E as [Hin Hnamed]. exfalso.
      apply List.in_rev in Hin. unfold namedRoute in Hnamed.
      apply andb_true_iff in Hnamed. destruct Hnamed as [Hnamed Hshort].
      apply andb_true_iff in Hnamed. destruct Hnamed as [Hid _].
      apply bool_decide_eq_true_1 in Hid.
      rewrite (Hblank r Hin Hid) in Hshort. discriminate. }
    now rewrite routeIdToLine_lookup, routeIdToShort_lookup, Hnone.
  - rewrite gtfs_routeIdToShort_lookup. unfold latest.
    destruct (List.find _ (rev (GtfsJson.subwayRoutes routes))) as [r |] eqn:E;
      [| reflexivity].
    apply List.find_some in E. destruct E as [_ Hid].
    apply bool_decide_eq_true_1 in Hid. cbn [option_map truthy].
    rewrite Hid. destruct (String.eqb (shortNameOf r) ""); reflexivity.
Qed.

(** C8 fails in the joiners: a route row with a blank short name is dropped
    from their mapping instead of being mapped to its id, and a short name is
    stored in upper case; [build_gtfs_json.js] and [build_route_shapes.mjs]
    keep the row under its id. *)
Lemma joiners_drop_unnamed_route :
  let routes := [ Routes.mk (Some "R1") (Some " ") (Some "1");
                  Routes.mk (Some "R2") (Some " a ") (Some "1") ] in
  Arrivals.routeIdToLine routes !! "R1" = None /\
  Arrivals.routeIdToLine routes !! "R1" <> Some "R1" /\
  StationToLines.routeIdToShort routes !! "R1" = None /\
  Arrivals.routeIdToLine routes !! "R2" = Some "A" /\
  GtfsJson.routeIdToShort routes !! Some "R1" = Some (Some "R1") /\
  RouteShapes.routeIdToShort routes !! "R1" = Some "R1".
Proof.
  cbv zeta. repeat split; try (vm_compute; reflexivity).
  vm_compute. discriminate.
Qed.

(** ** The arrival index *)

Section ArrivalIndex.
Import Js.

Lemma lexLe_of_not_gt (a b : string) : String.ltb b a = false -> lexLe a b.
Proof.
  unfold String.ltb, lexLe. destruct (String.compare b a) eqn:E; try discriminate; intros _.
  - left. symmetry. now apply String.compare_eq_iff.
  - right. apply String_as_OT.cmp_lt. unfold String_as_OT.cmp.
    rewrite String.compare_antisym, E. reflexivity.
Qed.

Lemma lexLe_of_gt (a b : string) : String.ltb b a = true -> lexLe b a.
Proof.
  unfold String.ltb, lexLe. destruct (String.compare b a) eqn:E; try discriminate; intros _.
  right. now apply String_as_OT.cmp_lt.
Qed.

Lemma lexLe_trans (a b c : string) : lexLe a b -> lexLe b c -> lexLe a c.
Proof.
  intros [-> | Hab] [-> | Hbc]; try (left; reflexivity); try (right; assumption).
  right. eapply String_as_OT.lt_trans; eassumption.
Qed.

Lemma finalizeBucket_invariant (arr : list string) :
  StronglySorted lexLe (Arrivals.finalizeBucket arr) /\
  (List.length (Arrivals.finalizeBucket arr) <= 120)%nat.
Proof.
  unfold Arrivals.finalizeBucket, slice0. split.
  - apply StronglySorted_firstn.
    apply (sort_sorted _ (fun _ => True)).
    + intros x y _ _. apply lexLe_of_not_gt.
    + intros x y _ _. apply lexLe_of_gt.
    + apply lexLe_trans.
    + rewrite List.Forall_forall. trivial.
  - apply List.firstn_le_length.
Qed.

Lemma finalize_lookup (out : Arrivals.index) (station line headsign : string)
    (byLine : gmap string (gmap string (list string)))
    (byHeadsign : gmap string (list string)) (arr : list string) :
  Arrivals.finalize out !! station = Some byLine ->
  byLine !! line = Some byHeadsign ->
  byHeadsign !! headsign = Some arr ->
  exists arr0, arr = Arrivals.finalizeBucket arr0.
Proof.
  unfold Arrivals.finalize. rewrite lookup_fmap.
  intros (st & _ & ->)%fmap_Some. rewrite lookup_fmap.
  intros (ln & _ & ->)%fmap_Some. rewrite lookup_fmap.
  intros (arr0 & _ & ->)%fmap_Some. now exists arr0.
Qed.

End ArrivalIndex.

(** C7 (StationArrivalIndex invariant).  After the finalization step of the
    ingestion, every station/line/headsign bucket of the index is sorted
    ascending in the lexicographic order of its clock strings and holds at
    most 120 entries. *)
Theorem arrival_index_invariant (stops : list Stops.row) (routes : list Routes.row)
    (trips : list Trips.row) (stopTimes : list StopTimes.row)
    (station line headsign : string)
    (byLine : gmap string (gmap string (list string)))
    (byHeadsign : gmap string (list string)) (arr : list string) :
  Arrivals.main stops routes trips stopTimes !! station = Some byLine ->
  byLine !! line = Some byHeadsign ->
  byHeadsign !! headsign = Some arr ->
  StronglySorted lexLe arr /\ (List.length arr <= 120)%nat.
Proof.
  unfold Arrivals.main. intros Hs Hl Hh.
  destruct (finalize_lookup _ _ _ _ _ _ _ Hs Hl Hh) as [arr0 ->].
  apply finalizeBucket_invariant.
Qed.

(** C7 on a small feed: three arrivals of one trip pattern at the platform
    [S1N] of the station [S1] end up in one sorted bucket. *)
Lemma arrival_index_invariant_witness :
  let stops := [Stops.mk (Some "S1N") (Some "S1")] in
  let routes := [Routes.mk (Some "R") (Some "a") (Some "1")] in
  let trips := [Trips.mk (Some "T") (Some "R") (Some "Uptown") (Some "0") (Some "sh")] in
  let stopTimes := [ StopTimes.mk (Some "T") (Some "S1N") (Some "08:05:00");
                     StopTimes.mk (Some "T") (Some "S1N") (Some "25:10:00");
                     StopTimes.mk (Some "T") (Some "S1N") (Some "07:59:00") ] in
  exists byLine byHeadsign,
    Arrivals.main stops routes trips stopTimes !! "S1" = Some byLine /\
    byLine !! "A" = Some byHeadsign /\
    byHeadsign !! "Uptown" = Some ["07:59:00"; "08:05:00"; "25:10:00"] /\
    StronglySorted lexLe ["07:59:00"; "08:05:00"; "25:10:00"].
Proof.
  intros stops routes trips stopTimes.
  destruct (Arrivals.main stops routes trips stopTimes !! "S1") as [byLine |] eqn:Hs;
    [| vm_compute in Hs; discriminate Hs].
  destruct (byLine !! "A") as [byHeadsign |] eqn:Hl;
    [| vm_compute in Hs; injection Hs as <-; vm_compute in Hl; discriminate Hl].
  assert (Hh : byHeadsign !! "Uptown" = Some ["07:59:00"; "08:05:00"; "25:10:00"]).
  { vm_compute in Hs. injection Hs as <-. vm_compute in Hl. injection Hl as <-.
    vm_compute. reflexivity. }
  exists byLine, byHeadsign. repeat split; try assumption.
  exact (proj1 (arrival_index_invariant stops routes trips stopTimes "S1" "A" "Uptown"
                  byLine byHeadsign _ Hs Hl Hh)).
Defined.

(** ** The nearest-stops query *)

Section Geo.
Import Js App.
Local Open Scope R_scope.

Lemma Rltb_true (a b : R) : a < b -> Rltb a b = true.
Proof. intros H. unfold Rltb. destruct (Rlt_dec a b); [reflexivity | contradiction]. Qed.

Lemma Rltb_false (a b : R) : ~ a < b -> Rltb a b = false.
Proof. intros H. unfold Rltb. destruct (Rlt_dec a b); [contradiction | reflexivity]. Qed.

Lemma Rleb_true (a b : R) : a <= b -> Rleb a b = true.
Proof. intros H. unfold Rleb. destruct (Rle_dec a b); [reflexivity | contradiction]. Qed.

Lemma Rleb_false (a b : R) : ~ a <= b -> Rleb a b = false.
Proof. intros H. unfold Rleb. destruct (Rle_dec a b); [contradiction | reflexivity]. Qed.

Lemma sin_sq_range (x : R) : 0 <= sin x * sin x <= 1.
Proof.
  pose proof (sin2_cos2 x) as H. unfold Rsqr in H.
  pose proof (Rle_0_sqr (sin x)) as Hs. pose proof (Rle_0_sqr (cos x)) as Hc.
  unfold Rsqr in Hs, Hc. lra.
Qed.

Lemma cos_sq_range (x : R) : 0 <= cos x * cos x <= 1.
Proof.
  pose proof (sin2_cos2 x) as H. unfold Rsqr in H.
  pose proof (Rle_0_sqr (sin x)) as Hs. pose proof (Rle_0_sqr (cos x)) as Hc.
  unfold Rsqr in Hs, Hc. lra.
Qed.

(** [cos p * cos q] through the half sum and the half difference. *)
Lemma cos_cos (p q : R) :
  cos p * cos q =
  cos ((p + q) / 2) * cos ((p + q) / 2) - sin ((q - p) / 2) * sin ((q - p) / 2).
Proof.
  set (m := (p + q) / 2). set (u := (q - p) / 2).
  replace p with (m - u) by (unfold m, u; lra).
  replace q with (m + u) at 1 by (unfold m, u; lra).
  rewrite cos_minus, cos_plus.
  pose proof (sin2_cos2 m) as Hm. pose proof (sin2_cos2 u) as Hu.
  unfold Rsqr in Hm, Hu.
  transitivity (cos m * cos m * (cos u * cos u) - sin m * sin m * (sin u * sin u));
    [ring |].
  replace (cos u * cos u) with (1 - sin u * sin u) by lra.
  replace (sin m * sin m) with (1 - cos m * cos m) by lra.
  ring.
Qed.

Lemma haversine_range (aLat aLon bLat bLon : R) :
  0 <= haversine aLat aLon bLat bLon <= 1.
Proof.
  unfold haversine. rewrite cos_cos.
  pose proof (sin_sq_range ((rad bLat - rad aLat) / 2)) as Hu.
  pose proof (cos_sq_range ((rad aLat + rad bLat) / 2)) as Hm.
  pose proof (sin_sq_range ((rad bLon - rad aLon) / 2)) as Hs.
  set (su := sin ((rad bLat - rad aLat) / 2) * sin ((rad bLat - rad aLat) / 2)) in *.
  set (cm := cos ((rad aLat + rad bLat) / 2) * cos ((rad aLat + rad bLat) / 2)) in *.
  set (s := sin ((rad bLon - rad aLon) / 2) * sin ((rad bLon - rad aLon) / 2)) in *.
  nra.
Qed.

(** On [0, 1], [atan2 (sqrt h) (sqrt (1 - h))] is the arc sine of [sqrt h]. *)
Lemma atan2_sqrt (h : R) :
  0 <= h <= 1 -> atan2 (sqrt h) (sqrt (1 - h)) = asin (sqrt h).
Proof.
  intros [H0 H1]. unfold atan2.
  destruct (Rle_lt_or_eq_dec h 1 H1) as [Hlt | ->].
  - assert (Hpos : 0 < sqrt (1 - h)) by (apply sqrt_lt_R0; lra).
    rewrite Rltb_true by exact Hpos.
    assert (Hs0 : 0 <= sqrt h) by apply sqrt_pos.
    assert (Hs1 : sqrt h < 1).
    { rewrite <- sqrt_1. apply sqrt_lt_1; lra. }
    rewrite asin_atan by lra.
    unfold Rsqr. rewrite sqrt_sqrt by exact H0. reflexivity.
  - replace (1 - 1) with 0 by ring. rewrite sqrt_0, sqrt_1.
    rewrite (Rltb_false 0 0) by lra. rewrite Rltb_true by lra.
    symmetry. apply asin_1.
Qed.

Lemma asin_sqrt_range (x : R) : 0 <= x <= 1 -> 0 <= asin (sqrt x) <= PI / 2.
Proof.
  intros [H0 H1].
  assert (Hs : 0 <= sqrt x) by apply sqrt_pos.
  assert (Hs1 : sqrt x <= 1).
  { rewrite <- sqrt_1. apply sqrt_le_1; lra. }
  pose proof (asin_bound (sqrt x)) as [Hlo Hhi]. split; [| exact Hhi].
  destruct (Rle_or_lt 0 (asin (sqrt x))) as [Hge | Hneg]; [exact Hge | exfalso].
  pose proof PI2_RGT_0 as Hpi.
  assert (Hsin : sin (asin (sqrt x)) < 0) by (apply sin_lt_0_var; lra).
  rewrite sin_asin in Hsin by lra. lra.
Qed.

(** *** The distance for any arithmetic *)

Lemma term_NaN (ar : arith) (aLat aLon bLat bLon : rnum) :
  aLat = None \/ aLon = None \/ bLat = None \/ bLon = None ->
  term ar aLat aLon bLat bLon = None.
Proof.
  intros [-> | [-> | [-> | ->]]];
    try destruct aLat; try destruct aLon; try destruct bLat; try destruct bLon;
    reflexivity.
Qed.

Lemma distanceMeters_NaN (ar : arith) (aLat aLon bLat bLon : rnum) :
  aLat = None \/ aLon = None \/ bLat = None \/ bLon = None ->
  distanceMeters ar aLat aLon bLat bLon = None.
Proof. intros H. unfold distanceMeters. now rewrite (term_NaN ar _ _ _ _ H). Qed.

(** The distance is a number exactly when the computed term is a number of
    [0, 1], and then it is the arc of that term. *)
Lemma distance_of_term (ar : arith) (aLat aLon bLat bLon : rnum) (x : R) :
  term ar aLat aLon bLat bLon = Some x -> 0 <= x <= 1 ->
  distanceMeters ar aLat aLon bLat bLon = Some (2 * 6371000 * asin (sqrt x)).
Proof.
  intros Hx Hr. unfold distanceMeters. rewrite Hx. cbn [rsqrt rlift2 rmap].
  rewrite (Rltb_false x 0), (Rltb_false (1 - x) 0) by lra.
  cbn [rlift2 rmap]. now rewrite atan2_sqrt.
Qed.

Lemma distance_None (ar : arith) (aLat aLon bLat bLon : rnum) :
  distanceMeters ar aLat aLon bLat bLon = None <->
  term ar aLat aLon bLat bLon = None \/
  exists x, term ar aLat aLon bLat bLon = Some x /\ (x < 0 \/ 1 < x).
Proof.
  destruct (term ar aLat aLon bLat bLon) as [x |] eqn:Hx.
  - destruct (Rlt_dec x 0) as [Hneg | Hpos].
    + split; [intros _; right; exists x; tauto |]. intros _.
      unfold distanceMeters. rewrite Hx. cbn [rsqrt]. now rewrite Rltb_true.
    + destruct (Rlt_dec 1 x) as [Hbig | Hsmall].
      * split; [intros _; right; exists x; tauto |]. intros _.
        unfold distanceMeters. rewrite Hx. cbn [rsqrt rlift2].
        rewrite (Rltb_false x 0) by exact Hpos. rewrite (Rltb_true (1 - x) 0) by lra.
        reflexivity.
      * rewrite (distance_of_term ar _ _ _ _ x Hx) by lra.
        split; [discriminate |]. intros [H | (y & [= <-] & H)]; [discriminate | lra].
  - split; [now left |]. intros _. unfold distanceMeters. now rewrite Hx.
Qed.

Lemma distance_Some (ar : arith) (aLat aLon bLat bLon : rnum) (d : R) :
  distanceMeters ar aLat aLon bLat bLon = Some d ->
  exists x, term ar aLat aLon bLat bLon = Some x /\ 0 <= x <= 1 /\
            d = 2 * 6371000 * asin (sqrt x) /\ 0 <= d <= PI * 6371000.
Proof.
  intros Hd. destruct (term ar aLat aLon bLat bLon) as [x |] eqn:Hx.
  - destruct (Rlt_dec x 0) as [Hneg | Hpos].
    + assert (Hn : distanceMeters ar aLat aLon bLat bLon = None)
        by (apply distance_None; right; exists x; tauto).
      congruence.
    + destruct (Rlt_dec 1 x) as [Hbig | Hsmall].
      * assert (Hn : distanceMeters ar aLat aLon bLat bLon = None)
          by (apply distance_None; right; exists x; tauto).
        congruence.
      * assert (Hr : 0 <= x <= 1) by lra.
        rewrite (distance_of_term ar _ _ _ _ x Hx Hr) in Hd. injection Hd as <-.
        exists x. repeat split; try lra.
        -- pose proof (asin_sqrt_range x Hr). lra.
        -- pose proof (asin_sqrt_range x Hr). lra.
  - assert (Hn : distanceMeters ar aLat aLon bLat bLon = None)
      by (apply distance_None; now left).
    congruence.
Qed.

(** *** Exact arithmetic *)

Lemma exact_term (aLat aLon bLat bLon : R) :
  term exact (Some aLat) (Some aLon) (Some bLat) (Some bLon) =
  Some (haversine aLat aLon bLat bLon).
Proof.
  unfold term, exact, exactTerm, haversine, toRad, sq, rmap, rlift2.
  replace ((bLat - aLat) * PI / 180 / 2) with ((rad bLat - rad aLat) / 2)
    by (unfold rad; field).
  replace ((bLon - aLon) * PI / 180 / 2) with ((rad bLon - rad aLon) / 2)
    by (unfold rad; field).
  reflexivity.
Qed.

Lemma distanceMeters_numbers (aLat aLon bLat bLon : R) :
  distanceMeters exact (Some aLat) (Some aLon) (Some bLat) (Some bLon) =
  Some (greatCircle aLat aLon bLat bLon).
Proof.
  apply (distance_of_term exact _ _ _ _ _ (exact_term aLat aLon bLat bLon)).
  apply haversine_range.
Qed.

Lemma greatCircle_nonneg (aLat aLon bLat bLon : R) : 0 <= greatCircle aLat aLon bLat bLon.
Proof.
  unfold greatCircle.
  pose proof (asin_sqrt_range _ (haversine_range aLat aLon bLat bLon)). lra.
Qed.

(** *** The distance of a stop *)

Lemma distOf_exact (loc : Loc) (s : Stop) (la lo : R) :
  Number (lat s) = Some la -> Number (lon s) = Some lo ->
  distOf exact loc s = Some (greatCircle (loc_lat loc) (loc_lon loc) la lo).
Proof. intros Hla Hlo. unfold distOf. rewrite Hla, Hlo. apply distanceMeters_numbers. Qed.

Lemma distOf_invalid (ar : arith) (loc : Loc) (s : Stop) :
  Number (lat s) = None \/ Number (lon s) = None -> distOf ar loc s = None.
Proof. intros H. unfold distOf. apply distanceMeters_NaN. tauto. Qed.

Lemma distOf_some_valid (ar : arith) (loc : Loc) (s : Stop) (d : R) :
  distOf ar loc s = Some d -> validStop s.
Proof.
  intros Hd. split; intros Hn; rewrite distOf_invalid in Hd by auto; discriminate.
Qed.

Lemma withDist_perm (ar : arith) (STOPS : list Stop) (loc : Loc) :
  Permutation (withDist ar STOPS loc) (List.map (fun s => (s, distOf ar loc s)) STOPS).
Proof. unfold withDist. apply sort_perm. Qed.

Lemma withDist_In (ar : arith) (STOPS : list Stop) (loc : Loc) (r : StopDist) :
  In r (withDist ar STOPS loc) <-> exists s, In s STOPS /\ r = (s, distOf ar loc s).
Proof.
  unfold withDist. rewrite sort_In, in_map_iff.
  split; intros (s & H1 & H2); exists s; auto.
Qed.

Lemma byDist_sorts (l : list StopDist) :
  Forall (fun r => exists x, distM r = Some x) l ->
  StronglySorted distLe (sort byDist l).
Proof.
  apply sort_sorted.
  - intros a b [x Hx] [y Hy]. unfold byDist. rewrite Hx, Hy. cbn [rlift2].
    intros H. exists x, y. repeat split; try assumption.
    unfold Rltb in H. destruct (Rlt_dec 0 (x - y)); [discriminate | lra].
  - intros a b [x Hx] [y Hy]. unfold byDist. rewrite Hx, Hy. cbn [rlift2].
    intros H. exists y, x. repeat split; try assumption.
    unfold Rltb in H. destruct (Rlt_dec 0 (x - y)); [lra | discriminate].
  - intros a b c (x & y & Hx & Hy & Hxy) (y' & z & Hy' & Hz & Hyz).
    rewrite Hy in Hy'. injection Hy' as <-.
    exists x, z. repeat split; try assumption. lra.
Qed.

Lemma withinRadius_spec (r : StopDist) :
  withinRadius r = true <-> exists d, distM r = Some d /\ d <= 1200.
Proof.
  unfold withinRadius. destruct (distM r) as [d |].
  - unfold Rleb. destruct (Rle_dec d 1200); split.
    + intros _. now exists d.
    + reflexivity.
    + discriminate.
    + intros (d' & [= <-] & H). contradiction.
  - split; [discriminate | intros (d & [=] & _)].
Qed.

(** Two sorted arrangements of the same elements coincide when no two
    distinct elements are equivalent. *)
Lemma sorted_perm_unique {A : Type} (le : A -> A -> Prop) (l1 l2 : list A) :
  StronglySorted le l1 -> StronglySorted le l2 -> Permutation l1 l2 ->
  (forall a b, In a l1 -> In b l1 -> le a b -> le b a -> a = b) ->
  l1 = l2.
Proof.
  intros H1. revert l2. induction H1 as [| x l1 Hs1 IH Hall1]; intros l2 H2 Hp Hanti.
  - apply Permutation_nil in Hp. now subst.
  - destruct l2 as [| y l2]; [apply Permutation_sym, Permutation_nil in Hp; discriminate |].
    inversion H2 as [| ? ? Hs2 Hall2]; subst.
    rewrite List.Forall_forall in Hall1, Hall2.
    assert (Hxy : x = y).
    { assert (Hx : In x (y :: l2)) by (eapply Permutation_in; [exact Hp | now left]).
      assert (Hy : In y (x :: l1))
        by (eapply Permutation_in; [symmetry; exact Hp | now left]).
      destruct Hx as [-> | Hx]; [reflexivity |].
      destruct Hy as [-> | Hy]; [reflexivity |].
      apply Hanti; [now left | now right | now apply Hall1 | now apply Hall2]. }
    subst y. f_equal. apply IH; [exact Hs2 | now apply Permutation_cons_inv in Hp |].
    intros a b Ha Hb. apply Hanti; now right.
Qed.

(** Along the equator the distance is the radius times the angle. *)
Lemma greatCircle_equator (lon : R) :
  0 <= rad lon <= PI -> greatCircle 0 0 0 lon = 6371000 * rad lon.
Proof.
  intros [H0 H1]. unfold greatCircle, haversine.
  replace (rad 0) with 0 by (unfold rad; field).
  replace ((0 - 0) / 2) with 0 by field.
  replace ((rad lon - 0) / 2) with (rad lon / 2) by field.
  rewrite sin_0, cos_0.
  replace (0 * 0 + 1 * 1 * (sin (rad lon / 2) * sin (rad lon / 2)))
    with (sin (rad lon / 2) * sin (rad lon / 2)) by ring.
  assert (Hsin : 0 <= sin (rad lon / 2)) by (apply sin_ge_0; lra).
  rewrite sqrt_square by exact Hsin.
  rewrite asin_sin by lra. field.
Qed.

Lemma rad_of_meters (d : R) : rad (d * 180 / (PI * 6371000)) = d / 6371000.
Proof. unfold rad. field. pose proof PI_RGT_0. lra. Qed.

Lemma distOf_equator (i n : string) (d : R) :
  0 <= d <= 6371000 ->
  distOf exact (mkLoc 0 0) (mkStop i n (JNumber 0) (JNumber (d * 180 / (PI * 6371000)))) =
  Some d.
Proof.
  intros Hd. unfold distOf. cbn [loc_lat loc_lon lat lon Number].
  rewrite distanceMeters_numbers, greatCircle_equator.
  - rewrite rad_of_meters. f_equal. field.
  - rewrite rad_of_meters. pose proof PI2_1. split; [| apply Rle_trans with 1]; lra.
Qed.

End Geo.

Lemma StronglySorted_filter {A : Type} (le : A -> A -> Prop) (p : A -> bool) (l : list A) :
  StronglySorted le l -> StronglySorted le (List.filter p l).
Proof.
  induction 1 as [| x l Hs IH Hall]; cbn [List.filter]; [constructor |].
  destruct (p x); [| exact IH].
  constructor; [exact IH |].
  rewrite List.Forall_forall in *. intros y Hy%filter_In. apply Hall. tauto.
Qed.

(** C6, as the code has it (nearest-stops query).  For every arithmetic,
    query point and stop list: the distance of a stop, when it is a number,
    is the arc [2 * 6371000 * asin (sqrt x)] of the haversine term [x] that
    the engine computed, and in exact arithmetic every stop whose
    coordinates convert to numbers gets its haversine great-circle distance
    on a sphere of radius 6371000 m; the distance-sorted list holds every
    stop with its distance and is ascending when every distance is a number
    (not in general, see the counterexample); the filtered list holds exactly
    its entries within 1200 m; the result is the first 12 of the filtered
    list, or of the full sorted list exactly when the filtered list is empty;
    and stops at 100, 500, 1300 and 2000 m, in any order, give the 100 m stop
    followed by the 500 m stop. *)
Theorem nearest_stops_query (ar : App.arith) (STOPS : list App.Stop) (loc : App.Loc) :
  let sorted := App.withDist ar STOPS loc in
  let within := List.filter App.withinRadius sorted in
  (forall s d,
      distOf ar loc s = Some d ->
      exists x, termOf ar loc s = Some x /\ (0 <= x <= 1)%R /\
                d = (2 * 6371000 * asin (sqrt x))%R) /\
  (forall s la lo,
      App.Number (App.lat s) = Some la -> App.Number (App.lon s) = Some lo ->
      termOf App.exact loc s =
        Some (haversine (App.loc_lat loc) (App.loc_lon loc) la lo) /\
      distOf App.exact loc s =
        Some (greatCircle (App.loc_lat loc) (App.loc_lon loc) la lo)) /\
  Permutation sorted (List.map (fun s => (s, distOf ar loc s)) STOPS) /\
  ((forall s, In s STOPS -> distOf ar loc s <> None) ->
   StronglySorted distLe sorted /\
   StronglySorted distLe (App.nearbyStops ar STOPS (Some loc))) /\
  (forall r, In r within <->
             In r sorted /\ exists d, App.distM r = Some d /\ (d <= 1200)%R) /\
  App.nearbyStops ar STOPS (Some loc) =
    firstn 12 (match within with _ :: _ => within | [] => sorted end) /\
  (List.length (App.nearbyStops ar STOPS (Some loc)) <= 12)%nat /\
  (forall s1 s2 s3 s4,
      Permutation STOPS [s1; s2; s3; s4] ->
      distOf ar loc s1 = Some 100%R -> distOf ar loc s2 = Some 500%R ->
      distOf ar loc s3 = Some 1300%R -> distOf ar loc s4 = Some 2000%R ->
      App.nearbyStops ar STOPS (Some loc) = [(s1, Some 100%R); (s2, Some 500%R)]).
Proof.
  intros sorted within.
  assert (Hsorted : (forall s, In s STOPS -> distOf ar loc s <> None) ->
                    StronglySorted distLe sorted).
  { intros Hnum. apply byDist_sorts.
    rewrite List.Forall_forall. intros r (s & <- & Hs)%in_map_iff.
    fold (distOf ar loc s). cbn [App.distM snd].
    specialize (Hnum s Hs). destruct (distOf ar loc s) as [d |]; [| contradiction].
    now exists d. }
  split; [| split; [| split; [| split; [| split; [| split; [| split]]]]]].
  - intros s d Hd. destruct (distance_Some ar _ _ _ _ d Hd) as (x & Hx & Hr & Hdx & _).
    exists x. split; [exact Hx | split; [exact Hr | exact Hdx]].
  - intros s la lo Hla Hlo. split.
    + unfold termOf. rewrite Hla, Hlo. apply exact_term.
    + now apply distOf_exact.
  - apply withDist_perm.
  - intros Hnum. split; [now apply Hsorted |].
    unfold App.nearbyStops, Js.slice0. fold sorted. fold within.
    apply StronglySorted_firstn.
    destruct within eqn:E; [now apply Hsorted |].
    rewrite <- E. unfold within. apply StronglySorted_filter. now apply Hsorted.
  - intros r. unfold within. rewrite filter_In, withinRadius_spec. reflexivity.
  - reflexivity.
  - unfold App.nearbyStops, Js.slice0. apply List.firstn_le_length.
  - intros s1 s2 s3 s4 Hp H1 H2 H3 H4.
    set (T := [(s1, Some 100%R); (s2, Some 500%R); (s3, Some 1300%R); (s4, Some 2000%R)]
              : list App.StopDist).
    assert (HpT : Permutation (List.map (fun s => (s, distOf ar loc s)) STOPS) T).
    { rewrite Hp. cbn [List.map]. rewrite H1, H2, H3, H4. reflexivity. }
    assert (HT : StronglySorted distLe T).
    { unfold T.
      repeat (first [apply SSorted_nil | apply SSorted_cons
                     | apply List.Forall_nil | apply List.Forall_cons]);
        eexists _, _; (split; [reflexivity | split; [reflexivity | lra]]). }
    assert (Hsome : Forall (fun r : App.StopDist => exists x, App.distM r = Some x) T).
    { unfold T. repeat constructor; eexists; reflexivity. }
    assert (Heq : sorted = T).
    { apply (sorted_perm_unique distLe).
      - unfold sorted, App.withDist. apply byDist_sorts.
        eapply Forall_perm; [symmetry; exact HpT | exact Hsome].
      - exact HT.
      - rewrite <- HpT. apply withDist_perm.
      - intros a b Ha Hb (x & y & Hx & Hy & Hxy) (y' & x' & Hy' & Hx' & Hyx).
        rewrite Hy in Hy'. injection Hy' as <-. rewrite Hx in Hx'. injection Hx' as <-.
        assert (HaT : In a T)
          by (eapply Permutation_in; [| exact Ha];
              rewrite <- HpT; apply withDist_perm).
        assert (HbT : In b T)
          by (eapply Permutation_in; [| exact Hb];
              rewrite <- HpT; apply withDist_perm).
        unfold T in HaT, HbT. cbn [In] in HaT, HbT.
        repeat (destruct HaT as [<- | HaT]); try contradiction;
          repeat (destruct HbT as [<- | HbT]); try contradiction;
          try reflexivity; exfalso;
          cbn in Hx, Hy; injection Hx as <-; injection Hy as <-; lra. }
    unfold App.nearbyStops, Js.slice0. fold sorted. rewrite Heq. unfold T.
    cbn [List.filter]. unfold App.withinRadius, App.distM. cbn [snd].
    rewrite (Rleb_true 100 1200), (Rleb_true 500 1200) by lra.
    rewrite (Rleb_false 1300 1200), (Rleb_false 2000 1200) by lra.
    reflexivity.
Qed.

(** C6 on four stops of the equator, 2000, 100, 1300 and 500 m east of the
    query point, in exact arithmetic. *)
Lemma nearest_stops_query_witness :
  let at_ (i : string) (d : R) :=
    App.mkStop i i (App.JNumber 0) (App.JNumber (d * 180 / (PI * 6371000))) in
  App.nearbyStops App.exact
    [at_ "d" 2000%R; at_ "a" 100%R; at_ "c" 1300%R; at_ "b" 500%R]
    (Some (App.mkLoc 0 0)) =
  [(at_ "a" 100%R, Some 100%R); (at_ "b" 500%R, Some 500%R)].
Proof.
  intros at_.
  pose proof (nearest_stops_query App.exact
                [at_ "d" 2000%R; at_ "a" 100%R; at_ "c" 1300%R; at_ "b" 500%R]
                (App.mkLoc 0 0)) as H.
  cbv zeta in H. destruct H as (_ & _ & _ & _ & _ & _ & _ & H).
  apply (H (at_ "a" 100%R) (at_ "b" 500%R) (at_ "c" 1300%R) (at_ "d" 2000%R)).
  - apply Permutation_sym.
    apply (perm_trans (l' := [at_ "a" 100%R; at_ "d" 2000%R; at_ "c" 1300%R; at_ "b" 500%R])).
    + apply perm_skip.
      apply (perm_trans (l' := [at_ "b" 500%R; at_ "d" 2000%R; at_ "c" 1300%R])).
      * apply perm_skip. apply perm_swap.
      * apply (perm_trans (l' := [at_ "d" 2000%R; at_ "b" 500%R; at_ "c" 1300%R])).
        -- apply perm_swap.
        -- apply perm_skip. apply perm_swap.
    + apply perm_swap.
  - apply distOf_equator. lra.
  - apply distOf_equator. lra.
  - apply distOf_equator. lra.
  - apply distOf_equator. lra.
Defined.

(** C6 fails for a stop list that holds a stop without a distance: the
    comparison with [NaN] never moves a stop, so a stop at 1000 m listed
    before a stop without latitude stays ahead of a stop at 100 m listed
    after it, and the result is not ascending. *)
Lemma farther_stop_listed_first :
  let at_ (i : string) (d : R) :=
    App.mkStop i i (App.JNumber 0) (App.JNumber (d * 180 / (PI * 6371000))) in
  let bad := App.mkStop "bad" "No latitude" App.JUndefined (App.JNumber 0) in
  App.nearbyStops App.exact [at_ "far" 1000%R; bad; at_ "near" 100%R]
    (Some (App.mkLoc 0 0)) =
  [(at_ "far" 1000%R, Some 1000%R); (at_ "near" 100%R, Some 100%R)].
Proof.
  intros at_ bad.
  assert (Hfar : distOf App.exact (App.mkLoc 0 0) (at_ "far" 1000%R) = Some 1000%R)
    by (apply distOf_equator; lra).
  assert (Hnear : distOf App.exact (App.mkLoc 0 0) (at_ "near" 100%R) = Some 100%R)
    by (apply distOf_equator; lra).
  assert (Hbad : distOf App.exact (App.mkLoc 0 0) bad = None)
    by (apply distOf_invalid; now left).
  unfold App.nearbyStops, App.withDist. cbn [List.map].
  fold (distOf App.exact (App.mkLoc 0 0) (at_ "far" 1000%R)).
  fold (distOf App.exact (App.mkLoc 0 0) (at_ "near" 100%R)).
  fold (distOf App.exact (App.mkLoc 0 0) bad).
  rewrite Hfar, Hnear, Hbad.
  cbn [Js.sort Js.insert App.byDist App.distM snd App.rlift2 List.filter].
  unfold App.withinRadius, App.distM. cbn [snd].
  rewrite (Rleb_true 1000 1200), (Rleb_true 100 1200) by lra.
  reflexivity.
Qed.

(** C5, as the code has it (invalid coordinates in the nearest-stops query).
    For every arithmetic: a stop whose latitude or longitude [Number]
    converts to [NaN] (an undefined or non-numeric value) gets the distance
    [NaN], not an infinite one; a coordinate [null] is converted to 0, so
    that the stop is measured as lying at that coordinate 0; a distance that
    is a number is not negative and belongs to a stop whose coordinates
    convert to numbers.  [NaN] is never within the radius, so whenever some
    stop lies within 1200 m every returned stop has a distance of at most
    1200 m and coordinates that convert to numbers. *)
Theorem invalid_coordinates_in_query (ar : App.arith) (STOPS : list App.Stop)
    (loc : App.Loc) :
  (forall s, App.Number (App.lat s) = None \/ App.Number (App.lon s) = None ->
             distOf ar loc s = None) /\
  (forall i n la lo,
      distOf ar loc (App.mkStop i n App.JNull lo) =
        distOf ar loc (App.mkStop i n (App.JNumber 0) lo) /\
      distOf ar loc (App.mkStop i n la App.JNull) =
        distOf ar loc (App.mkStop i n la (App.JNumber 0))) /\
  (forall s d, distOf ar loc s = Some d -> validStop s /\ (0 <= d)%R) /\
  ((exists s d, In s STOPS /\ distOf ar loc s = Some d /\ (d <= 1200)%R) ->
   forall r, In r (App.nearbyStops ar STOPS (Some loc)) ->
             validStop (fst r) /\ exists d, App.distM r = Some d /\ (d <= 1200)%R).
Proof.
  split; [| split; [| split]].
  - intros s. apply distOf_invalid.
  - intros i n la lo. split; reflexivity.
  - intros s d Hd. split; [exact (distOf_some_valid ar loc s d Hd) |].
    destruct (distance_Some ar _ _ _ _ d Hd) as (_ & _ & _ & _ & H0 & _). exact H0.
  - intros (s & d & Hs & Hd & Hle) r Hr.
    unfold App.nearbyStops, Js.slice0 in Hr. apply In_firstn_In in Hr.
    assert (Hin : In (s, distOf ar loc s)
                    (List.filter App.withinRadius (App.withDist ar STOPS loc))).
    { apply filter_In. split.
      - apply withDist_In. now exists s.
      - apply withinRadius_spec. exists d. split; [exact Hd | exact Hle]. }
    destruct (List.filter App.withinRadius (App.withDist ar STOPS loc))
      as [| r0 within] eqn:E; [destruct Hin |].
    rewrite <- E in Hr. apply filter_In in Hr. destruct Hr as [Hr Hw].
    apply withinRadius_spec in Hw. split; [| exact Hw].
    apply withDist_In in Hr. destruct Hr as (s' & _ & ->).
    destruct Hw as (d' & Hd' & _). cbn [fst]. exact (distOf_some_valid ar loc s' d' Hd').
Qed.

(** C5 fails when no stop is within the radius: a stop without latitude has
    the distance [NaN], not an infinite one, keeps its place in the sort
    ahead of a stop with numeric coordinates, and twelve such stops displace
    that stop from the result. *)
Lemma invalid_stop_listed_first :
  let bad := App.mkStop "bad" "No latitude" App.JUndefined (App.JNumber 0) in
  let good := App.mkStop "good" "Antipode" (App.JNumber 0) (App.JNumber 180) in
  App.nearbyStops App.exact [bad; good] (Some (App.mkLoc 0 0)) =
    [(bad, None); (good, Some (6371000 * PI)%R)] /\
  App.nearbyStops App.exact (repeat bad 12 ++ [good]) (Some (App.mkLoc 0 0)) =
    repeat (bad, None) 12.
Proof.
  intros bad good.
  assert (Hgood : distOf App.exact (App.mkLoc 0 0) good = Some (6371000 * PI)%R).
  { unfold distOf, good. cbn [App.loc_lat App.loc_lon App.lat App.lon App.Number].
    rewrite distanceMeters_numbers, greatCircle_equator.
    - f_equal. unfold rad. field.
    - unfold rad. pose proof PI_RGT_0. lra. }
  assert (Hfar : App.Rleb (6371000 * PI) 1200 = false).
  { apply Rleb_false. pose proof PI2_1. lra. }
  unfold App.nearbyStops, App.withDist.
  cbn [List.map repeat List.app].
  fold (distOf App.exact (App.mkLoc 0 0) good). rewrite Hgood.
  change (App.distanceMeters App.exact (Some (App.loc_lat (App.mkLoc 0 0)))
            (Some (App.loc_lon (App.mkLoc 0 0)))
            (App.Number (App.lat bad)) (App.Number (App.lon bad)))
    with (@None R).
  cbn [Js.sort Js.insert App.byDist App.distM snd App.rlift2 List.filter].
  unfold App.withinRadius, App.distM. cbn [snd]. rewrite Hfar. split; reflexivity.
Qed.

(** ** The shape selector *)

Section ShapeSelector.
Import Js RouteShapes.

(** *** Keys *)

Lemma noPipe_cons (c : ascii) (s : string) :
  noPipe (String c s) = true <-> Ascii.eqb c pipe = false /\ noPipe s = true.
Proof.
  cbn [noPipe]. rewrite andb_true_iff, negb_true_iff. reflexivity.
Qed.

Lemma split_nonempty (sep : ascii) (s : string) : split sep s <> [].
Proof.
  destruct s as [| c s]; cbn [split]; [discriminate |].
  destruct (Ascii.eqb c sep); [discriminate |].
  destruct (split sep s); discriminate.
Qed.

Lemma split_plain (s : string) : noPipe s = true -> split pipe s = [s].
Proof.
  induction s as [| c s IH]; [reflexivity |].
  intros [Hc Hs]%noPipe_cons. cbn [split]. rewrite Hc, (IH Hs). reflexivity.
Qed.

Lemma split_plain_app (a rest : string) :
  noPipe a = true -> split pipe (a ++ String pipe rest) = a :: split pipe rest.
Proof.
  induction a as [| c a IH].
  - intros _. rewrite append_nil. cbn [split]. now rewrite Ascii.eqb_refl.
  - intros [Hc Ha]%noPipe_cons. rewrite append_cons. cbn [split].
    rewrite Hc, (IH Ha). reflexivity.
Qed.

Lemma split_parts_plain (s : string) : Forall (fun p => noPipe p = true) (split pipe s).
Proof.
  induction s as [| c s IH]; cbn [split]; [repeat constructor |].
  destruct (Ascii.eqb c pipe) eqn:E; [constructor; [reflexivity | exact IH] |].
  destruct (split pipe s) as [| h t]; [repeat constructor; cbn; now rewrite E |].
  inversion IH; subst. constructor; [| assumption].
  apply noPipe_cons. now split.
Qed.

Lemma joinKey2 (a b : string) : joinKey [a; b] = a ++ String pipe b.
Proof. reflexivity. Qed.

Lemma joinKey3 (a b c : string) : joinKey [a; b; c] = a ++ String pipe (b ++ String pipe c).
Proof. reflexivity. Qed.

Lemma split_joinKey2 (a b : string) :
  noPipe a = true -> noPipe b = true -> split pipe (joinKey [a; b]) = [a; b].
Proof.
  intros Ha Hb. now rewrite joinKey2, split_plain_app, split_plain.
Qed.

Lemma split_joinKey3 (a b c : string) :
  noPipe a = true -> noPipe b = true -> noPipe c = true ->
  split pipe (joinKey [a; b; c]) = [a; b; c].
Proof.
  intros Ha Hb Hc. now rewrite joinKey3, !split_plain_app, split_plain.
Qed.

Lemma nth_plain (n : nat) (s : string) : noPipe (nth n (split pipe s) "undefined") = true.
Proof.
  destruct (nth_in_or_default n (split pipe s) "undefined") as [Hin | ->];
    [| reflexivity].
  pose proof (split_parts_plain s) as H. rewrite List.Forall_forall in H. now apply H.
Qed.

(** *** Insertion-ordered maps *)

Lemma omapGet_set_eq {V : Type} (m : omap V) (k : string) (v : V) :
  omapGet (omapSet m k v) k = Some v.
Proof.
  induction m as [| [k' v'] m IH]; cbn [omapSet omapGet].
  - now rewrite String.eqb_refl.
  - destruct (String.eqb k' k) eqn:E; cbn [omapGet].
    + now rewrite String.eqb_refl.
    + now rewrite E.
Qed.

Lemma omapGet_set_ne {V : Type} (m : omap V) (k k' : string) (v : V) :
  k <> k' -> omapGet (omapSet m k v) k' = omapGet m k'.
Proof.
  intros Hne. induction m as [| [k0 v0] m IH]; cbn [omapSet omapGet].
  - apply String.eqb_neq in Hne. now rewrite Hne.
  - destruct (String.eqb k0 k) eqn:E; cbn [omapGet].
    + apply String.eqb_eq in E. subst k0.
      apply String.eqb_neq in Hne. now rewrite Hne.
    + destruct (String.eqb k0 k'); [reflexivity | exact IH].
Qed.

Lemma omapSet_keys {V : Type} (m : omap V) (k : string) (v : V) :
  List.map fst (omapSet m k v) =
  match omapGet m k with
  | Some _ => List.map fst m
  | None => (List.map fst m ++ [k])%list
  end.
Proof.
  induction m as [| [k' v'] m IH]; cbn [omapSet omapGet List.map fst List.app];
    [reflexivity |].
  destruct (String.eqb k' k) eqn:E; cbn [List.map fst].
  - apply String.eqb_eq in E. now subst.
  - rewrite IH. destruct (omapGet m k); reflexivity.
Qed.

Lemma omapGet_None {V : Type} (m : omap V) (k : string) :
  omapGet m k = None <-> ~ In k (List.map fst m).
Proof.
  induction m as [| [k' v'] m IH]; cbn [omapGet List.map fst In]; [tauto |].
  destruct (String.eqb_spec k' k) as [-> | Hne].
  - split; [discriminate | tauto].
  - rewrite IH. tauto.
Qed.

Lemma omapGet_In {V : Type} (m : omap V) (k : string) (v : V) :
  omapGet m k = Some v -> In (k, v) m.
Proof.
  induction m as [| [k' v'] m IH]; cbn [omapGet In]; [discriminate |].
  destruct (String.eqb_spec k' k) as [-> | Hne].
  - intros [= ->]. now left.
  - intros H. right. now apply IH.
Qed.

Lemma omapSet_NoDup {V : Type} (m : omap V) (k : string) (v : V) :
  List.NoDup (List.map fst m) -> List.NoDup (List.map fst (omapSet m k v)).
Proof.
  intros Hnd. rewrite omapSet_keys. destruct (omapGet m k) eqn:E; [exact Hnd |].
  apply omapGet_None in E.
  apply (Permutation.Permutation_NoDup (l := k :: List.map fst m));
    [apply Permutation_cons_append | now constructor].
Qed.

Lemma omapGet_of_In {V : Type} (m : omap V) (k : string) (v : V) :
  List.NoDup (List.map fst m) -> In (k, v) m -> omapGet m k = Some v.
Proof.
  induction m as [| [k' v'] m IH]; cbn [omapGet In List.map fst]; [tauto |].
  intros Hnd [[= -> ->] | Hin].
  - now rewrite String.eqb_refl.
  - apply List.NoDup_cons_iff in Hnd. destruct Hnd as [Hk Hnd].
    destruct (String.eqb_spec k' k) as [-> | Hne]; [| now apply IH].
    exfalso. apply Hk. apply in_map_iff. now exists (k, v).
Qed.

(** *** Counting trips *)

Lemma addTrip_eq (cs : omap Z) (t : Trips.row) :
  addTrip cs t =
  if validTrip t
  then omapSet cs (keyOfTrip t) (default 0 (omapGet cs (keyOfTrip t)) + 1)
  else cs.
Proof.
  unfold addTrip, validTrip.
  destruct (truthy (Trips.route_id t)), (truthy (Trips.shape_id t)); reflexivity.
Qed.

Lemma tripsAtKey_snoc (k : string) (trips : list Trips.row) (t : Trips.row) :
  tripsAtKey k (trips ++ [t]) =
  tripsAtKey k trips + (if validTrip t && String.eqb (keyOfTrip t) k then 1 else 0).
Proof.
  unfold tripsAtKey. rewrite List.filter_app, List.length_app. cbn [List.filter].
  destruct (validTrip t && String.eqb (keyOfTrip t) k); cbn [List.length]; lia.
Qed.

Lemma tripsAtKey_nonneg (k : string) (trips : list Trips.row) : 0 <= tripsAtKey k trips.
Proof. unfold tripsAtKey. lia. Qed.

Lemma counts_get (trips : list Trips.row) (k : string) :
  omapGet (counts trips) k =
  if (tripsAtKey k trips =? 0)%Z then None else Some (tripsAtKey k trips).
Proof.
  unfold counts. induction trips as [| t trips IH] using rev_ind; [reflexivity |].
  rewrite fold_left_app. cbn [fold_left]. rewrite addTrip_eq, tripsAtKey_snoc.
  pose proof (tripsAtKey_nonneg k trips) as Hn.
  destruct (validTrip t); cbn [andb]; [| now rewrite Z.add_0_r].
  destruct (String.eqb_spec (keyOfTrip t) k) as [-> | Hne].
  - rewrite omapGet_set_eq, IH.
    destruct (Z.eqb_spec (tripsAtKey k trips) 0) as [-> | Hnz]; cbn [default].
    + reflexivity.
    + destruct (Z.eqb_spec (tripsAtKey k trips + 1) 0); [lia | reflexivity].
  - rewrite omapGet_set_ne by exact Hne. now rewrite Z.add_0_r.
Qed.

Lemma counts_NoDup (trips : list Trips.row) : List.NoDup (List.map fst (counts trips)).
Proof.
  unfold counts. induction trips as [| t trips IH] using rev_ind; [constructor |].
  rewrite fold_left_app. cbn [fold_left]. rewrite addTrip_eq.
  destruct (validTrip t); [now apply omapSet_NoDup | exact IH].
Qed.

Lemma tripsAtKey_pos (k : string) (trips : list Trips.row) :
  tripsAtKey k trips <> 0 ->
  exists t, In t trips /\ validTrip t = true /\ keyOfTrip t = k.
Proof.
  unfold tripsAtKey. intros Hnz.
  destruct (List.filter (fun t => validTrip t && String.eqb (keyOfTrip t) k) trips)
    as [| t l] eqn:E; [now cbn in Hnz |].
  assert (Hin : In t (List.filter (fun t => validTrip t && String.eqb (keyOfTrip t) k) trips))
    by (rewrite E; now left).
  apply filter_In in Hin. destruct Hin as [Hin Ht].
  apply andb_true_iff in Ht. destruct Ht as [Hv Hk]. apply String.eqb_eq in Hk.
  now exists t.
Qed.

Lemma counts_In (trips : list Trips.row) (k : string) (n : Z) :
  In (k, n) (counts trips) ->
  n = tripsAtKey k trips /\ 1 <= n /\
  exists t, In t trips /\ validTrip t = true /\ keyOfTrip t = k.
Proof.
  intros Hin. apply omapGet_of_In in Hin; [| apply counts_NoDup].
  rewrite counts_get in Hin. pose proof (tripsAtKey_nonneg k trips) as Hn.
  destruct (Z.eqb_spec (tripsAtKey k trips) 0) as [| Hnz]; [discriminate |].
  injection Hin as <-. repeat split; [lia | now apply tripsAtKey_pos].
Qed.

Lemma counts_of_trip (trips : list Trips.row) (t : Trips.row) :
  In t trips -> validTrip t = true ->
  In (keyOfTrip t, tripsAtKey (keyOfTrip t) trips) (counts trips).
Proof.
  intros Hin Hv. apply omapGet_In. rewrite counts_get.
  destruct (Z.eqb_spec (tripsAtKey (keyOfTrip t) trips) 0) as [Hz | _]; [| reflexivity].
  exfalso. unfold tripsAtKey in Hz.
  assert (Hf : In t (List.filter
                       (fun t' => validTrip t' && String.eqb (keyOfTrip t') (keyOfTrip t)) trips)).
  { apply filter_In. split; [exact Hin |]. now rewrite Hv, String.eqb_refl. }
  destruct (List.filter _ trips); [destruct Hf | cbn in Hz; lia].
Qed.

(** *** Choosing the shape of a group *)

Lemma pickBest_eq (B : omap Best) (k : string) (c : Z) :
  pickBest B (k, c) =
  match omapGet B (rdOf k) with
  | Some existing =>
      if (c >? count existing)%Z
      then omapSet B (rdOf k) {| shape_id := shapeOfKey k; count := c |}
      else B
  | None => omapSet B (rdOf k) {| shape_id := shapeOfKey k; count := c |}
  end.
Proof. reflexivity. Qed.

Lemma bestShape_inv (es : list (string * Z)) : bestInv es (fold_left pickBest es []).
Proof.
  induction es as [| [k0 c0] es IH] using rev_ind.
  - repeat split; [constructor | discriminate | intros k c []].
  - rewrite fold_left_app. cbn [fold_left].
    set (B := fold_left pickBest es []) in *.
    destruct IH as (Hnd & Hget & Hhas). rewrite pickBest_eq.
    set (new := {| shape_id := shapeOfKey k0; count := c0 |}).
    assert (Hnew : forall rd b,
               omapGet (omapSet B (rdOf k0) new) rd = Some b ->
               (forall k' c', In (k', c') es -> rdOf k' = rdOf k0 -> c' <= c0) ->
               exists k, In (k, count b) (es ++ [(k0, c0)]) /\ rdOf k = rd /\
                         shape_id b = shapeOfKey k /\
                         forall k' c', In (k', c') (es ++ [(k0, c0)]) ->
                                       rdOf k' = rd -> c' <= count b).
    { intros rd b Hb Hmax. destruct (string_dec (rdOf k0) rd) as [<- | Hne].
      - rewrite omapGet_set_eq in Hb. injection Hb as <-. exists k0.
        repeat split; [apply in_or_app; right; now left |].
        intros k' c' [Hin | [[= <- <-] | []]]%in_app_or Hrd; cbn [count new];
          [now apply (Hmax k') | lia].
      - rewrite omapGet_set_ne in Hb by exact Hne.
        destruct (Hget rd b Hb) as (k & Hin & Hrd & Hsh & Hmax').
        exists k. repeat split; [apply in_or_app; now left | exact Hrd | exact Hsh |].
        intros k' c' [Hin' | [[= <- <-] | []]]%in_app_or Hrd';
          [now apply (Hmax' k') | contradiction]. }
    assert (Hkeep : forall k c, In (k, c) (es ++ [(k0, c0)]) ->
                                omapGet (omapSet B (rdOf k0) new) (rdOf k) <> None).
    { intros k c Hin. destruct (string_dec (rdOf k0) (rdOf k)) as [<- | Hne].
      - now rewrite omapGet_set_eq.
      - rewrite omapGet_set_ne by exact Hne.
        apply in_app_or in Hin. destruct Hin as [Hin | [[= -> ->] | []]];
          [now apply (Hhas k c) | contradiction]. }
    destruct (omapGet B (rdOf k0)) as [existing |] eqn:Eex.
    + destruct (Z.gtb_spec c0 (count existing)) as [Hgt | Hle].
      * repeat split; [now apply omapSet_NoDup | | exact Hkeep].
        intros rd b Hb. apply (Hnew rd b Hb).
        intros k' c' Hin Hrd.
        destruct (Hget (rdOf k0) existing Eex) as (_ & _ & _ & _ & Hmax).
        specialize (Hmax k' c' Hin Hrd). lia.
      * repeat split; [exact Hnd | |].
        -- intros rd b Hb. destruct (Hget rd b Hb) as (k & Hin & Hrd & Hsh & Hmax).
           exists k. repeat split; [apply in_or_app; now left | exact Hrd | exact Hsh |].
           intros k' c' [Hin' | [[= <- <-] | []]]%in_app_or Hrd';
             [now apply (Hmax k') |].
           rewrite <- Hrd' in Hb. rewrite Eex in Hb. injection Hb as <-. lia.
        -- intros k c [Hin | [[= -> ->] | []]]%in_app_or;
             [now apply (Hhas k c) | now rewrite Eex].
    + repeat split; [now apply omapSet_NoDup | | exact Hkeep].
      intros rd b Hb. apply (Hnew rd b Hb).
      intros k' c' Hin Hrd. exfalso. apply (Hhas k' c' Hin). now rewrite Hrd.
Qed.

(** *** Points of the chosen shapes *)

Lemma addShape_length (chosen : list string) (m : gmap string (list Point))
    (p : Shapes.row) (s : string) :
  s <> "" -> In s chosen ->
  List.length (default [] (addShape chosen m p !! s)) =
  (List.length (default [] (m !! s)) + (if validPoint s p then 1 else 0))%nat.
Proof.
  intros Hs Hin. unfold addShape, validPoint.
  destruct (Shapes.shape_id p) as [sid |] eqn:Esid;
    [change (orEmpty (Some sid)) with sid |]; cbn [truthy negb orb].
  - destruct (String.eqb_spec sid "") as [-> | Hsid]; cbn [negb orb].
    + rewrite bool_decide_eq_false_2 by congruence. cbn [andb]. lia.
    + destruct (existsb (String.eqb sid) chosen) eqn:Ech; cbn [negb].
      * destruct (Shapes.shape_pt_lat p) as [la |], (Shapes.shape_pt_lon p) as [lo |],
          (Shapes.shape_pt_sequence p) as [sq |];
          try (rewrite ?andb_false_r; cbn [andb]; lia).
        all: try (rewrite (bool_decide_eq_false_2 (is_Some None))
                    by (intros [? [=]]); rewrite ?andb_false_r; cbn [andb]; lia).
        rewrite !(bool_decide_eq_true_2 (is_Some (Some _))) by (eexists; reflexivity).
        rewrite !andb_true_r.
        destruct (string_dec sid s) as [-> | Hne].
        -- rewrite lookup_insert_eq, bool_decide_eq_true_2 by reflexivity.
           cbn [from_option Datatypes.id]. rewrite List.length_app. cbn [List.length]. lia.
        -- rewrite lookup_insert_ne by exact Hne.
           rewrite bool_decide_eq_false_2 by congruence. lia.
      * assert (Hne : sid <> s).
        { intros ->. assert (existsb (String.eqb s) chosen = true); [| congruence].
          apply existsb_exists. exists s. split; [exact Hin | apply String.eqb_refl]. }
        rewrite bool_decide_eq_false_2 by congruence. cbn [andb]. lia.
  - rewrite bool_decide_eq_false_2 by discriminate. cbn [andb]. lia.
Qed.

Lemma shapePoints_length (chosen : list string) (shapes : list Shapes.row) (s : string) :
  s <> "" -> In s chosen ->
  List.length (default [] (shapePoints chosen shapes !! s)) =
  List.length (validPoints shapes s).
Proof.
  intros Hs Hin. unfold shapePoints. rewrite lookup_fmap.
  assert (Hfold : List.length (default [] (fold_left (addShape chosen) shapes ∅ !! s)) =
                  List.length (validPoints shapes s)).
  { unfold validPoints. induction shapes as [| p shapes IH] using rev_ind; [reflexivity |].
    rewrite fold_left_app. cbn [fold_left]. rewrite addShape_length by assumption.
    rewrite IH, List.filter_app, List.length_app. cbn [List.filter].
    destruct (validPoint s p); reflexivity. }
  rewrite <- Hfold.
  destruct (fold_left (addShape chosen) shapes ∅ !! s) as [pts |]; cbn [fmap option_fmap option_map default];
    [apply sort_length | reflexivity].
Qed.

(** *** Features *)

Lemma featureFor_emitted (routeIdToShort : gmap string string)
    (spts : gmap string (list Point)) (k : string) (b : Best) (r d : string) :
  List.length (emitted r d (featureFor routeIdToShort spts (rdOf k, b))) =
  if String.eqb (rdOf k) (joinKey [r; d]) && noPipe r && noPipe d
     && (2 <=? List.length (pointsOf spts b))%nat
  then 1%nat else 0%nat.
Proof.
  unfold featureFor, pointsOf.
  set (a := nth 0 (split pipe k) "undefined").
  set (b' := nth 1 (split pipe k) "undefined").
  assert (Ha : noPipe a = true) by apply nth_plain.
  assert (Hb : noPipe b' = true) by apply nth_plain.
  change (rdOf k) with (joinKey [a; b']).
  rewrite (split_joinKey2 a b' Ha Hb). cbn [nth].
  destruct (Nat.ltb_spec (List.length (default [] (spts !! shape_id b))) 2) as [Hlt | Hge].
  - rewrite (proj2 (Nat.leb_gt _ _)) by exact Hlt. now rewrite andb_false_r.
  - rewrite (proj2 (Nat.leb_le _ _)) by exact Hge. rewrite andb_true_r.
    unfold emitted. cbn [List.filter route_id direction_id].
    assert (Htest : String.eqb a r && String.eqb b' d =
                    String.eqb (joinKey [a; b']) (joinKey [r; d]) && noPipe r && noPipe d).
    { destruct (String.eqb_spec a r) as [-> | Har]; cbn [andb].
      - destruct (String.eqb_spec b' d) as [-> | Hbd].
        + now rewrite String.eqb_refl, Ha, Hb.
        + destruct (String.eqb_spec (joinKey [r; b']) (joinKey [r; d])) as [E | _];
            [| reflexivity].
          destruct (noPipe d) eqn:Hd; [| now rewrite andb_false_r].
          exfalso. apply Hbd.
          assert (Hs : split pipe (joinKey [r; b']) = split pipe (joinKey [r; d]))
            by now rewrite E.
          rewrite !split_joinKey2 in Hs by assumption. congruence.
      - destruct (String.eqb_spec (joinKey [a; b']) (joinKey [r; d])) as [E | _];
          [| reflexivity].
        destruct (noPipe r) eqn:Hr; [| reflexivity].
        destruct (noPipe d) eqn:Hd; [| reflexivity].
        exfalso. apply Har.
        assert (Hs : split pipe (joinKey [a; b']) = split pipe (joinKey [r; d]))
          by now rewrite E.
        rewrite !split_joinKey2 in Hs by assumption. congruence. }
    rewrite Htest.
    destruct (String.eqb (joinKey [a; b']) (joinKey [r; d]) && noPipe r && noPipe d);
      reflexivity.
Qed.

Lemma emitted_app (r d : string) (l1 l2 : list Feature) :
  emitted r d (l1 ++ l2) = (emitted r d l1 ++ emitted r d l2)%list.
Proof. apply List.filter_app. Qed.

Lemma emitted_count (routeIdToShort : gmap string string) (spts : gmap string (list Point))
    (B : omap Best) (r d : string) :
  List.NoDup (List.map fst B) ->
  (forall rd b, In (rd, b) B -> exists k, rd = rdOf k) ->
  List.length (emitted r d (flat_map (featureFor routeIdToShort spts) B)) =
  match omapGet B (joinKey [r; d]) with
  | Some b =>
      if noPipe r && noPipe d && (2 <=? List.length (pointsOf spts b))%nat
      then 1%nat else 0%nat
  | None => 0%nat
  end.
Proof.
  induction B as [| [rd b] B IH]; intros Hnd Hwf; [reflexivity |].
  cbn [flat_map omapGet]. rewrite emitted_app, List.length_app.
  cbn [List.map fst] in Hnd. apply List.NoDup_cons_iff in Hnd. destruct Hnd as [Hfresh Hnd].
  destruct (Hwf rd b (or_introl eq_refl)) as [k ->].
  rewrite featureFor_emitted.
  rewrite IH; [| exact Hnd | intros rd' b' Hin; apply (Hwf rd' b'); now right].
  destruct (String.eqb_spec (rdOf k) (joinKey [r; d])) as [E | Hne]; cbn [andb].
  - rewrite <- E. apply omapGet_None in Hfresh. rewrite Hfresh. lia.
  - reflexivity.
Qed.

(** *** Groups *)

Lemma keyOfTrip_parts (t : Trips.row) :
  plainTrip t ->
  rdOf (keyOfTrip t) = joinKey [routeOf t; dirOf t] /\
  shapeOfKey (keyOfTrip t) = shapeOf t.
Proof.
  intros (Hr & Hd & Hs). unfold rdOf, shapeOfKey, keyOfTrip.
  rewrite (split_joinKey3 _ _ _ Hr Hd Hs). split; reflexivity.
Qed.

Lemma joinKey2_inj (a b r d : string) :
  noPipe a = true -> noPipe b = true -> noPipe r = true -> noPipe d = true ->
  joinKey [a; b] = joinKey [r; d] -> a = r /\ b = d.
Proof.
  intros Ha Hb Hr Hd E.
  assert (Hs : split pipe (joinKey [a; b]) = split pipe (joinKey [r; d])) by now rewrite E.
  rewrite !split_joinKey2 in Hs by assumption. now injection Hs.
Qed.

Lemma inGroup_spec (r d : string) (t : Trips.row) :
  inGroup r d t = true <-> validTrip t = true /\ routeOf t = r /\ dirOf t = d.
Proof.
  unfold inGroup. rewrite !andb_true_iff, !String.eqb_eq. tauto.
Qed.

Lemma tripsAtKey_group (trips : list Trips.row) (r d s : string) :
  (forall t, In t trips -> validTrip t = true -> plainTrip t) ->
  noPipe r = true -> noPipe d = true -> noPipe s = true ->
  tripsAtKey (joinKey [r; d; s]) trips = tripsWith r d s trips.
Proof.
  intros Hplain Hr Hd Hs. unfold tripsAtKey, tripsWith. do 2 f_equal.
  apply List.filter_ext_in. intros t Hin. unfold inGroup.
  destruct (validTrip t) eqn:Hv; cbn [andb]; [| reflexivity].
  destruct (Hplain t Hin Hv) as (Hr' & Hd' & Hs').
  destruct (String.eqb_spec (keyOfTrip t) (joinKey [r; d; s])) as [E | Hne].
  - unfold keyOfTrip in E.
    assert (Hsp : split pipe (joinKey [routeOf t; dirOf t; shapeOf t]) =
                  split pipe (joinKey [r; d; s])) by now rewrite E.
    rewrite !split_joinKey3 in Hsp by assumption. injection Hsp as -> -> ->.
    now rewrite !String.eqb_refl.
  - destruct (String.eqb_spec (routeOf t) r) as [Er | _]; [| reflexivity].
    destruct (String.eqb_spec (dirOf t) d) as [Ed | _]; [| reflexivity].
    destruct (String.eqb_spec (shapeOf t) s) as [Es | _]; [| reflexivity].
    exfalso. apply Hne. unfold keyOfTrip. now rewrite Er, Ed, Es.
Qed.

Lemma best_wf (es : list (string * Z)) (rd : string) (b : Best) :
  In (rd, b) (fold_left pickBest es []) -> exists k, rd = rdOf k.
Proof.
  destruct (bestShape_inv es) as (Hnd & Hget & _). intros Hin.
  apply (omapGet_of_In _ _ _ Hnd) in Hin.
  destruct (Hget rd b Hin) as (k & _ & Hrd & _). now exists k.
Qed.

End ShapeSelector.

(** C4, as the code has it (shape selection).  At most one feature is
    emitted for a (route, direction) pair.  For a group with at least one
    trip (the ids of the feed not containing the separator of the keys), the
    selector picks a shape used by a trip of the group whose trip count is
    the highest of the group, and emits exactly one feature when this shape
    has at least 2 valid points and none when it has fewer, whatever the
    points of the other shapes of the group. *)
Theorem shape_selection (routes : list Routes.row) (trips : list Trips.row)
    (shapes : list Shapes.row) (r d : string) :
  let features := RouteShapes.features routes trips shapes in
  (List.length (emitted r d features) <= 1)%nat /\
  ((forall t, In t trips -> validTrip t = true -> plainTrip t) ->
   (exists t, In t trips /\ inGroup r d t = true) ->
   exists best,
     RouteShapes.omapGet (RouteShapes.bestShapeByRouteDir (RouteShapes.counts trips))
       (RouteShapes.joinKey [r; d]) = Some best /\
     (exists t, In t trips /\ inGroup r d t = true /\
                shapeOf t = RouteShapes.shape_id best) /\
     RouteShapes.count best = tripsWith r d (RouteShapes.shape_id best) trips /\
     (forall s, tripsWith r d s trips <= RouteShapes.count best) /\
     List.length (emitted r d features) =
       if (2 <=? List.length (validPoints shapes (RouteShapes.shape_id best)))%nat
       then 1%nat else 0%nat).
Proof.
  intros features.
  destruct (bestShape_inv (RouteShapes.counts trips)) as (Hnd & Hget & Hhas).
  set (B := RouteShapes.bestShapeByRouteDir (RouteShapes.counts trips)).
  fold RouteShapes.bestShapeByRouteDir in Hnd, Hget, Hhas.
  change (fold_left RouteShapes.pickBest (RouteShapes.counts trips) []) with B in *.
  assert (Hcount : forall r d,
             List.length (emitted r d features) =
             match RouteShapes.omapGet B (RouteShapes.joinKey [r; d]) with
             | Some b =>
                 if noPipe r && noPipe d
                    && (2 <=? List.length
                                (pointsOf (RouteShapes.shapePoints
                                             (RouteShapes.chosenShapeIds B) shapes) b))%nat
                 then 1%nat else 0%nat
             | None => 0%nat
             end).
  { intros r' d'. unfold features, RouteShapes.features. fold B.
    apply emitted_count; [exact Hnd |]. intros rd b. apply best_wf. }
  split.
  { rewrite Hcount. destruct (RouteShapes.omapGet B (RouteShapes.joinKey [r; d])); [| lia].
    destruct (_ && _); lia. }
  intros Hplain (t0 & Hin0 & Hg0).
  apply inGroup_spec in Hg0. destruct Hg0 as (Hv0 & Hr0 & Hd0).
  destruct (Hplain t0 Hin0 Hv0) as (Hpr & Hpd & Hps).
  rewrite Hr0 in Hpr. rewrite Hd0 in Hpd.
  pose proof (counts_of_trip trips t0 Hin0 Hv0) as Hc0.
  apply Hhas in Hc0.
  destruct (keyOfTrip_parts t0 (Hplain t0 Hin0 Hv0)) as [Hrd0 _].
  rewrite Hrd0, Hr0, Hd0 in Hc0.
  destruct (RouteShapes.omapGet B (RouteShapes.joinKey [r; d])) as [best |] eqn:Ebest;
    [| contradiction].
  exists best. split; [reflexivity |].
  destruct (Hget _ _ Ebest) as (k & Hk & Hrd & Hsh & Hmax).
  destruct (counts_In trips k _ Hk) as (Hcnt & Hpos & t & Hin & Hv & Hkey).
  destruct (Hplain t Hin Hv) as (Htr & Htd & Hts).
  destruct (keyOfTrip_parts t (Hplain t Hin Hv)) as [Hrdt Hsht].
  rewrite Hkey in Hrdt, Hsht. rewrite Hrdt in Hrd.
  destruct (joinKey2_inj _ _ _ _ Htr Htd Hpr Hpd Hrd) as [Hrt Hdt].
  rewrite Hsht in Hsh.
  assert (Hgroup : inGroup r d t = true) by (apply inGroup_spec; auto).
  assert (Hbest : RouteShapes.count best = tripsWith r d (RouteShapes.shape_id best) trips).
  { rewrite Hcnt, <- Hkey. unfold keyOfTrip. rewrite Hrt, Hdt, Hsh.
    apply tripsAtKey_group; assumption. }
  split; [exists t; auto |]. split; [exact Hbest |]. split.
  - intros s. destruct (Z.eq_dec (tripsWith r d s trips) 0) as [-> | Hnz]; [lia |].
    unfold tripsWith in Hnz.
    destruct (List.filter (fun t => inGroup r d t && String.eqb (shapeOf t) s) trips)
      as [| t' l] eqn:E; [now cbn in Hnz |].
    assert (Hin' : In t' (List.filter
                            (fun t => inGroup r d t && String.eqb (shapeOf t) s) trips))
      by (rewrite E; now left).
    apply filter_In in Hin'. destruct Hin' as [Hin' Ht'].
    apply andb_true_iff in Ht'. destruct Ht' as [Hg' Hs'].
    apply String.eqb_eq in Hs'. apply inGroup_spec in Hg'. destruct Hg' as (Hv' & Hr' & Hd').
    destruct (Hplain t' Hin' Hv') as (_ & _ & Hps').
    pose proof (counts_of_trip trips t' Hin' Hv') as Hc'.
    destruct (keyOfTrip_parts t' (Hplain t' Hin' Hv')) as [Hrd' _].
    specialize (Hmax _ _ Hc'). rewrite Hrd', Hr', Hd' in Hmax. specialize (Hmax eq_refl).
    unfold keyOfTrip in Hmax. rewrite Hr', Hd', Hs' in Hmax.
    rewrite tripsAtKey_group in Hmax; try assumption; try (now rewrite <- Hs').
  - rewrite Hcount, Ebest, Hpr, Hpd. cbn [andb]. unfold pointsOf.
    rewrite shapePoints_length; [reflexivity | |].
    + rewrite Hsh. unfold validTrip in Hv. apply andb_true_iff in Hv.
      destruct Hv as [_ Hv]. unfold shapeOf. destruct (Trips.shape_id t) as [x |];
        [| discriminate]. cbn in Hv |- *. intros ->. discriminate.
    + unfold RouteShapes.chosenShapeIds. apply in_map_iff.
      exists (RouteShapes.joinKey [r; d], best). split; [reflexivity |].
      now apply omapGet_In.
Qed.

(** C4 fails: two trips of route [R], direction 0, use the shape [A], which
    has one point, and one trip uses the shape [B], which has two; the group
    has a shape with two points and no feature. *)
Lemma most_used_shape_degenerate :
  let trip s := Trips.mk (Some "t") (Some "R") (Some "Uptown") (Some "0") (Some s) in
  let point s n := Shapes.mk (Some s) (Some (inject_Z n)) (Some 0%Q) (Some (inject_Z n)) in
  let trips := [trip "A"; trip "A"; trip "B"] in
  let shapes := [point "A" 1; point "B" 1; point "B" 2] in
  In (trip "B") trips /\
  inGroup "R" "0" (trip "B") = true /\
  List.length (validPoints shapes "B") = 2%nat /\
  emitted "R" "0" (RouteShapes.features [] trips shapes) = [].
Proof.
  cbv zeta. split; [right; right; now left |].
  repeat split; vm_compute; reflexivity.
Qed.

(** C4 as amended, on a group whose most used shape has two points. *)
Lemma shape_selection_witness :
  let trip s := Trips.mk (Some "t") (Some "R") (Some "Uptown") (Some "0") (Some s) in
  let point s n := Shapes.mk (Some s) (Some (inject_Z n)) (Some 0%Q) (Some (inject_Z n)) in
  let trips := [trip "A"; trip "B"; trip "B"] in
  let shapes := [point "A" 1; point "B" 1; point "B" 2] in
  List.length (emitted "R" "0" (RouteShapes.features [] trips shapes)) = 1%nat.
Proof.
  intros trip point trips shapes.
  destruct (shape_selection [] trips shapes "R" "0") as [_ H].
  destruct H as (best & Hbest & _ & _ & _ & Hlen).
  - intros t [<- | [<- | [<- | []]]] _; repeat split.
  - exists (trip "B"). split; [right; now left | reflexivity].
  - rewrite Hlen. vm_compute in Hbest. injection Hbest as <-. reflexivity.
Defined.

(* ===================================================================== *)
(** * Part III: further properties of the code *)
(* ===================================================================== *)

(** ** Lines without quotes *)

Section PlainLines.
Import Js.

Lemma noQuote_cons (c : ascii) (s : string) :
  noQuote (String c s) = true <-> Ascii.eqb c dquote = false /\ noQuote s = true.
Proof. cbn [noQuote]. rewrite andb_true_iff, negb_true_iff. reflexivity. Qed.

Lemma split_cons_head (sep : ascii) (s : string) :
  exists h t, split sep s = h :: t.
Proof.
  destruct (split sep s) as [| h t] eqn:E; [now apply split_nonempty in E |].
  now exists h, t.
Qed.

Lemma splitCsvLoop_plain (line : string) (out : list string) (cur : string) :
  noQuote line = true ->
  StationToLines.splitCsvLoop line out cur false =
  match split comma line with
  | h :: t => (out ++ (cur ++ h)%string :: t)%list
  | [] => out
  end.
Proof.
  revert out cur. induction line as [| c line IH]; intros out cur Hq.
  - cbn [StationToLines.splitCsvLoop split]. now rewrite append_empty_r.
  - apply noQuote_cons in Hq. destruct Hq as [Hc Hq].
    cbn [StationToLines.splitCsvLoop split]. rewrite Hc. cbn [negb].
    rewrite andb_true_r. destruct (Ascii.eqb c comma) eqn:E.
    + rewrite (IH _ _ Hq). destruct (split_cons_head comma line) as (h & t & ->).
      rewrite append_empty_r, append_nil, <- List.app_assoc. reflexivity.
    + rewrite (IH _ _ Hq). destruct (split_cons_head comma line) as (h & t & ->).
      now rewrite append_snoc.
Qed.

Lemma parseCSVLoop_plain (line : string) (out : list string) (cur : string) :
  noQuote line = true ->
  RouteShapes.parseCSVLoop line out cur false =
  match split comma line with
  | h :: t => (out ++ (cur ++ h)%string :: t)%list
  | [] => out
  end.
Proof.
  revert out cur. induction line as [| c line IH]; intros out cur Hq.
  - cbn [RouteShapes.parseCSVLoop split]. now rewrite append_empty_r.
  - apply noQuote_cons in Hq. destruct Hq as [Hc Hq].
    cbn [RouteShapes.parseCSVLoop split]. rewrite Hc. cbn [negb].
    rewrite andb_true_r. destruct (Ascii.eqb c comma) eqn:E.
    + rewrite (IH _ _ Hq). destruct (split_cons_head comma line) as (h & t & ->).
      rewrite append_empty_r, append_nil, <- List.app_assoc. reflexivity.
    + rewrite (IH _ _ Hq). destruct (split_cons_head comma line) as (h & t & ->).
      now rewrite append_snoc.
Qed.

Lemma joinComma_split (s : string) : joinComma (split comma s) = s.
Proof.
  induction s as [| c s IH]; [reflexivity |].
  cbn [split]. destruct (split_cons_head comma s) as (h & t & E).
  rewrite E in *. destruct (Ascii.eqb c comma) eqn:Ec.
  - apply Ascii.eqb_eq in Ec. subst c. rewrite joinComma_cons, append_nil, IH. reflexivity.
  - destruct t as [| h' t].
    + cbn in IH |- *. now rewrite IH.
    + rewrite joinComma_cons in *. rewrite append_cons, IH. reflexivity.
Qed.

Lemma split_plain_fields (sep : ascii) (s : string) :
  Forall (fun f => forall c, In c (list_ascii_of_string f) -> c <> sep) (split sep s).
Proof.
  induction s as [| c s IH]; cbn [split].
  - repeat constructor. intros c [].
  - destruct (Ascii.eqb_spec c sep) as [-> | Hne].
    + constructor; [intros c [] | exact IH].
    + destruct (split sep s) as [| h t]; [repeat constructor; intros c' [<- | []]; exact Hne |].
      inversion IH; subst. constructor; [| assumption].
      intros c' [<- | Hin]; [exact Hne | auto].
Qed.

End PlainLines.

(** X1.  On a line without quote characters the three line readers are the
    built-in split at commas: [splitCsvLine] and [parseCSVLine] return
    [line.split(",")], so no field contains a comma, there is at least one
    field, and joining the fields with commas gives the line back. *)
Theorem plain_line_round_trip (line : string) :
  noQuote line = true ->
  StationToLines.splitCsvLine line = Js.split Js.comma line /\
  Arrivals.splitCsvLine line = Js.split Js.comma line /\
  RouteShapes.parseCSVLine line = Js.split Js.comma line /\
  joinComma (StationToLines.splitCsvLine line) = line /\
  joinComma (RouteShapes.parseCSVLine line) = line /\
  (1 <= List.length (RouteShapes.parseCSVLine line))%nat /\
  Forall (fun f => forall c, In c (list_ascii_of_string f) -> c <> Js.comma)
    (RouteShapes.parseCSVLine line).
Proof.
  intros Hq.
  assert (Hs : StationToLines.splitCsvLine line = Js.split Js.comma line).
  { unfold StationToLines.splitCsvLine. rewrite splitCsvLoop_plain by exact Hq.
    destruct (split_cons_head Js.comma line) as (h & t & ->). reflexivity. }
  assert (Hp : RouteShapes.parseCSVLine line = Js.split Js.comma line).
  { unfold RouteShapes.parseCSVLine. rewrite parseCSVLoop_plain by exact Hq.
    destruct (split_cons_head Js.comma line) as (h & t & ->). reflexivity. }
  repeat split; try assumption.
  - now rewrite Hs, joinComma_split.
  - now rewrite Hp, joinComma_split.
  - rewrite Hp. destruct (split_cons_head Js.comma line) as (h & t & ->). cbn. lia.
  - rewrite Hp. apply split_plain_fields.
Qed.

(** X1 on a line of a stop-times table. *)
Lemma plain_line_round_trip_witness :
  RouteShapes.parseCSVLine "T1,08:05:00,,S1N" = ["T1"; "08:05:00"; ""; "S1N"] /\
  joinComma (StationToLines.splitCsvLine "T1,08:05:00,,S1N") = "T1,08:05:00,,S1N".
Proof.
  destruct (plain_line_round_trip "T1,08:05:00,,S1N") as (_ & _ & Hp & Hj & _);
    [reflexivity |].
  split; [rewrite Hp; reflexivity | exact Hj].
Defined.

(** ** Agreement of the line readers *)

Lemma readers_agree_loop (line : string) (out : list string) (cur : string) (q : bool) :
  noQuotePair line = true ->
  RouteShapes.parseCSVLoop line out cur q = StationToLines.splitCsvLoop line out cur q.
Proof.
  revert out cur q. induction line as [| c line IH]; intros out cur q Hp; [reflexivity |].
  cbn [noQuotePair] in Hp. apply andb_true_iff in Hp. destruct Hp as [Hc Hp].
  apply negb_true_iff in Hc.
  cbn [RouteShapes.parseCSVLoop StationToLines.splitCsvLoop].
  destruct (Ascii.eqb c Js.dquote) eqn:E.
  - cbn [andb] in Hc. destruct line as [| c' line']; [reflexivity |].
    cbn [GtfsJson.nextIs] in Hc. rewrite Hc, andb_false_r. now apply IH.
  - destruct (Ascii.eqb c Js.comma && negb q); now apply IH.
Qed.

(** X2.  The minimal splitter and the escaping parser read every line in
    which no quote character is immediately followed by another one into the
    same fields; they can differ only on lines with two quotes in a row. *)
Theorem line_readers_agree (line : string) :
  noQuotePair line = true ->
  RouteShapes.parseCSVLine line = StationToLines.splitCsvLine line /\
  RouteShapes.parseCSVLine line = Arrivals.splitCsvLine line.
Proof.
  intros Hp. split; now apply readers_agree_loop.
Qed.

(** X2 on a line with a comma inside quotes. *)
Lemma line_readers_agree_witness :
  let q := String Js.dquote "" in
  let line := "R1," ++ q ++ "Broadway, 7 Av" ++ q ++ ",1" in
  RouteShapes.parseCSVLine line = ["R1"; "Broadway, 7 Av"; "1"] /\
  StationToLines.splitCsvLine line = ["R1"; "Broadway, 7 Av"; "1"].
Proof.
  intros q line.
  destruct (line_readers_agree line) as [H _]; [reflexivity |].
  split; [reflexivity | rewrite <- H; reflexivity].
Defined.

(** ** Texts of several rows *)

Section Tables.
Import Js.

Lemma rowLine_cons (f f' : string) (fs : list string) :
  rowLine (f :: f' :: fs) = quoteField f ++ String comma (rowLine (f' :: fs)).
Proof. reflexivity. Qed.

Lemma parseLoop_row (f : string) (fs : list string) (rest : string)
    (rows : list (list string)) (row : list string) :
  afterField rest ->
  GtfsJson.parseLoop (rowLine (f :: fs) ++ rest) rows row "" false =
  GtfsJson.parseLoop rest rows (row ++ removelast (f :: fs))%list (List.last (f :: fs) "")
    false.
Proof.
  intros Hrest. revert f row. induction fs as [| f' fs IH]; intros f row.
  - change (rowLine [f]) with (quoteField f).
    rewrite parseLoop_field by exact Hrest.
    cbn [removelast List.last]. now rewrite List.app_nil_r, append_nil.
  - rewrite rowLine_cons, append_assoc, append_cons.
    rewrite parseLoop_field by reflexivity.
    cbn [GtfsJson.parseLoop].
    replace (Ascii.eqb comma dquote) with false by reflexivity.
    replace (Ascii.eqb comma CR) with false by reflexivity.
    rewrite Ascii.eqb_refl. cbn [andb negb orb]. rewrite append_nil.
    rewrite IH, <- List.app_assoc. reflexivity.
Qed.

Lemma parseLoop_LF (rest : string) (rows : list (list string)) (row : list string)
    (cur : string) :
  GtfsJson.parseLoop (eolLF ++ rest) rows row cur false =
  GtfsJson.parseLoop rest (rows ++ [(row ++ [cur])%list])%list [] "" false.
Proof. reflexivity. Qed.

Lemma parseLoop_CRLF (rest : string) (rows : list (list string)) (row : list string)
    (cur : string) :
  GtfsJson.parseLoop (eolCRLF ++ rest) rows row cur false =
  GtfsJson.parseLoop rest (rows ++ [(row ++ [cur])%list])%list [] "" false.
Proof. reflexivity. Qed.

Section Separator.
Variable sep : string.
Hypothesis sep_after : forall rest, afterField (sep ++ rest).
Hypothesis sep_step : forall rest rows row cur,
  GtfsJson.parseLoop (sep ++ rest) rows row cur false =
  GtfsJson.parseLoop rest (rows ++ [(row ++ [cur])%list])%list [] "" false.

Lemma parseLoop_row_sep (r : list string) (rest : string) (rows : list (list string)) :
  GtfsJson.parseLoop (rowLine r ++ sep ++ rest) rows [] "" false =
  GtfsJson.parseLoop rest (rows ++ [storedRow r])%list [] "" false.
Proof.
  destruct r as [| f fs].
  - change (rowLine []) with "". rewrite append_nil, sep_step. reflexivity.
  - rewrite parseLoop_row by apply sep_after. rewrite sep_step.
    cbn [List.app storedRow]. rewrite <- List.app_removelast_last by discriminate.
    reflexivity.
Qed.

Lemma tableText_cons (r r' : list string) (rs : list (list string)) :
  tableText sep (r :: r' :: rs) = rowLine r ++ sep ++ tableText sep (r' :: rs).
Proof. reflexivity. Qed.

Lemma parseLoop_table (rs : list (list string)) (rows : list (list string)) :
  GtfsJson.parseLoop (tableText sep rs) rows [] "" false =
  ((rows ++ List.map storedRow (removelast rs))%list,
   removelast (List.last rs []), List.last (List.last rs []) "").
Proof.
  revert rows. induction rs as [| r rs IH]; intros rows.
  - cbn. now rewrite List.app_nil_r.
  - destruct rs as [| r' rs].
    + change (tableText sep [r]) with (rowLine r). cbn [removelast List.last List.map].
      rewrite List.app_nil_r. destruct r as [| f fs]; [reflexivity |].
      rewrite <- (append_empty_r (rowLine (f :: fs))).
      rewrite parseLoop_row by exact I. reflexivity.
    + rewrite tableText_cons, parseLoop_row_sep, IH.
      change (removelast (r :: r' :: rs)) with (r :: removelast (r' :: rs)).
      change (List.last (r :: r' :: rs) []) with (List.last (r' :: rs) []).
      cbn [List.map]. rewrite <- List.app_assoc. reflexivity.
Qed.

Lemma filter_storedRow (rs : list (list string)) :
  List.filter GtfsJson.nonBlankRow (List.map storedRow rs) =
  List.filter GtfsJson.nonBlankRow rs.
Proof.
  induction rs as [| r rs IH]; [reflexivity |].
  cbn [List.map List.filter]. rewrite IH. destruct r; reflexivity.
Qed.

Lemma parseCSV_table_sep (rs : list (list string)) :
  GtfsJson.parseCSV (tableText sep rs) = List.filter GtfsJson.nonBlankRow rs.
Proof.
  unfold GtfsJson.parseCSV. rewrite parseLoop_table. cbn [List.app].
  destruct rs as [| r0 rs0] using rev_ind; [reflexivity |].
  clear IHrs0. rewrite List.removelast_last, List.last_last.
  rewrite List.filter_app. cbn [List.filter].
  destruct (negb (String.eqb (List.last r0 "") "")
            || negb (Nat.eqb (List.length (removelast r0)) 0)) eqn:E.
  - rewrite List.filter_app, filter_storedRow. f_equal.
    destruct r0 as [| f fs]; [discriminate E |].
    rewrite <- List.app_removelast_last by discriminate. reflexivity.
  - rewrite filter_storedRow.
    apply orb_false_iff in E. destruct E as [E1 E2].
    apply negb_false_iff, String.eqb_eq in E1.
    apply negb_false_iff, Nat.eqb_eq, List.length_zero_iff_nil in E2.
    assert (Hblank : GtfsJson.nonBlankRow r0 = false).
    { destruct r0 as [| f fs]; [reflexivity |].
      rewrite (List.app_removelast_last "" (l := f :: fs)) by discriminate.
      rewrite E1, E2. reflexivity. }
    rewrite Hblank, List.app_nil_r. reflexivity.
Qed.

End Separator.

End Tables.

(** X3.  [parseCSV] reads a text of quoted rows back as its rows, whether
    the lines end in LF or in CRLF: quotes, commas and line breaks inside a
    quoted field stay in the field, and exactly the rows whose fields are all
    blank (empty lines included) are removed. *)
Theorem parseCSV_round_trip (rows : list (list string)) :
  GtfsJson.parseCSV (tableText eolLF rows) = List.filter GtfsJson.nonBlankRow rows /\
  GtfsJson.parseCSV (tableText eolCRLF rows) = List.filter GtfsJson.nonBlankRow rows.
Proof.
  split.
  - apply parseCSV_table_sep; [intros rest; reflexivity | apply parseLoop_LF].
  - apply parseCSV_table_sep; [intros rest; reflexivity | apply parseLoop_CRLF].
Qed.

(** ** Table loaders *)

Section Loaders.
Import Js Tables.



Lemma fillObject_absent (hs r : list string) (o : rowObject) (h : string) :
  ~ In h hs -> fillObject hs r o !! h = o !! h.
Proof.
  revert r o. induction hs as [| h0 hs IH]; intros r o Hin; [reflexivity |].
  cbn [fillObject]. rewrite IH by (intros H; apply Hin; now right).
  destruct (negb (String.eqb h0 "__proto__")); [| reflexivity].
  apply lookup_insert_ne. intros ->. apply Hin. now left.
Qed.

Lemma fillObject_proto (hs r : list string) (o : rowObject) :
  fillObject hs r o !! "__proto__" = o !! "__proto__".
Proof.
  revert r o. induction hs as [| h0 hs IH]; intros r o; [reflexivity |].
  cbn [fillObject]. rewrite IH.
  destruct (String.eqb_spec h0 "__proto__") as [-> | Hne]; cbn [negb]; [reflexivity |].
  now apply lookup_insert_ne.
Qed.

Lemma fillObject_lookup (hs r : list string) (o : rowObject) (h : string) (j : nat) :
  h <> "__proto__" ->
  nth_error hs j = Some h ->
  (forall j', (j < j')%nat -> nth_error hs j' <> Some h) ->
  fillObject hs r o !! h = Some (nth j r "").
Proof.
  intros Hproto. revert r o j. induction hs as [| h0 hs IH]; intros r o j Hj Hlast.
  - destruct j; discriminate.
  - cbn [fillObject]. destruct j as [| j].
    + injection Hj as ->. rewrite fillObject_absent.
      * apply String.eqb_neq in Hproto. rewrite Hproto. cbn [negb].
        rewrite lookup_insert_eq. destruct r; reflexivity.
      * intros Hin. apply In_nth_error in Hin. destruct Hin as [j' Hj'].
        apply (Hlast (S j')); [lia | exact Hj'].
    + rewrite (IH (tl r) _ j Hj).
      * destruct r; [now destruct j | reflexivity].
      * intros j' Hlt. apply (Hlast (S j')). lia.
Qed.



End Loaders.





(** ** Texts of written fields *)

Section Written.
Import Js.

Lemma parseLoop_bare (f rest : string) (rows : list (list string)) (row : list string)
    (cur : string) :
  bare f = true ->
  GtfsJson.parseLoop (f ++ rest) rows row cur false =
  GtfsJson.parseLoop rest rows row (cur ++ f) false.
Proof.
  revert cur. induction f as [| c f IH]; intros cur Hb.
  - now rewrite append_nil, append_empty_r.
  - cbn [bare] in Hb. apply andb_true_iff in Hb. destruct Hb as [Hc Hf].
    apply negb_true_iff in Hc.
    apply orb_false_iff in Hc. destruct Hc as [Hc Hcr].
    apply orb_false_iff in Hc. destruct Hc as [Hc Hlf].
    apply orb_false_iff in Hc. destruct Hc as [Hq Hco].
    rewrite append_cons. cbn [GtfsJson.parseLoop].
    rewrite Hq, Hco, Hlf, Hcr. cbn [orb andb].
    rewrite andb_false_r. rewrite IH by exact Hf. now rewrite append_snoc.
Qed.

Lemma parseLoop_written (f w rest : string) (rows : list (list string))
    (row : list string) (cur : string) :
  written f w -> afterField rest ->
  GtfsJson.parseLoop (w ++ rest) rows row cur false =
  GtfsJson.parseLoop rest rows row (cur ++ f) false.
Proof.
  intros [-> | [Hb ->]] Hrest; [now apply parseLoop_field | now apply parseLoop_bare].
Qed.

Lemma parseLoop_comma (rest : string) (rows : list (list string)) (row : list string)
    (cur : string) :
  GtfsJson.parseLoop (String comma rest) rows row cur false =
  GtfsJson.parseLoop rest rows (row ++ [cur])%list "" false.
Proof. reflexivity. Qed.

Lemma parseLoop_wrow (f : string) (fs ws : list string) (rest : string)
    (rows : list (list string)) (row : list string) :
  Forall2 written (f :: fs) ws -> afterField rest ->
  GtfsJson.parseLoop (joinComma ws ++ rest) rows row "" false =
  GtfsJson.parseLoop rest rows (row ++ removelast (f :: fs))%list (List.last (f :: fs) "")
    false.
Proof.
  intros Hw Hrest. revert f ws row Hw. induction fs as [| f' fs IH]; intros f ws row Hw.
  - inversion Hw as [| ? w ? ws' Hf Hnil]; subst. inversion Hnil; subst.
    change (joinComma [w]) with w.
    rewrite (parseLoop_written f w) by assumption.
    cbn [removelast List.last]. now rewrite List.app_nil_r, append_nil.
  - inversion Hw as [| ? w ? ws' Hf Htl]; subst.
    inversion Htl as [| ? w' ? ws'' Hf' Htl']; subst.
    rewrite joinComma_cons, append_assoc, append_cons.
    rewrite (parseLoop_written f w) by (assumption || reflexivity).
    rewrite parseLoop_comma, append_nil.
    rewrite (IH f' (w' :: ws'') _ Htl), <- List.app_assoc. reflexivity.
Qed.

Section Separator.
Variable sep : string.
Hypothesis sep_after : forall rest, afterField (sep ++ rest).
Hypothesis sep_step : forall rest rows row cur,
  GtfsJson.parseLoop (sep ++ rest) rows row cur false =
  GtfsJson.parseLoop rest (rows ++ [(row ++ [cur])%list])%list [] "" false.

Lemma parseLoop_wline_sep (r ws : list string) (rest : string)
    (rows : list (list string)) :
  Forall2 written r ws ->
  GtfsJson.parseLoop (joinComma ws ++ sep ++ rest) rows [] "" false =
  GtfsJson.parseLoop rest (rows ++ [storedRow r])%list [] "" false.
Proof.
  intros Hw. destruct r as [| f fs].
  - inversion Hw; subst. change (joinComma []) with "".
    rewrite append_nil, sep_step. reflexivity.
  - rewrite (parseLoop_wrow f fs ws) by (exact Hw || apply sep_after).
    rewrite sep_step.
    cbn [List.app storedRow]. rewrite <- List.app_removelast_last by discriminate.
    reflexivity.
Qed.

Lemma csvText_cons (l l' : list string) (ls : list (list string)) :
  csvText sep (l :: l' :: ls) = joinComma l ++ sep ++ csvText sep (l' :: ls).
Proof. reflexivity. Qed.

Lemma parseLoop_wtable (rs ls : list (list string)) (rows : list (list string)) :
  Forall2 (Forall2 written) rs ls ->
  GtfsJson.parseLoop (csvText sep ls) rows [] "" false =
  ((rows ++ List.map storedRow (removelast rs))%list,
   removelast (List.last rs []), List.last (List.last rs []) "").
Proof.
  intros Hw. revert rows. induction Hw as [| r l rs ls Hr Hrs IH]; intros rows.
  - cbn. now rewrite List.app_nil_r.
  - destruct Hrs as [| r' l' rs ls Hr' Hrs].
    + change (csvText sep [l]) with (joinComma l). cbn [removelast List.last List.map].
      rewrite List.app_nil_r. destruct r as [| f fs].
      * inversion Hr; subst. reflexivity.
      * rewrite <- (append_empty_r (joinComma l)).
        rewrite (parseLoop_wrow f fs l) by (exact Hr || exact I). reflexivity.
    + rewrite csvText_cons, (parseLoop_wline_sep r l) by exact Hr. rewrite IH.
      change (removelast (r :: r' :: rs)) with (r :: removelast (r' :: rs)).
      change (List.last (r :: r' :: rs) []) with (List.last (r' :: rs) []).
      cbn [List.map]. rewrite <- List.app_assoc. reflexivity.
Qed.

Lemma parseCSV_written_sep (rs ls : list (list string)) :
  Forall2 (Forall2 written) rs ls ->
  GtfsJson.parseCSV (csvText sep ls) = List.filter GtfsJson.nonBlankRow rs.
Proof.
  intros Hw. unfold GtfsJson.parseCSV. rewrite (parseLoop_wtable rs ls) by exact Hw.
  cbn [List.app]. clear Hw.
  destruct rs as [| r0 rs0] using rev_ind; [reflexivity |].
  clear IHrs0. rewrite List.removelast_last, List.last_last.
  rewrite List.filter_app. cbn [List.filter].
  destruct (negb (String.eqb (List.last r0 "") "")
            || negb (Nat.eqb (List.length (removelast r0)) 0)) eqn:E.
  - rewrite List.filter_app, filter_storedRow. f_equal.
    destruct r0 as [| f fs]; [discriminate E |].
    rewrite <- List.app_removelast_last by discriminate. reflexivity.
  - rewrite filter_storedRow.
    apply orb_false_iff in E. destruct E as [E1 E2].
    apply negb_false_iff, String.eqb_eq in E1.
    apply negb_false_iff, Nat.eqb_eq, List.length_zero_iff_nil in E2.
    assert (Hblank : GtfsJson.nonBlankRow r0 = false).
    { destruct r0 as [| f fs]; [reflexivity |].
      rewrite (List.app_removelast_last "" (l := f :: fs)) by discriminate.
      rewrite E1, E2. reflexivity. }
    rewrite Hblank, List.app_nil_r. reflexivity.
Qed.

End Separator.

Lemma parseCSV_written (rs ls : list (list string)) :
  Forall2 (Forall2 written) rs ls ->
  GtfsJson.parseCSV (csvText eolLF ls) = List.filter GtfsJson.nonBlankRow rs /\
  GtfsJson.parseCSV (csvText eolCRLF ls) = List.filter GtfsJson.nonBlankRow rs.
Proof.
  intros Hw. split.
  - apply parseCSV_written_sep; [intros rest; reflexivity | apply parseLoop_LF | exact Hw].
  - apply parseCSV_written_sep; [intros rest; reflexivity | apply parseLoop_CRLF | exact Hw].
Qed.

End Written.

(** X6.  For every text whose lines, separated by LF or by CR LF, are rows
    of fields, each field written in quotes (its quotes doubled) or, when it
    has no quote, comma or line break, as it is: [parseCSV] returns the rows
    that have a non-blank field, and [csvToObjects] takes the first of them
    as the header and makes one object per other row.  Every header name
    other than [__proto__] reads the field at the last position of that
    name, and the empty string when the row is too short, never
    [undefined]; the fields beyond the header are dropped, and the
    assignment to [__proto__] writes nothing. *)
Theorem csvToObjects_fields (rows lines : list (list string)) :
  Forall2 (Forall2 written) rows lines ->
  (GtfsJson.parseCSV (csvText eolLF lines) = List.filter GtfsJson.nonBlankRow rows /\
   GtfsJson.parseCSV (csvText eolCRLF lines) = List.filter GtfsJson.nonBlankRow rows) /\
  (forall sep, sep = eolLF \/ sep = eolCRLF ->
     Tables.csvToObjects (csvText sep lines) =
     match List.filter GtfsJson.nonBlankRow rows with
     | [] => []
     | headers :: body => List.map (fun r => Tables.fillObject headers r ∅) body
     end) /\
  (forall hs r h j,
      h <> "__proto__" ->
      nth_error hs j = Some h ->
      (forall j', (j < j')%nat -> nth_error hs j' <> Some h) ->
      Tables.fillObject hs r ∅ !! h = Some (nth j r "")) /\
  (forall hs r h, ~ In h hs -> Tables.fillObject hs r ∅ !! h = None) /\
  (forall hs r, Tables.fillObject hs r ∅ !! "__proto__" = None).
Proof.
  intros Hw. destruct (parseCSV_written rows lines Hw) as [HLF HCRLF].
  split; [split; assumption |]. split; [| split; [| split]].
  - intros sep [-> | ->]; unfold Tables.csvToObjects; [now rewrite HLF | now rewrite HCRLF].
  - intros hs r h j. apply fillObject_lookup.
  - intros hs r h Hin. now rewrite fillObject_absent.
  - intros hs r. now rewrite fillObject_proto.
Qed.

(** X6 on a routes table with a bare header, a quoted name that holds a
    comma, a short row and an empty last line. *)
Lemma csvToObjects_fields_witness :
  let text := "route_id,route_short_name" ++ eolLF ++
              "R1," ++ quoteField "A, express" ++ eolLF ++
              "R2" ++ eolLF in
  List.map (fun o => (o !! "route_id", o !! "route_short_name"))
    (Tables.csvToObjects text) =
  [(Some "R1", Some "A, express"); (Some "R2", Some "")].
Proof.
  intros text.
  destruct (csvToObjects_fields
              [["route_id"; "route_short_name"]; ["R1"; "A, express"]; ["R2"]; []]
              [["route_id"; "route_short_name"]; ["R1"; quoteField "A, express"];
               ["R2"]; []])
    as (_ & H & _).
  - repeat match goal with |- Forall2 _ _ _ => constructor end;
      first [ right; split; reflexivity | left; reflexivity ].
  - specialize (H eolLF (or_introl eq_refl)).
    change (csvText eolLF _) with text in H. rewrite H. vm_compute. reflexivity.
Defined.

(** ** Labels and countdowns *)

(** X7.  [fmtEtaMinutes] rounds to the nearest minute, halves up: a
    countdown below 30 seconds (negative ones included) reads "Now", one from
    30 to 89 seconds reads "1 min", and one of 90 seconds or more reads its
    rounded minute count, at least 2, followed by " min". *)
Theorem fmtEtaMinutes_thresholds (d : Z) :
  (d < 30 -> App.fmtEtaMinutes (Some d) = "Now") /\
  (30 <= d < 90 -> App.fmtEtaMinutes (Some d) = "1 min") /\
  (90 <= d ->
   App.fmtEtaMinutes (Some d) = Js.toString (Some ((d + 30) / 60)) ++ " min" /\
   2 <= (d + 30) / 60 /\ 60 * ((d + 30) / 60) - 30 <= d < 60 * ((d + 30) / 60) + 30).
Proof.
  unfold App.fmtEtaMinutes, App.roundDiv60, Js.leb, Js.cmp2.
  pose proof (Z.div_mod (d + 30) 60 ltac:(lia)) as Hdm.
  pose proof (Z.mod_pos_bound (d + 30) 60 ltac:(lia)) as Hm.
  split; [| split].
  - intros Hd. destruct (Z.leb_spec ((d + 30) / 60) 0); [reflexivity | lia].
  - intros Hd. destruct (Z.leb_spec ((d + 30) / 60) 0); [lia |].
    destruct (Z.eqb_spec ((d + 30) / 60) 1); [reflexivity | lia].
  - intros Hd. split; [| lia].
    destruct (Z.leb_spec ((d + 30) / 60) 0); [lia |].
    destruct (Z.eqb_spec ((d + 30) / 60) 1); [lia | reflexivity].
Qed.

(** X7 at 29, 30, 89 and 90 seconds. *)
Lemma fmtEtaMinutes_thresholds_witness :
  App.fmtEtaMinutes (Some 29) = "Now" /\ App.fmtEtaMinutes (Some 30) = "1 min" /\
  App.fmtEtaMinutes (Some 89) = "1 min" /\ App.fmtEtaMinutes (Some 90) = "2 min".
Proof.
  split; [| split; [| split]].
  - destruct (fmtEtaMinutes_thresholds 29) as (H & _). apply H. lia.
  - destruct (fmtEtaMinutes_thresholds 30) as (_ & H & _). apply H. lia.
  - destruct (fmtEtaMinutes_thresholds 89) as (_ & H & _). apply H. lia.
  - destruct (fmtEtaMinutes_thresholds 90) as (_ & _ & H).
    destruct H as [H _]; [lia |]. rewrite H. reflexivity.
Defined.



(** ** Estimates and the order of groups *)

Section Estimates.
Import Js App.

Lemma simulateLoop_snd (base jitter step i : Z) (n : nat) (g : rng) (k : nat) :
  snd (simulateLoop base jitter step i n g) k = g (n + k)%nat.
Proof.
  revert i g. induction n as [| n IH]; intros i g; [reflexivity |].
  cbn [simulateLoop]. unfold bind, random, ret.
  specialize (IH (i + 1) (fun k => g (S k))).
  destruct (simulateLoop base jitter step (i + 1) n (fun k => g (S k))) as [rest g'].
  cbn [snd] in *. rewrite IH. reflexivity.
Qed.

Lemma simulateEtas_snd (base : Z) (count : nat) (jitter step : Z) (g : rng) (k : nat) :
  snd (simulateEtas base count jitter step g) k = g (count + k)%nat.
Proof.
  unfold simulateEtas, bind, ret.
  pose proof (simulateLoop_snd base jitter step 0 count g k) as H.
  destruct (simulateLoop base jitter step 0 count g) as [out g']. exact H.
Qed.

Lemma sort_ascending3 (a b c : Z) :
  a <= b -> b <= c -> sort (fun x y => x - y >? 0) [a; b; c] = [a; b; c].
Proof.
  intros Hab Hbc. cbn [sort insert].
  destruct (Z.gtb_spec (b - c) 0); [lia |].
  cbn [insert]. destruct (Z.gtb_spec (a - b) 0); [lia | reflexivity].
Qed.

Lemma default_estimates_bounds (g : rng) :
  inUnit g ->
  exists m1 m2 m3,
    fst (simulateEtas 6 3 2 6 g) = [m1; m2; m3] /\
    fst (simulateLoop 6 2 6 0 3 g) = [m1; m2; m3] /\
    4 <= m1 <= 8 /\ 10 <= m2 <= 14 /\ 16 <= m3 <= 20.
Proof.
  intros Hg. rewrite simulateEtas_fst, !simulateLoop_cons.
  change (fst (simulateLoop 6 2 6 (0 + 1 + 1 + 1) 0 _)) with (@nil Z).
  destruct (Hg 0%nat) as [H00 H01]. destruct (Hg 1%nat) as [H10 H11].
  destruct (Hg 2%nat) as [H20 H21].
  pose proof (noiseOf_bounds 2 (g 0%nat) ltac:(lia) H00 H01) as N0.
  pose proof (noiseOf_bounds 2 (g 1%nat) ltac:(lia) H10 H11) as N1.
  pose proof (noiseOf_bounds 2 (g 2%nat) ltac:(lia) H20 H21) as N2.
  eexists _, _, _. split; [apply sort_ascending3; lia |].
  split; [reflexivity |]. lia.
Qed.

End Estimates.

(** X9.  With the parameters of the fallback (base 6, count 3, jitter 2,
    step 6) and a random source in [0, 1), the three estimates are 4 to 8,
    10 to 14 and 16 to 20 minutes: the loop already produces them in
    ascending order, so the sort leaves them as they are; each call takes
    exactly three values from the random source. *)
Theorem default_estimates (g : Js.rng) :
  inUnit g ->
  exists m1 m2 m3,
    fst (App.simulateEtas 6 3 2 6 g) = [m1; m2; m3] /\
    fst (App.simulateLoop 6 2 6 0 3 g) = [m1; m2; m3] /\
    4 <= m1 <= 8 /\ 10 <= m2 <= 14 /\ 16 <= m3 <= 20 /\
    forall k, snd (App.simulateEtas 6 3 2 6 g) k = g (3 + k)%nat.
Proof.
  intros Hg. destruct (default_estimates_bounds g Hg) as (m1 & m2 & m3 & H1 & H2 & B).
  exists m1, m2, m3.
  split; [exact H1 |]. split; [exact H2 |].
  split; [lia |]. split; [lia |]. split; [lia |].
  intros k. apply simulateEtas_snd.
Qed.

(** X9 with every random value equal to 9/10. *)
Lemma default_estimates_witness :
  fst (App.simulateEtas 6 3 2 6 (fun _ => 9 # 10)%Q) = [8; 14; 20].
Proof.
  destruct (default_estimates (fun _ => 9 # 10)%Q) as (m1 & m2 & m3 & H & _).
  - intros n. split; [discriminate | reflexivity].
  - rewrite H. vm_compute in H. injection H as <- <- <-. reflexivity.
Defined.

(** ** The order of the groups and the selections of the view *)

Section GroupOrder.
Import Js App.

(** The sort is stable: elements none of which is greater than another
    keep their order. *)
Lemma insert_stable {A : Type} (gt : A -> A -> bool) (p : A -> bool) (x : A) (l : list A) :
  (forall a b, p a = true -> p b = true -> gt a b = false) ->
  List.filter p (insert gt x l) = List.filter p (x :: l).
Proof.
  intros Hp. induction l as [| y l IH]; [reflexivity |].
  cbn [insert]. destruct (gt x y) eqn:E; [| reflexivity].
  cbn [List.filter] in *. rewrite IH.
  destruct (p x) eqn:Ex, (p y) eqn:Ey; try reflexivity.
  rewrite (Hp x y Ex Ey) in E. discriminate.
Qed.

Lemma sort_stable {A : Type} (gt : A -> A -> bool) (p : A -> bool) (l : list A) :
  (forall a b, p a = true -> p b = true -> gt a b = false) ->
  List.filter p (sort gt l) = List.filter p l.
Proof.
  intros Hp. induction l as [| x l IH]; [reflexivity |].
  cbn [sort]. rewrite insert_stable by exact Hp.
  cbn [List.filter]. now rewrite IH.
Qed.

(** Every group is pushed with a first entry whose countdown is a number
    that is not negative. *)
Lemma simulateLoop_floor_fst (g : rng) :
  Forall (fun m => 1 <= m) (fst (simulateEtas 6 3 2 6 g)).
Proof.
  rewrite simulateEtas_fst. apply sort_Forall. apply simulateLoop_floor.
Qed.

Lemma groupsForKey_first (nowSec : Z) (ln hs : string) (times : list string) (g : rng) :
  Forall (fun grp => exists u rest e,
              upcoming grp = u :: rest /\ etaSec u = Some e /\ 0 <= e)
    (fst (groupsForKey nowSec ln hs times g)).
Proof.
  unfold groupsForKey.
  pose proof (upcomingScheduled_Forall nowSec times) as Hups.
  destruct (hasSoon (upcomingScheduled nowSec times)) eqn:Hsoon; cbn [negb].
  - destruct (upcomingScheduled nowSec times) as [| u ups]; [constructor |].
    inversion Hups as [| ? ? (t & e & _ & _ & He & Hr) _]; subst.
    constructor; [| constructor].
    exists u, (firstn 3 ups), e. split; [reflexivity |]. split; [exact He | lia].
  - unfold bind, ret.
    pose proof (simulateEtas_length 6 3 2 6 g) as Hlen.
    pose proof (simulateLoop_floor_fst g) as Hfl.
    destruct (simulateEtas 6 3 2 6 g) as [mins g']. cbn [fst] in *.
    destruct mins as [| m mins]; [discriminate |].
    inversion Hfl; subst.
    constructor; [| constructor].
    eexists _, _, (m * 60). cbn [upcoming List.map List.app slice0 firstn].
    split; [reflexivity |]. split; [reflexivity | lia].
Qed.

Lemma forHeadsigns_first (nowSec : Z) (ln : string) (byHeadsign : obj (list string))
    (g : rng) :
  Forall (fun grp => exists u rest e,
              upcoming grp = u :: rest /\ etaSec u = Some e /\ 0 <= e)
    (fst (forHeadsigns nowSec ln byHeadsign g)).
Proof.
  revert g. induction byHeadsign as [| [hs times] rest IH]; intros g; [constructor |].
  cbn [forHeadsigns]. unfold bind, ret.
  pose proof (groupsForKey_first nowSec ln hs times g) as H1.
  destruct (groupsForKey nowSec ln hs times g) as [one g1]. cbn [fst] in H1.
  specialize (IH g1). destruct (forHeadsigns nowSec ln rest g1) as [gs g2].
  cbn [fst] in *. apply List.Forall_app. split; assumption.
Qed.

Lemma forLines_first (nowSec : Z) (stationData : obj (obj (list string))) (g : rng) :
  Forall (fun grp => exists u rest e,
              upcoming grp = u :: rest /\ etaSec u = Some e /\ 0 <= e)
    (fst (forLines nowSec stationData g)).
Proof.
  revert g. induction stationData as [| [ln byHeadsign] rest IH]; intros g; [constructor |].
  cbn [forLines]. unfold bind, ret.
  pose proof (forHeadsigns_first nowSec ln byHeadsign g) as H1.
  destruct (forHeadsigns nowSec ln byHeadsign g) as [gs1 g1]. cbn [fst] in H1.
  specialize (IH g1). destruct (forLines nowSec rest g1) as [gs2 g2].
  cbn [fst] in *. apply List.Forall_app. split; assumption.
Qed.

Lemma nextArrivals_eq (ARRIVALS_BY_DEST : obj (obj (obj (list string))))
    (nowSec : Z) (id : string) (stationData : obj (obj (list string))) (g : rng) :
  getProp ARRIVALS_BY_DEST id = Some stationData ->
  fst (nextArrivals ARRIVALS_BY_DEST nowSec (Some id) g) =
  sort (fun a b => byEta (firstEta a) (firstEta b)) (fst (forLines nowSec stationData g)).
Proof.
  intros Hget. unfold nextArrivals. rewrite Hget. unfold bind, ret.
  destruct (forLines nowSec stationData g) as [gs g']. reflexivity.
Qed.

Lemma firstEta_of_first (grp : Group) :
  (exists u rest e, upcoming grp = u :: rest /\ etaSec u = Some e /\ 0 <= e) ->
  exists e, firstEta grp = Some e /\ 0 <= e.
Proof.
  intros (u & rest & e & Hu & He & H0). exists e. unfold firstEta. rewrite Hu.
  split; assumption.
Qed.

End GroupOrder.

(** X10.  The groups of a station come out in ascending order of the
    countdown of their first entry, which for every group is a number that
    is not negative (the default 999999 of the comparison is never used,
    since no group is empty); groups with the same first countdown keep the
    order of their keys in the index; and an unselected or unknown station
    has no groups and takes nothing from the random source. *)
Theorem groups_by_first_arrival
    (ARRIVALS_BY_DEST : App.obj (App.obj (App.obj (list string))))
    (nowSec : Z) (g : Js.rng) :
  (forall id stationData,
      App.getProp ARRIVALS_BY_DEST id = Some stationData ->
      let groups := fst (App.nextArrivals ARRIVALS_BY_DEST nowSec (Some id) g) in
      StronglySorted (fun a b => etaLe (App.firstEta a) (App.firstEta b)) groups /\
      Forall (fun grp => exists u rest e,
                  App.upcoming grp = u :: rest /\
                  App.firstEta grp = Some e /\ App.etaSec u = Some e /\ 0 <= e) groups /\
      forall e : Z,
        List.filter (fun grp => bool_decide (App.firstEta grp = Some e)) groups =
        List.filter (fun grp => bool_decide (App.firstEta grp = Some e))
          (fst (App.forLines nowSec stationData g))) /\
  App.nextArrivals ARRIVALS_BY_DEST nowSec None g = ([], g) /\
  (forall id, App.getProp ARRIVALS_BY_DEST id = None ->
              App.nextArrivals ARRIVALS_BY_DEST nowSec (Some id) g = ([], g)).
Proof.
  split; [| split].
  - intros id stationData Hget groups. unfold groups.
    rewrite (nextArrivals_eq _ _ _ _ _ Hget).
    pose proof (forLines_first nowSec stationData g) as Hfirst.
    split; [| split].
    + apply (sort_sorted _ (fun grp => exists e, App.firstEta grp = Some e /\ 0 <= e)).
      * intros x y (ex & -> & _) (ey & -> & _). cbn. intros H.
        exists ex, ey. split; [reflexivity |]. split; [reflexivity | lia].
      * intros x y (ex & -> & _) (ey & -> & _). cbn. intros H.
        exists ey, ex. split; [reflexivity |]. split; [reflexivity | lia].
      * intros x y z (a & b & -> & -> & Hab) (b' & c & [= <-] & -> & Hbc).
        exists a, c. split; [reflexivity |]. split; [reflexivity | lia].
      * eapply List.Forall_impl; [| exact Hfirst].
        intros grp. apply firstEta_of_first.
    + apply sort_Forall. eapply List.Forall_impl; [| exact Hfirst].
      intros grp (u & rest & e & Hu & He & H0). exists u, rest, e.
      unfold App.firstEta. rewrite Hu. repeat split; assumption.
    + intros e. apply sort_stable.
      intros a b Ha%bool_decide_eq_true Hb%bool_decide_eq_true.
      rewrite Ha, Hb. cbn. destruct (Z.gtb_spec (e - e) 0); [lia | reflexivity].
  - reflexivity.
  - intros id Hget. unfold App.nextArrivals. rewrite Hget. reflexivity.
Qed.

(** X10 at a station with one line and two directions. *)
Lemma groups_by_first_arrival_witness :
  let index := [("S1", [("a", [("Uptown", ["08:25:00"]); ("Downtown", ["08:05:00"])])])] in
  StronglySorted (fun a b => etaLe (App.firstEta a) (App.firstEta b))
    (fst (App.nextArrivals index 28800 (Some "S1") (fun _ => 1 # 2)%Q)).
Proof.
  intros index.
  destruct (groups_by_first_arrival index 28800 (fun _ => 1 # 2)%Q) as (H & _).
  destruct (H "S1" [("a", [("Uptown", ["08:25:00"]); ("Downtown", ["08:05:00"])])] eq_refl)
    as (Hs & _).
  exact Hs.
Defined.

Section View.
Import Js App AppView.

Lemma upperChar_idem (c : ascii) : upperChar (upperChar c) = upperChar c.
Proof. destruct c as [[] [] [] [] [] [] [] []]; reflexivity. Qed.

Lemma toUpperCase_idem (s : string) : toUpperCase (toUpperCase s) = toUpperCase s.
Proof.
  induction s as [| c s IH]; [reflexivity |].
  cbn [toUpperCase]. now rewrite upperChar_idem, IH.
Qed.

Lemma getProp_In {V : Type} (o : obj V) (k : string) (v : V) :
  getProp o k = Some v -> In (k, v) o.
Proof.
  induction o as [| [k' v'] o IH]; cbn [getProp]; [discriminate |].
  destruct (String.eqb_spec k' k) as [-> | _].
  - intros [= ->]. now left.
  - intros H. right. now apply IH.
Qed.

Lemma keysOf_In (stationData : obj (obj (list string))) (ln hs : string)
    (lineData : obj (list string)) :
  In (ln, lineData) stationData -> In hs (List.map fst lineData) ->
  In (toUpperCase ln, hs) (keysOf stationData).
Proof.
  intros Hl Hh. unfold keysOf. apply in_flat_map. exists (ln, lineData).
  split; [exact Hl |]. cbn [fst snd].
  apply in_map_iff in Hh. destruct Hh as (h & <- & Hh).
  apply in_map_iff. exists h. split; [reflexivity | exact Hh].
Qed.

Lemma nextArrivals_keys (ARRIVALS_BY_DEST : obj (obj (obj (list string))))
    (nowSec : Z) (id : string) (stationData : obj (obj (list string))) (g : rng) :
  getProp ARRIVALS_BY_DEST id = Some stationData ->
  Permutation (List.map keyOf (fst (nextArrivals ARRIVALS_BY_DEST nowSec (Some id) g)))
    (keysOf stationData).
Proof.
  intros Hget. rewrite (nextArrivals_eq _ _ _ _ _ Hget).
  destruct (forLines_shape nowSec stationData g) as [Hk _].
  rewrite <- Hk. apply Permutation_map, sort_perm.
Qed.

Lemma visibleArrivals_In (groups : list Group) (ln hs : option string) (grp : Group) :
  In grp (visibleArrivals groups ln hs) <->
  In grp groups /\
  (truthy ln = true -> line grp = toUpperCase (orEmpty ln)) /\
  (truthy hs = true -> headsign grp = orEmpty hs).
Proof.
  unfold visibleArrivals.
  destruct (truthy ln), (truthy hs); rewrite ?filter_In, ?String.eqb_eq; intuition congruence.
Qed.

End View.

(** X11.  The groups shown are those of the list whose line is the selected
    line in upper case and whose direction is the selected direction, a
    selection that is absent or empty filtering nothing; and every
    direction offered for a stop and a line has a group to show: choosing
    it never leaves the view empty. *)
Theorem offered_direction_has_group
    (ARRIVALS_BY_DEST : App.obj (App.obj (App.obj (list string))))
    (nowSec : Z) (id ln hs : string) (g : Js.rng) :
  In hs (AppView.headsignOptions ARRIVALS_BY_DEST (Some id) (Some ln)) ->
  let groups := fst (App.nextArrivals ARRIVALS_BY_DEST nowSec (Some id) g) in
  (forall sl sh grp,
      In grp (AppView.visibleArrivals groups sl sh) <->
      In grp groups /\
      (truthy sl = true -> App.line grp = Js.toUpperCase (orEmpty sl)) /\
      (truthy sh = true -> App.headsign grp = orEmpty sh)) /\
  exists grp,
    In grp (AppView.visibleArrivals groups (Some ln) (Some hs)) /\
    App.line grp = Js.toUpperCase ln /\ App.headsign grp = hs /\
    (1 <= List.length (App.upcoming grp) <= 4)%nat.
Proof.
  intros Hopt groups. split; [intros sl sh grp; apply visibleArrivals_In |].
  unfold AppView.headsignOptions in Hopt.
  destruct (negb (truthy (Some ln))) eqn:Hln; [contradiction |].
  destruct (App.getProp ARRIVALS_BY_DEST id) as [stationData |] eqn:Hget; [| contradiction].
  cbn [orEmpty from_option Datatypes.id] in Hopt.
  destruct (App.getProp stationData (Js.toUpperCase ln)) as [lineData |] eqn:Hline;
    [| contradiction].
  apply getProp_In in Hline.
  pose proof (keysOf_In _ _ _ _ Hline Hopt) as Hkey.
  rewrite toUpperCase_idem in Hkey.
  pose proof (nextArrivals_keys ARRIVALS_BY_DEST nowSec id stationData g Hget) as Hperm.
  fold groups in Hperm.
  apply (Permutation_in _ (Permutation_sym Hperm)) in Hkey.
  apply in_map_iff in Hkey. destruct Hkey as (grp & Hk & Hin).
  injection Hk as Hl Hh.
  exists grp. split; [| split; [exact Hl | split; [exact Hh |]]].
  - apply visibleArrivals_In. split; [exact Hin |]. split; intros _; assumption.
  - destruct (forLines_shape nowSec stationData g) as [_ Hw].
    unfold groups in Hin. rewrite (nextArrivals_eq _ _ _ _ _ Hget) in Hin.
    apply sort_In in Hin. rewrite List.Forall_forall in Hw. exact (Hw grp Hin).
Qed.

(** X11 for the direction Downtown of line a at a station. *)
Lemma offered_direction_has_group_witness :
  let index := [("S1", [("A", [("Uptown", ["08:25:00"]); ("Downtown", ["08:05:00"])])])] in
  exists grp,
    In grp (AppView.visibleArrivals
              (fst (App.nextArrivals index 28800 (Some "S1") (fun _ => 1 # 2)%Q))
              (Some "a") (Some "Downtown")) /\
    App.line grp = "A" /\ App.headsign grp = "Downtown".
Proof.
  intros index.
  destruct (offered_direction_has_group index 28800 "S1" "a" "Downtown" (fun _ => 1 # 2)%Q)
    as (_ & grp & Hin & Hl & Hh & _).
  - right. left. reflexivity.
  - exists grp. split; [exact Hin |]. split; [exact Hl | exact Hh].
Defined.

(** ** The distance and the query *)

Section Distance.
Import Js App.
Local Open Scope R_scope.

Lemma haversine_sym (aLat aLon bLat bLon : R) :
  haversine aLat aLon bLat bLon = haversine bLat bLon aLat aLon.
Proof.
  unfold haversine.
  replace ((rad aLat - rad bLat) / 2) with (- ((rad bLat - rad aLat) / 2)) by field.
  replace ((rad aLon - rad bLon) / 2) with (- ((rad bLon - rad aLon) / 2)) by field.
  rewrite !sin_neg. ring.
Qed.

Lemma haversine_same (aLat aLon : R) : haversine aLat aLon aLat aLon = 0.
Proof.
  unfold haversine.
  replace ((rad aLat - rad aLat) / 2) with 0 by field.
  replace ((rad aLon - rad aLon) / 2) with 0 by field.
  rewrite sin_0. ring.
Qed.

Lemma greatCircle_upper (aLat aLon bLat bLon : R) :
  greatCircle aLat aLon bLat bLon <= PI * 6371000.
Proof.
  unfold greatCircle.
  pose proof (asin_bound (sqrt (haversine aLat aLon bLat bLon))) as [_ H].
  lra.
Qed.

Lemma distance_exact_sym (aLat aLon bLat bLon : rnum) :
  distanceMeters exact aLat aLon bLat bLon = distanceMeters exact bLat bLon aLat aLon.
Proof.
  destruct aLat as [a |], aLon as [b |], bLat as [c |], bLon as [d |];
    try (transitivity (@None R); [| symmetry]; apply distanceMeters_NaN; tauto).
  rewrite !distanceMeters_numbers. unfold greatCircle. now rewrite haversine_sym.
Qed.

End Distance.

(** X12.  For every arithmetic, the distance is NaN exactly when the
    haversine term that the engine computed is NaN, which it is as soon as
    an argument is, or lies outside [0, 1]; otherwise it is the arc
    [2 * 6371000 * asin (sqrt x)] of the computed term [x], a number from 0
    to half the circumference of the sphere.  In exact arithmetic the term
    of four numbers is their haversine, which lies in [0, 1], so that the
    distance of four numbers is a number; it is symmetric in its two points
    and zero from a point to itself. *)
Theorem distanceMeters_metric (ar : App.arith) :
  (forall aLat aLon bLat bLon : App.rnum,
      aLat = None \/ aLon = None \/ bLat = None \/ bLon = None ->
      App.term ar aLat aLon bLat bLon = None) /\
  (forall aLat aLon bLat bLon : App.rnum,
      App.distanceMeters ar aLat aLon bLat bLon = None <->
      App.term ar aLat aLon bLat bLon = None \/
      exists x, App.term ar aLat aLon bLat bLon = Some x /\ (x < 0 \/ 1 < x)%R) /\
  (forall (aLat aLon bLat bLon : App.rnum) (d : R),
      App.distanceMeters ar aLat aLon bLat bLon = Some d ->
      exists x, App.term ar aLat aLon bLat bLon = Some x /\ (0 <= x <= 1)%R /\
                d = (2 * 6371000 * asin (sqrt x))%R /\ (0 <= d <= PI * 6371000)%R) /\
  (forall aLat aLon bLat bLon : R,
      App.term App.exact (Some aLat) (Some aLon) (Some bLat) (Some bLon) =
        Some (haversine aLat aLon bLat bLon) /\
      (0 <= haversine aLat aLon bLat bLon <= 1)%R /\
      App.distanceMeters App.exact (Some aLat) (Some aLon) (Some bLat) (Some bLon) =
        Some (greatCircle aLat aLon bLat bLon)) /\
  (forall aLat aLon bLat bLon : App.rnum,
      App.distanceMeters App.exact aLat aLon bLat bLon =
      App.distanceMeters App.exact bLat bLon aLat aLon) /\
  (forall aLat aLon : R,
      App.distanceMeters App.exact (Some aLat) (Some aLon) (Some aLat) (Some aLon) =
      Some 0%R).
Proof.
  split; [| split; [| split; [| split; [| split]]]].
  - intros aLat aLon bLat bLon. apply term_NaN.
  - intros aLat aLon bLat bLon. apply distance_None.
  - intros aLat aLon bLat bLon d. apply distance_Some.
  - intros a b c d. split; [apply exact_term |].
    split; [apply haversine_range | apply distanceMeters_numbers].
  - apply distance_exact_sym.
  - intros a b. rewrite distanceMeters_numbers. unfold greatCircle.
    rewrite haversine_same, sqrt_0, asin_0. f_equal. lra.
Qed.

Section Query.
Import Js App.

Lemma nearbyStops_eq (ar : arith) (STOPS : list Stop) (loc : Loc) :
  nearbyStops ar STOPS (Some loc) =
  firstn 12 (match List.filter withinRadius (withDist ar STOPS loc) with
             | _ :: _ => List.filter withinRadius (withDist ar STOPS loc)
             | [] => withDist ar STOPS loc
             end).
Proof. reflexivity. Qed.

Lemma nearbyStops_In (ar : arith) (STOPS : list Stop) (loc : Loc) (r : StopDist) :
  In r (nearbyStops ar STOPS (Some loc)) -> In r (withDist ar STOPS loc).
Proof.
  rewrite nearbyStops_eq. intros H%In_firstn_In.
  destruct (List.filter withinRadius (withDist ar STOPS loc)) eqn:E; [exact H |].
  rewrite <- E in H. apply filter_In in H. tauto.
Qed.

Lemma firstn_nil_iff {A : Type} (n : nat) (l : list A) :
  firstn (S n) l = [] <-> l = [].
Proof. destruct l; cbn; split; congruence. Qed.

Lemma NoDup_firstn {A : Type} (n : nat) (l : list A) :
  List.NoDup l -> List.NoDup (firstn n l).
Proof.
  revert n. induction l as [| x l IH]; intros [| n] H; cbn [firstn]; try constructor.
  - inversion H; subst. intros Hin%In_firstn_In. contradiction.
  - inversion H; subst. now apply IH.
Qed.

Lemma NoDup_map_firstn {A B : Type} (f : A -> B) (n : nat) (l : list A) :
  List.NoDup (List.map f l) -> List.NoDup (List.map f (firstn n l)).
Proof. intros H. rewrite <- List.firstn_map. now apply NoDup_firstn. Qed.

End Query.

(** X13.  Without a location the query lists nothing.  With one, every
    entry is a stop of the list together with its distance, the result is
    empty only when there are no stops (the fallback to the whole sorted
    list sees to it), and a stop listed once in the data is listed at most
    once in the result; all this for every arithmetic. *)
Theorem nearbyStops_entries (ar : App.arith) (STOPS : list App.Stop) (loc : App.Loc) :
  App.nearbyStops ar STOPS None = [] /\
  (forall r, In r (App.nearbyStops ar STOPS (Some loc)) ->
             In (fst r) STOPS /\ App.distM r = distOf ar loc (fst r)) /\
  (App.nearbyStops ar STOPS (Some loc) = [] <-> STOPS = []) /\
  (List.NoDup STOPS ->
   List.NoDup (List.map fst (App.nearbyStops ar STOPS (Some loc)))).
Proof.
  split; [reflexivity | split; [| split]].
  - intros r Hr%nearbyStops_In. apply withDist_In in Hr.
    destruct Hr as (s & Hs & ->). split; [exact Hs | reflexivity].
  - rewrite nearbyStops_eq, firstn_nil_iff.
    pose proof (withDist_perm ar STOPS loc) as Hperm.
    split.
    + intros H.
      assert (Hnil : App.withDist ar STOPS loc = []).
      { destruct (List.filter App.withinRadius (App.withDist ar STOPS loc)) eqn:E;
          [exact H | discriminate H]. }
      rewrite Hnil in Hperm. apply Permutation_nil in Hperm.
      destruct STOPS; [reflexivity | discriminate].
    + intros ->. reflexivity.
  - intros Hnd.
    assert (Hall : List.NoDup (List.map fst (App.withDist ar STOPS loc))).
    { eapply Permutation.Permutation_NoDup.
      - apply Permutation_map. symmetry. apply withDist_perm.
      - rewrite List.map_map. cbn [fst]. rewrite List.map_id. exact Hnd. }
    assert (Hsub : forall l : list App.StopDist,
               List.NoDup (List.map fst l) ->
               List.NoDup (List.map fst (List.filter App.withinRadius l))).
    { induction l as [| x l IH]; cbn [List.map List.filter]; [constructor |].
      intros H. inversion H as [| ? ? Hx Hl]; subst.
      destruct (App.withinRadius x); cbn [List.map]; [| now apply IH].
      constructor; [| now apply IH].
      intros (y & Hy & Hin%filter_In)%in_map_iff. apply Hx.
      apply in_map_iff. exists y. tauto. }
    rewrite nearbyStops_eq. apply NoDup_map_firstn.
    destruct (List.filter App.withinRadius (App.withDist ar STOPS loc)) eqn:E;
      [exact Hall |]. rewrite <- E. apply Hsub, Hall.
Qed.

(** X13 for two stops on the equator, in exact arithmetic. *)
Lemma nearbyStops_entries_witness :
  let a := App.mkStop "a" "A" (App.JNumber 0) (App.JNumber 0) in
  let b := App.mkStop "b" "B" App.JNull App.JUndefined in
  List.NoDup (List.map fst (App.nearbyStops App.exact [a; b] (Some (App.mkLoc 0 0)))).
Proof.
  intros a b.
  destruct (nearbyStops_entries App.exact [a; b] (App.mkLoc 0 0)) as (_ & _ & _ & H).
  apply H. constructor.
  - intros [H1 | []]. discriminate H1.
  - constructor; [intros [] | constructor].
Defined.

(** ** The arrival index *)

Section ArrivalContents.
Import Js.

Lemma trimEnd_cons (c : ascii) (r : string) :
  trimEnd (String c r) =
  match trimEnd r with
  | EmptyString => if isWhite c then EmptyString else String c EmptyString
  | String d r' => String c (String d r')
  end.
Proof. reflexivity. Qed.

Lemma trimEnd_idem (s : string) : trimEnd (trimEnd s) = trimEnd s.
Proof.
  induction s as [| c r IH]; [reflexivity |].
  rewrite trimEnd_cons. destruct (trimEnd r) as [| d r'] eqn:E.
  - destruct (isWhite c) eqn:W; [reflexivity |]. rewrite trimEnd_cons. cbn [trimEnd].
    now rewrite W.
  - rewrite trimEnd_cons, IH. reflexivity.
Qed.

Lemma trimStart_head (s : string) :
  trimStart s = "" \/ exists c r, trimStart s = String c r /\ isWhite c = false.
Proof.
  induction s as [| c r IH]; [now left |].
  cbn [trimStart]. destruct (isWhite c) eqn:W; [exact IH |].
  right. now exists c, r.
Qed.

Lemma trimEnd_head (c : ascii) (r : string) :
  isWhite c = false -> exists r', trimEnd (String c r) = String c r'.
Proof.
  intros W. rewrite trimEnd_cons. destruct (trimEnd r) as [| d r'].
  - rewrite W. now exists "".
  - now exists (String d r').
Qed.

Lemma trim_idem (s : string) : trim (trim s) = trim s.
Proof.
  unfold trim. destruct (trimStart_head s) as [-> | (c & r & -> & W)]; [reflexivity |].
  destruct (trimEnd_head c r W) as [r' E]. rewrite E.
  cbn [trimStart]. rewrite W, <- E. apply trimEnd_idem.
Qed.

Lemma toUpperCase_empty (s : string) : toUpperCase s = "" <-> s = "".
Proof. destruct s; cbn; split; congruence. Qed.

(** No text in upper case is a property name of [Object.prototype]. *)
Lemma upper_plain (s : string) : toUpperCase s = s -> plainKey s = true.
Proof.
  intros Hs. unfold plainKey. apply negb_true_iff.
  destruct (existsb (String.eqb s) inheritedNames) eqn:E; [exfalso | reflexivity].
  apply existsb_exists in E. destruct E as (n & Hin & Hn%String.eqb_eq). subst n.
  unfold inheritedNames in Hin. cbn [In] in Hin.
  repeat (destruct Hin as [<- | Hin]; [discriminate Hs |]). exact Hin.
Qed.

Lemma eqb_empty_false (s : string) : String.eqb s "" = false <-> s <> "".
Proof. destruct (String.eqb_spec s ""); split; congruence. Qed.

Lemma normalizeTime_Some (t : option string) (s : string) :
  Arrivals.normalizeTime t = Some s <->
  exists t0, t = Some t0 /\ s = trim t0 /\ s <> "".
Proof.
  unfold Arrivals.normalizeTime. destruct t as [t0 |].
  - destruct (String.eqb_spec t0 "") as [-> | Hne].
    + split; [discriminate |]. intros (t1 & [= <-] & -> & H). now contradiction H.
    + destruct (String.eqb_spec (trim t0) "") as [E | Hs].
      * split; [discriminate |]. intros (t1 & [= <-] & -> & H). contradiction.
      * split.
        -- intros [= <-]. now exists t0.
        -- intros (t1 & [= <-] & -> & _). reflexivity.
  - split; [discriminate | intros (t0 & [=] & _)].
Qed.

Lemma latest_Some {R : Type} (p : R -> bool) (rows : list R) (r : R) :
  latest p rows = Some r -> In r rows /\ p r = true.
Proof.
  unfold latest. intros H%find_some. rewrite <- in_rev in H. exact H.
Qed.

Lemma stopToStation_lookup (stops : list Stops.row) (stopId : option string) :
  (let found := default None (fold_left Arrivals.addStop stops ∅ !! stopId) in
   if truthy found then found else stopId) = stationFor stops stopId.
Proof.
  cbn zeta.
  pose proof (fold_set_lookup (fun _ => true) Stops.stop_id
                (fun r => if truthy (Stops.parent_station r) then Stops.parent_station r
                          else Stops.stop_id r) stops ∅ stopId) as H.
  cbn [andb] in H.
  change (fold_left _ stops ∅) with (fold_left Arrivals.addStop stops ∅) in H.
  rewrite H. unfold stationFor.
  destruct (latest _ stops) as [r |] eqn:E.
  - apply latest_Some in E. destruct E as [_ Hid%bool_decide_eq_true].
    cbn [from_option Datatypes.id]. rewrite Hid.
    destruct (truthy (Stops.parent_station r)) eqn:Hp.
    + now rewrite Hp.
    + now destruct (truthy stopId).
  - rewrite lookup_empty. cbn. reflexivity.
Qed.

Lemma lineOfTrip_lookup (routes : list Routes.row) (t : Trips.row) :
  mapGet (Arrivals.routeIdToLine routes) (Trips.route_id t) = lineOfTrip routes t.
Proof.
  unfold mapGet, lineOfTrip. destruct (Trips.route_id t); [| reflexivity].
  apply routeIdToLine_lookup.
Qed.

Lemma namedRoute_name (id : string) (r : Routes.row) :
  namedRoute id r = true -> shortNameOf r <> "".
Proof.
  unfold namedRoute. intros H. apply andb_true_iff in H. destruct H as [_ H].
  apply negb_true_iff in H. now apply eqb_empty_false.
Qed.

Lemma lineOfTrip_Some (routes : list Routes.row) (t : Trips.row) (ln : string) :
  lineOfTrip routes t = Some ln ->
  exists rid r, Trips.route_id t = Some rid /\ In r routes /\ namedRoute rid r = true /\
                ln = toUpperCase (shortNameOf r) /\ ln <> "".
Proof.
  unfold lineOfTrip. destruct (Trips.route_id t) as [rid |]; [| discriminate].
  destruct (latest (namedRoute rid) routes) as [r |] eqn:E; [| discriminate].
  intros [= <-]. apply latest_Some in E. destruct E as [Hin Hn].
  exists rid, r. repeat split; try assumption.
  rewrite toUpperCase_empty. now apply namedRoute_name in Hn.
Qed.

Lemma lineOfTrip_truthy (routes : list Routes.row) (t : Trips.row) :
  truthy (lineOfTrip routes t) = bool_decide (is_Some (lineOfTrip routes t)).
Proof.
  destruct (lineOfTrip routes t) as [ln |] eqn:E.
  - destruct (lineOfTrip_Some _ _ _ E) as (_ & _ & _ & _ & _ & _ & Hne).
    rewrite bool_decide_eq_true_2 by (now exists ln).
    cbn. now apply negb_true_iff, eqb_empty_false.
  - rewrite bool_decide_eq_false_2; [reflexivity |]. intros [x Hx]. discriminate.
Qed.

Lemma tripInfo_lookup (routes : list Routes.row) (trips : list Trips.row)
    (tid : option string) :
  mapGet (fold_left (Arrivals.addTrip (Arrivals.routeIdToLine routes)) trips ∅) tid =
  tripLabel routes trips tid.
Proof.
  unfold mapGet, tripLabel. destruct tid as [tid |]; [| reflexivity].
  pose proof (fold_set_lookup
                (fun t => truthy (Trips.trip_id t)
                          && truthy (mapGet (Arrivals.routeIdToLine routes) (Trips.route_id t))
                          && truthy (Some (headsignOf t)))
                (fun t => orEmpty (Trips.trip_id t))
                (fun t => (orEmpty (mapGet (Arrivals.routeIdToLine routes) (Trips.route_id t)),
                           headsignOf t))
                trips ∅ tid) as H.
  change (fold_left _ trips ∅)
    with (fold_left (Arrivals.addTrip (Arrivals.routeIdToLine routes)) trips ∅) in H.
  rewrite H. clear H.
  rewrite (latest_ext _ (labelledTrip routes tid)).
  - destruct (latest (labelledTrip routes tid) trips) as [t |]; [| apply lookup_empty].
    cbn [option_map]. now rewrite lineOfTrip_lookup.
  - intros t. unfold labelledTrip.
    rewrite lineOfTrip_lookup, lineOfTrip_truthy, <- truthy_orEmpty. cbn [truthy].
    destruct (truthy (Trips.trip_id t)), (bool_decide (is_Some (lineOfTrip routes t))),
      (negb (String.eqb (headsignOf t) "")), (bool_decide (orEmpty (Trips.trip_id t) = tid));
      reflexivity.
Qed.

(** [pushTime] appends to the entry at its three keys, creating it when it
    is absent, and leaves every other entry as it is. *)
Lemma entryAt_pushTime (out : Arrivals.index) (sid : option string)
    (l h t st ln hs : string) :
  entryAt (Arrivals.pushTime out sid l h t) st ln hs =
  if bool_decide ((Arrivals.propKey sid, l, h) = (st, ln, hs))
  then Some (default [] (entryAt out st ln hs) ++ [t])%list
  else entryAt out st ln hs.
Proof.
  unfold entryAt, Arrivals.pushTime. cbn zeta.
  destruct (decide (Arrivals.propKey sid = st)) as [<- | Hs].
  - rewrite lookup_insert_eq.
    destruct (decide (l = ln)) as [<- | Hl].
    + rewrite lookup_insert_eq.
      destruct (decide (h = hs)) as [<- | Hh].
      * rewrite lookup_insert_eq, bool_decide_eq_true_2 by reflexivity.
        destruct (out !! Arrivals.propKey sid) as [byLine |];
          cbn [from_option Datatypes.id]; [| rewrite !lookup_empty; reflexivity].
        destruct (byLine !! l) as [byH |];
          cbn [from_option Datatypes.id]; [| rewrite !lookup_empty; reflexivity].
        reflexivity.
      * rewrite lookup_insert_ne by exact Hh.
        rewrite bool_decide_eq_false_2 by congruence.
        destruct (out !! Arrivals.propKey sid) as [byLine |];
          cbn [from_option Datatypes.id]; [| rewrite !lookup_empty; reflexivity].
        destruct (byLine !! l) as [byH |];
          cbn [from_option Datatypes.id]; [| rewrite !lookup_empty]; reflexivity.
    + rewrite lookup_insert_ne by exact Hl.
      rewrite bool_decide_eq_false_2 by congruence.
      destruct (out !! Arrivals.propKey sid) as [byLine |];
        cbn [from_option Datatypes.id]; [| rewrite !lookup_empty]; reflexivity.
  - rewrite lookup_insert_ne by exact Hs.
    rewrite bool_decide_eq_false_2 by congruence. reflexivity.
Qed.

Lemma addStopTime_filed (stops : list Stops.row) (routes : list Routes.row)
    (trips : list Trips.row) (out : Arrivals.index) (r : StopTimes.row)
    (st ln hs : string) :
  entryAt
    (Arrivals.addStopTime (fold_left Arrivals.addStop stops ∅)
       (fold_left (Arrivals.addTrip (Arrivals.routeIdToLine routes)) trips ∅) out r)
    st ln hs =
  match timesAt stops routes trips st ln hs [r] with
  | [] => entryAt out st ln hs
  | ts => Some (default [] (entryAt out st ln hs) ++ ts)%list
  end.
Proof.
  unfold Arrivals.addStopTime, timesAt, filed. cbn [flat_map].
  rewrite tripInfo_lookup, List.app_nil_r.
  destruct (Arrivals.normalizeTime (StopTimes.arrival_time r)) as [time |]; [| reflexivity].
  destruct (tripLabel routes trips (StopTimes.trip_id r)) as [[l h] |]; [| reflexivity].
  cbn [fst snd].
  pose proof (stopToStation_lookup stops (StopTimes.stop_id r)) as Hst. cbn zeta in Hst.
  rewrite Hst, entryAt_pushTime.
  destruct (bool_decide _); reflexivity.
Qed.

Lemma timesAt_cons (stops : list Stops.row) (routes : list Routes.row)
    (trips : list Trips.row) (st ln hs : string) (r : StopTimes.row)
    (rows : list StopTimes.row) :
  timesAt stops routes trips st ln hs (r :: rows) =
  (timesAt stops routes trips st ln hs [r] ++ timesAt stops routes trips st ln hs rows)%list.
Proof. unfold timesAt. cbn [flat_map]. now rewrite List.app_nil_r. Qed.

Lemma fold_addStopTime (stops : list Stops.row) (routes : list Routes.row)
    (trips : list Trips.row) (rows : list StopTimes.row) (out : Arrivals.index)
    (st ln hs : string) :
  entryAt
    (fold_left
       (Arrivals.addStopTime (fold_left Arrivals.addStop stops ∅)
          (fold_left (Arrivals.addTrip (Arrivals.routeIdToLine routes)) trips ∅))
       rows out)
    st ln hs =
  match timesAt stops routes trips st ln hs rows with
  | [] => entryAt out st ln hs
  | ts => Some (default [] (entryAt out st ln hs) ++ ts)%list
  end.
Proof.
  revert out. induction rows as [| r rows IH]; intros out; [reflexivity |].
  cbn [fold_left]. rewrite IH, timesAt_cons, addStopTime_filed.
  destruct (timesAt stops routes trips st ln hs [r]) as [| a l] eqn:E1;
    [reflexivity |].
  destruct (timesAt stops routes trips st ln hs rows) as [| b l'] eqn:E2.
  - now rewrite List.app_nil_r.
  - cbn [from_option Datatypes.id List.app]. now rewrite <- List.app_assoc.
Qed.

Lemma entryAt_finalize (out : Arrivals.index) (st ln hs : string) :
  entryAt (Arrivals.finalize out) st ln hs =
  option_map Arrivals.finalizeBucket (entryAt out st ln hs).
Proof.
  unfold entryAt, Arrivals.finalize. rewrite lookup_fmap.
  destruct (out !! st) as [byLine |]; cbn; [| reflexivity].
  rewrite lookup_fmap. destruct (byLine !! ln) as [byH |]; cbn; [| reflexivity].
  rewrite lookup_fmap. destruct (byH !! hs); reflexivity.
Qed.

Lemma main_entry (stops : list Stops.row) (routes : list Routes.row)
    (trips : list Trips.row) (stopTimes : list StopTimes.row) (st ln hs : string) :
  entryAt (Arrivals.main stops routes trips stopTimes) st ln hs =
  match timesAt stops routes trips st ln hs stopTimes with
  | [] => None
  | ts => Some (Arrivals.finalizeBucket ts)
  end.
Proof.
  unfold Arrivals.main. cbn zeta. rewrite entryAt_finalize, fold_addStopTime.
  destruct (timesAt stops routes trips st ln hs stopTimes); reflexivity.
Qed.

Lemma timesAt_In (stops : list Stops.row) (routes : list Routes.row)
    (trips : list Trips.row) (st ln hs : string) (rows : list StopTimes.row) (t : string) :
  In t (timesAt stops routes trips st ln hs rows) <->
  exists r, In r rows /\ filed stops routes trips r = Some (st, ln, hs, t).
Proof.
  unfold timesAt. rewrite in_flat_map. split.
  - intros (r & Hin & H). exists r. split; [exact Hin |].
    destruct (filed stops routes trips r) as [[[[s l] h] t'] |]; [| contradiction].
    destruct (bool_decide_reflect ((s, l, h) = (st, ln, hs))) as [[= -> -> ->] | _];
      [| contradiction].
    destruct H as [<- | []]. reflexivity.
  - intros (r & Hin & H). exists r. split; [exact Hin |]. rewrite H.
    rewrite bool_decide_eq_true_2 by reflexivity. now left.
Qed.

Lemma StronglySorted_app_le {A : Type} (le : A -> A -> Prop) (l1 l2 : list A) :
  StronglySorted le (l1 ++ l2) -> forall x y, In x l1 -> In y l2 -> le x y.
Proof.
  induction l1 as [| a l1 IH]; cbn [List.app]; intros Hs x y Hx Hy; [contradiction |].
  inversion Hs as [| ? ? Hs' Hall]; subst. destruct Hx as [<- | Hx].
  - rewrite List.Forall_forall in Hall. apply Hall, in_or_app. now right.
  - now apply IH.
Qed.

End ArrivalContents.

Section ArrivalKeys.
Import Js.

Lemma filed_Some (stops : list Stops.row) (routes : list Routes.row)
    (trips : list Trips.row) (r : StopTimes.row) (st ln hs t : string) :
  filed stops routes trips r = Some (st, ln, hs, t) <->
  Arrivals.normalizeTime (StopTimes.arrival_time r) = Some t /\
  tripLabel routes trips (StopTimes.trip_id r) = Some (ln, hs) /\
  st = Arrivals.propKey (stationFor stops (StopTimes.stop_id r)).
Proof.
  unfold filed.
  destruct (Arrivals.normalizeTime (StopTimes.arrival_time r)) as [time |].
  - destruct (tripLabel routes trips (StopTimes.trip_id r)) as [[l h] |].
    + split.
      * intros [= <- <- <- <-]. repeat split.
      * intros ([= ->] & [= -> ->] & ->). reflexivity.
    + split; [discriminate | intros (_ & [=] & _)].
  - split; [discriminate | intros ([=] & _)].
Qed.

Lemma tripLabel_Some (routes : list Routes.row) (trips : list Trips.row)
    (tid : option string) (ln hs : string) :
  tripLabel routes trips tid = Some (ln, hs) ->
  exists id t, tid = Some id /\ id <> "" /\ In t trips /\ Trips.trip_id t = Some id /\
               lineOfTrip routes t = Some ln /\ hs = headsignOf t /\ hs <> "".
Proof.
  unfold tripLabel. destruct tid as [id |]; [| discriminate].
  destruct (latest (labelledTrip routes id) trips) as [t |] eqn:E; [| discriminate].
  cbn [option_map]. intros [= <- <-].
  apply latest_Some in E. destruct E as [Hin Hl]. unfold labelledTrip in Hl.
  apply andb_true_iff in Hl. destruct Hl as [Hl Hh].
  apply andb_true_iff in Hl. destruct Hl as [Hl Hline].
  apply andb_true_iff in Hl. destruct Hl as [Hid Hne].
  apply bool_decide_eq_true in Hid, Hline. destruct Hline as [l Hline].
  apply negb_true_iff, eqb_empty_false in Hne, Hh.
  exists id, t. rewrite Hline. repeat split; assumption.
Qed.

Lemma finalizeBucket_In (arr : list string) (t : string) :
  In t (Arrivals.finalizeBucket arr) -> In t arr.
Proof.
  unfold Arrivals.finalizeBucket, slice0. intros H%In_firstn_In. now apply sort_In in H.
Qed.

Lemma finalizeBucket_nil (arr : list string) :
  Arrivals.finalizeBucket arr = [] <-> arr = [].
Proof.
  unfold Arrivals.finalizeBucket, slice0. split.
  - intros H. destruct arr as [| a l]; [reflexivity | exfalso].
    pose proof (sort_length (fun a b => String.ltb b a) (a :: l)) as Hlen.
    destruct (sort (fun a b => String.ltb b a) (a :: l)); [discriminate Hlen | discriminate H].
  - intros ->. reflexivity.
Qed.

End ArrivalKeys.

(** X14.  At a station, a line and a headsign that are not property names
    of [Object.prototype], [pushTime] appends the time to the entry at these
    keys, creating the entry when it is absent, and leaves every other entry
    as it is; a station id that is [undefined] is filed under the key
    undefined. *)
Theorem pushTime_entries (out : Arrivals.index) (sid : option string)
    (l h t : string) :
  plainKey (Arrivals.propKey sid) = true -> plainKey l = true -> plainKey h = true ->
  entryAt (Arrivals.pushTime out sid l h t) (Arrivals.propKey sid) l h =
    Some (default [] (entryAt out (Arrivals.propKey sid) l h) ++ [t])%list /\
  (forall st ln hs,
      (st, ln, hs) <> (Arrivals.propKey sid, l, h) ->
      entryAt (Arrivals.pushTime out sid l h t) st ln hs = entryAt out st ln hs) /\
  (sid = None ->
   entryAt (Arrivals.pushTime out sid l h t) "undefined" l h =
     Some (default [] (entryAt out "undefined" l h) ++ [t])%list).
Proof.
  intros _ _ _. split; [| split].
  - rewrite entryAt_pushTime. now rewrite bool_decide_eq_true_2.
  - intros st ln hs Hne. rewrite entryAt_pushTime.
    rewrite bool_decide_eq_false_2; [reflexivity | congruence].
  - intros ->. rewrite entryAt_pushTime. now rewrite bool_decide_eq_true_2.
Qed.

(** X14 for a time filed without a station id. *)
Lemma pushTime_entries_witness :
  entryAt (Arrivals.pushTime ∅ None "A" "Uptown" "08:05:00") "undefined" "A" "Uptown" =
  Some ["08:05:00"].
Proof.
  destruct (pushTime_entries ∅ None "A" "Uptown" "08:05:00") as (_ & _ & H);
    [reflexivity | reflexivity | reflexivity |].
  exact (H eq_refl).
Defined.

(** X15.  [normalizeTime] gives the trimmed text of a field that is present
    and not blank, and null otherwise; its result is already trimmed, so
    normalizing twice changes nothing. *)
Theorem normalizeTime_trimmed (t : option string) :
  (forall s, Arrivals.normalizeTime t = Some s <->
             exists t0, t = Some t0 /\ s = Js.trim t0 /\ s <> "") /\
  (forall s, Arrivals.normalizeTime t = Some s -> Js.trim s = s) /\
  Arrivals.normalizeTime (Arrivals.normalizeTime t) = Arrivals.normalizeTime t.
Proof.
  split; [intros s; apply normalizeTime_Some | split].
  - intros s (t0 & _ & -> & _)%normalizeTime_Some. apply trim_idem.
  - destruct (Arrivals.normalizeTime t) as [s |] eqn:E; [| reflexivity].
    apply normalizeTime_Some in E. destruct E as (t0 & _ & -> & Hne).
    apply normalizeTime_Some. exists (Js.trim t0).
    split; [reflexivity |]. split; [now rewrite trim_idem | exact Hne].
Qed.

(** X16.  The finalization of a bucket keeps its smallest clock strings:
    the bucket is the kept list together with a rest none of whose strings
    is below a kept one; the kept list has 120 entries, or all when there are
    fewer; a bucket of at most 120 entries only gets reordered. *)
Theorem finalizeBucket_keeps_smallest (arr : list string) :
  (exists rest,
      Permutation arr (Arrivals.finalizeBucket arr ++ rest) /\
      forall x y, In x (Arrivals.finalizeBucket arr) -> In y rest -> lexLe x y) /\
  List.length (Arrivals.finalizeBucket arr) = Nat.min 120 (List.length arr) /\
  ((List.length arr <= 120)%nat -> Permutation arr (Arrivals.finalizeBucket arr)).
Proof.
  unfold Arrivals.finalizeBucket, Js.slice0.
  set (sorted := Js.sort (fun a b => String.ltb b a) arr).
  assert (Hperm : Permutation arr sorted) by (symmetry; apply sort_perm).
  assert (Hs : StronglySorted lexLe sorted).
  { apply (sort_sorted _ (fun _ => True)).
    - intros x y _ _. apply lexLe_of_not_gt.
    - intros x y _ _. apply lexLe_of_gt.
    - apply lexLe_trans.
    - rewrite List.Forall_forall. trivial. }
  split; [| split].
  - exists (skipn 120 sorted). rewrite List.firstn_skipn. split; [exact Hperm |].
    rewrite <- (List.firstn_skipn 120 sorted) in Hs.
    apply StronglySorted_app_le. exact Hs.
  - rewrite List.length_firstn. unfold sorted. now rewrite sort_length.
  - intros Hlen. rewrite List.firstn_all2; [exact Hperm |].
    unfold sorted. now rewrite sort_length.
Qed.

(** X16 on a bucket of three times. *)
Lemma finalizeBucket_keeps_smallest_witness :
  Permutation ["08:05:00"; "25:10:00"; "07:59:00"]
    (Arrivals.finalizeBucket ["08:05:00"; "25:10:00"; "07:59:00"]).
Proof.
  destruct (finalizeBucket_keeps_smallest ["08:05:00"; "25:10:00"; "07:59:00"])
    as (_ & _ & H).
  apply H. cbn. lia.
Defined.

(** X17.  For a feed in which no row files a time under a station or a
    headsign that is a property name of [Object.prototype] (the lines, being
    in upper case, never are): the entry of the finished index at a
    station, a line and a headsign is the finalized list of the times that
    the rows of [stop_times.txt] file there, in row order, and is absent
    when no row files a time there; no entry is empty, and every time of an
    entry is the normalized arrival time of a row whose trip carries the
    line and the headsign and whose stop belongs to the station. *)
Theorem arrival_index_contents (stops : list Stops.row) (routes : list Routes.row)
    (trips : list Trips.row) (stopTimes : list StopTimes.row) (st ln hs : string) :
  (forall r st' ln' hs' t,
      In r stopTimes -> filed stops routes trips r = Some (st', ln', hs', t) ->
      plainKey st' = true /\ plainKey hs' = true) ->
  (forall r st' ln' hs' t,
      In r stopTimes -> filed stops routes trips r = Some (st', ln', hs', t) ->
      plainKey ln' = true) /\
  entryAt (Arrivals.main stops routes trips stopTimes) st ln hs =
    match timesAt stops routes trips st ln hs stopTimes with
    | [] => None
    | ts => Some (Arrivals.finalizeBucket ts)
    end /\
  (forall t, In t (timesAt stops routes trips st ln hs stopTimes) <->
             exists r, In r stopTimes /\
                       Arrivals.normalizeTime (StopTimes.arrival_time r) = Some t /\
                       tripLabel routes trips (StopTimes.trip_id r) = Some (ln, hs) /\
                       st = Arrivals.propKey (stationFor stops (StopTimes.stop_id r))) /\
  (forall arr,
      entryAt (Arrivals.main stops routes trips stopTimes) st ln hs = Some arr ->
      arr <> [] /\
      forall t, In t arr -> In t (timesAt stops routes trips st ln hs stopTimes)).
Proof.
  intros _. split; [| split; [apply main_entry | split]].
  - intros r st' ln' hs' t _ Hf. apply filed_Some in Hf. destruct Hf as (_ & Hlab & _).
    destruct (tripLabel_Some _ _ _ _ _ Hlab) as (id & tr & _ & _ & _ & _ & Hline & _).
    destruct (lineOfTrip_Some _ _ _ Hline) as (rid & rt & _ & _ & _ & Hln & _).
    apply upper_plain. rewrite Hln. apply toUpperCase_idem.
  - intros t. rewrite timesAt_In. split; intros (r & Hin & H); exists r;
      (split; [exact Hin |]); now apply filed_Some.
  - intros arr. rewrite main_entry.
    destruct (timesAt stops routes trips st ln hs stopTimes) as [| t0 ts] eqn:E;
      [discriminate |].
    intros [= <-]. split.
    + rewrite finalizeBucket_nil. discriminate.
    + intros t. apply finalizeBucket_In.
Qed.

(** X17 on a feed of one arrival. *)
Lemma arrival_index_contents_witness :
  let stops := [Stops.mk (Some "S1N") (Some "S1")] in
  let routes := [Routes.mk (Some "R") (Some "a") (Some "1")] in
  let trips := [Trips.mk (Some "T") (Some "R") (Some "Uptown") (Some "0") (Some "sh")] in
  let stopTimes := [StopTimes.mk (Some "T") (Some "S1N") (Some "08:05:00")] in
  entryAt (Arrivals.main stops routes trips stopTimes) "S1" "A" "Uptown" =
  match timesAt stops routes trips "S1" "A" "Uptown" stopTimes with
  | [] => None
  | ts => Some (Arrivals.finalizeBucket ts)
  end.
Proof.
  intros stops routes trips stopTimes.
  destruct (arrival_index_contents stops routes trips stopTimes "S1" "A" "Uptown")
    as (_ & H & _); [| exact H].
  intros r st' ln' hs' t [<- | []] Hf.
  vm_compute in Hf. injection Hf as <- <- <- <-. split; reflexivity.
Defined.

(** X18.  Every entry of the finished index sits under a line that is the
    upper-case short name of a named route and under a headsign that is
    trimmed and not empty, and holds only times that are trimmed and not
    empty. *)
Theorem arrival_index_keys (stops : list Stops.row) (routes : list Routes.row)
    (trips : list Trips.row) (stopTimes : list StopTimes.row) (st ln hs : string)
    (arr : list string) :
  entryAt (Arrivals.main stops routes trips stopTimes) st ln hs = Some arr ->
  (exists rid r, In r routes /\ namedRoute rid r = true /\
                 ln = Js.toUpperCase (shortNameOf r)) /\
  ln <> "" /\ Js.toUpperCase ln = ln /\
  hs <> "" /\ Js.trim hs = hs /\
  Forall (fun t => t <> "" /\ Js.trim t = t) arr.
Proof.
  rewrite main_entry.
  destruct (timesAt stops routes trips st ln hs stopTimes) as [| t0 ts] eqn:E;
    [discriminate |].
  intros [= <-].
  assert (H0 : In t0 (timesAt stops routes trips st ln hs stopTimes))
    by (rewrite E; now left).
  apply timesAt_In in H0. destruct H0 as (r0 & _ & Hf%filed_Some).
  destruct Hf as (_ & Hlab & _).
  destruct (tripLabel_Some _ _ _ _ _ Hlab) as (id & t & _ & _ & _ & _ & Hline & Hhs & Hne).
  destruct (lineOfTrip_Some _ _ _ Hline) as (rid & r & _ & Hin & Hn & Hln & Hlne).
  split; [now exists rid, r |].
  split; [exact Hlne |].
  split; [rewrite Hln; apply toUpperCase_idem |].
  split; [exact Hne |].
  split; [rewrite Hhs; apply trim_idem |].
  rewrite List.Forall_forall. intros x Hx%finalizeBucket_In.
  rewrite <- E in Hx. apply timesAt_In in Hx. destruct Hx as (rx & _ & Hfx%filed_Some).
  destruct Hfx as (Hnt & _).
  apply normalizeTime_Some in Hnt. destruct Hnt as (x0 & _ & -> & Hxne).
  split; [exact Hxne | apply trim_idem].
Qed.

(** X18 on a small feed whose route name, headsign and time carry spaces
    and lower-case letters. *)
Lemma arrival_index_keys_witness :
  let stops := [Stops.mk (Some "S1N") (Some "S1")] in
  let routes := [Routes.mk (Some "R") (Some " a ") (Some "1")] in
  let trips := [Trips.mk (Some "T") (Some "R") (Some " Uptown ") (Some "0") (Some "sh")] in
  let stopTimes := [StopTimes.mk (Some "T") (Some "S1N") (Some " 08:05:00")] in
  entryAt (Arrivals.main stops routes trips stopTimes) "S1" "A" "Uptown" = Some ["08:05:00"] /\
  Js.toUpperCase "A" = "A" /\ Js.trim "Uptown" = "Uptown".
Proof.
  intros stops routes trips stopTimes.
  assert (H : entryAt (Arrivals.main stops routes trips stopTimes) "S1" "A" "Uptown" =
              Some ["08:05:00"]) by (vm_compute; reflexivity).
  destruct (arrival_index_keys stops routes trips stopTimes "S1" "A" "Uptown" _ H)
    as (_ & _ & Hl & _ & Hh & _).
  split; [exact H | split; [exact Hl | exact Hh]].
Defined.

(** ** The lines of a station *)

Section StationLines.
Import Js BuildStationToLines.

Lemma kget_kset {V : Type} (m : kmap V) (k k' : option string) (v : V) :
  kget (kset m k v) k' = if bool_decide (k = k') then Some v else kget m k'.
Proof.
  induction m as [| [k0 v0] m IH]; cbn [kset kget].
  - destruct (bool_decide (k = k')); reflexivity.
  - destruct (bool_decide_reflect (k0 = k)) as [-> | Hne]; cbn [kget].
    + destruct (bool_decide (k = k')); reflexivity.
    + rewrite IH. destruct (bool_decide_reflect (k0 = k')) as [-> | Hne'];
        [| reflexivity].
      rewrite bool_decide_eq_false_2 by congruence. reflexivity.
Qed.

Lemma kset_keys {V : Type} (m : kmap V) (k : option string) (v : V) (k' : option string) :
  In k' (List.map fst (kset m k v)) <-> k' = k \/ In k' (List.map fst m).
Proof.
  induction m as [| [k0 v0] m IH]; cbn [kset List.map fst In].
  - intuition congruence.
  - destruct (bool_decide_reflect (k0 = k)) as [-> | Hne]; cbn [List.map fst In].
    + intuition congruence.
    + rewrite IH. intuition congruence.
Qed.

Lemma kset_NoDup {V : Type} (m : kmap V) (k : option string) (v : V) :
  List.NoDup (List.map fst m) -> List.NoDup (List.map fst (kset m k v)).
Proof.
  induction m as [| [k0 v0] m IH]; cbn [kset List.map fst]; intros H.
  - constructor; [intros [] | constructor].
  - inversion H as [| ? ? Hk0 Hm]; subst.
    destruct (bool_decide_reflect (k0 = k)) as [-> | Hne]; cbn [List.map fst].
    + constructor; assumption.
    + constructor; [| now apply IH].
      rewrite kset_keys. intros [-> | Hin]; [now apply Hne | contradiction].
Qed.

Lemma kget_In {V : Type} (m : kmap V) (k : option string) (v : V) :
  kget m k = Some v -> In (k, v) m.
Proof.
  induction m as [| [k0 v0] m IH]; cbn [kget]; [discriminate |].
  destruct (bool_decide_reflect (k0 = k)) as [-> | _].
  - intros [= ->]. now left.
  - intros H. right. now apply IH.
Qed.

Lemma kget_of_In {V : Type} (m : kmap V) (k : option string) (v : V) :
  List.NoDup (List.map fst m) -> In (k, v) m -> kget m k = Some v.
Proof.
  induction m as [| [k0 v0] m IH]; cbn [kget List.map fst]; intros Hnd Hin; [contradiction |].
  inversion Hnd as [| ? ? Hk0 Hm]; subst. destruct Hin as [[= -> ->] | Hin].
  - now rewrite bool_decide_eq_true_2.
  - destruct (bool_decide_reflect (k0 = k)) as [-> | _]; [| now apply IH].
    exfalso. apply Hk0. apply in_map_iff. now exists (k, v).
Qed.

Lemma setAdd_In (s : list string) (x y : string) :
  In y (setAdd s x) <-> In y s \/ y = x.
Proof.
  unfold setAdd. destruct (existsb (String.eqb x) s) eqn:E.
  - apply existsb_exists in E. destruct E as (z & Hz & ->%String.eqb_eq).
    intuition congruence.
  - rewrite in_app_iff. cbn [In]. intuition congruence.
Qed.

Lemma setAdd_NoDup (s : list string) (x : string) :
  List.NoDup s -> List.NoDup (setAdd s x).
Proof.
  intros H. unfold setAdd. destruct (existsb (String.eqb x) s) eqn:E; [exact H |].
  assert (Hx : ~ In x s).
  { intros Hin. assert (Ht : existsb (String.eqb x) s = true).
    { apply existsb_exists. exists x. split; [exact Hin | apply String.eqb_refl]. }
    congruence. }
  clear E. induction H as [| a s Ha Hs IH]; cbn [List.app].
  - constructor; [intros [] | constructor].
  - constructor.
    + rewrite in_app_iff. cbn [In]. intros [Hin | [-> | []]]; [contradiction |].
      apply Hx. now left.
    + apply IH. intros Hin. apply Hx. now right.
Qed.

Lemma setAdd_nonempty (s : list string) (x : string) : setAdd s x <> [].
Proof.
  unfold setAdd. destruct (existsb (String.eqb x) s) eqn:E.
  - destruct s; [discriminate E | discriminate].
  - destruct s; discriminate.
Qed.

Lemma tripLine_Some (routes : list Routes.row) (trips : list Trips.row)
    (tid : option string) (ln : string) :
  tripLine routes trips tid = Some ln ->
  exists id t, tid = Some id /\ id <> "" /\ In t trips /\ Trips.trip_id t = Some id /\
               lineOfTrip routes t = Some ln.
Proof.
  unfold tripLine. destruct tid as [id |]; [| discriminate].
  destruct (latest (lineTrip routes id) trips) as [t |] eqn:E; [| discriminate].
  intros Hline. apply latest_Some in E. destruct E as [Hin Hl]. unfold lineTrip in Hl.
  apply andb_true_iff in Hl. destruct Hl as [Hl _].
  apply andb_true_iff in Hl. destruct Hl as [Hid Hne].
  apply bool_decide_eq_true in Hid. apply negb_true_iff, eqb_empty_false in Hne.
  exists id, t. repeat split; assumption.
Qed.

Lemma shortOfTrip_lookup (routes : list Routes.row) (t : Trips.row) :
  mapGet (StationToLines.routeIdToShort routes) (Trips.route_id t) = lineOfTrip routes t.
Proof.
  unfold mapGet, lineOfTrip. destruct (Trips.route_id t); [| reflexivity].
  apply routeIdToShort_lookup.
Qed.

Lemma tripToLine_lookup (routes : list Routes.row) (trips : list Trips.row)
    (tid : option string) :
  mapGet (fold_left (addTrip (StationToLines.routeIdToShort routes)) trips ∅) tid =
  tripLine routes trips tid.
Proof.
  unfold mapGet, tripLine. destruct tid as [tid |]; [| reflexivity].
  pose proof (fold_set_lookup
                (fun t => truthy (Trips.trip_id t)
                          && truthy (mapGet (StationToLines.routeIdToShort routes)
                                       (Trips.route_id t)))
                (fun t => orEmpty (Trips.trip_id t))
                (fun t => orEmpty (mapGet (StationToLines.routeIdToShort routes)
                                     (Trips.route_id t)))
                trips ∅ tid) as H.
  change (fold_left _ trips ∅)
    with (fold_left (addTrip (StationToLines.routeIdToShort routes)) trips ∅) in H.
  rewrite H. clear H.
  rewrite (latest_ext _ (lineTrip routes tid)).
  - destruct (latest (lineTrip routes tid) trips) as [t |] eqn:E; [| apply lookup_empty].
    apply latest_Some in E. destruct E as [_ Hl]. unfold lineTrip in Hl.
    apply andb_true_iff in Hl. destruct Hl as [_ Hs]. apply bool_decide_eq_true in Hs.
    rewrite shortOfTrip_lookup. destruct Hs as [l ->]. reflexivity.
  - intros t. unfold lineTrip.
    rewrite shortOfTrip_lookup, lineOfTrip_truthy, <- truthy_orEmpty.
    destruct (truthy (Trips.trip_id t)), (bool_decide (is_Some (lineOfTrip routes t))),
      (bool_decide (orEmpty (Trips.trip_id t) = tid)); reflexivity.
Qed.

Lemma tripLine_truthy (routes : list Routes.row) (trips : list Trips.row)
    (tid : option string) (ln : string) :
  tripLine routes trips tid = Some ln -> truthy (Some ln) = true.
Proof.
  intros (_ & t & _ & _ & _ & _ & Hl)%tripLine_Some.
  destruct (lineOfTrip_Some _ _ _ Hl) as (_ & _ & _ & _ & _ & _ & Hne).
  cbn. now apply negb_true_iff, eqb_empty_false.
Qed.

Lemma addStopTime_eq (stops : list Stops.row) (routes : list Routes.row)
    (trips : list Trips.row) (K : kmap (list string)) (r : StopTimes.row) :
  addStopTime (stopToStation stops)
    (fold_left (addTrip (StationToLines.routeIdToShort routes)) trips ∅) K r =
  match tripLine routes trips (StopTimes.trip_id r) with
  | Some ln =>
      let k := stationFor stops (StopTimes.stop_id r) in
      kset K k (setAdd (default [] (kget K k)) ln)
  | None => K
  end.
Proof.
  unfold addStopTime. cbn zeta. rewrite tripToLine_lookup.
  destruct (tripLine routes trips (StopTimes.trip_id r)) as [ln |] eqn:E; [| reflexivity].
  rewrite (tripLine_truthy _ _ _ _ E). cbn [negb].
  pose proof (stopToStation_lookup stops (StopTimes.stop_id r)) as Hst. cbn zeta in Hst.
  unfold stopToStation. rewrite Hst. reflexivity.
Qed.

(** The state of the [Map] of sets after the rows [rows]: keys without
    repeats, and under every key a set without repeats that holds exactly
    the lines put there by a row. *)
Lemma stationToLines_inv (stops : list Stops.row) (routes : list Routes.row)
    (trips : list Trips.row) (rows : list StopTimes.row) :
  let K := fold_left
             (addStopTime (stopToStation stops)
                (fold_left (addTrip (StationToLines.routeIdToShort routes)) trips ∅))
             rows [] in
  List.NoDup (List.map fst K) /\
  (forall k lines, kget K k = Some lines -> List.NoDup lines /\ lines <> []) /\
  (forall k ln, In ln (default [] (kget K k)) <->
                exists r, In r rows /\ serves stops routes trips k ln r).
Proof.
  induction rows as [| r rows IH] using rev_ind.
  - cbn. split; [constructor | split].
    + discriminate.
    + intros k ln. split; [contradiction | intros (r & [] & _)].
  - rewrite fold_left_app. cbn [fold_left]. cbn zeta in *.
    set (K := fold_left
                (addStopTime (stopToStation stops)
                   (fold_left (addTrip (StationToLines.routeIdToShort routes)) trips ∅))
                rows []) in *.
    destruct IH as (Hnd & Hsets & Hmem).
    rewrite addStopTime_eq.
    destruct (tripLine routes trips (StopTimes.trip_id r)) as [ln |] eqn:E.
    + cbn zeta. set (k0 := stationFor stops (StopTimes.stop_id r)).
      split; [now apply kset_NoDup | split].
      * intros k lines. rewrite kget_kset.
        destruct (bool_decide_reflect (k0 = k)) as [<- | Hne]; [| apply Hsets].
        intros [= <-]. split; [| apply setAdd_nonempty].
        apply setAdd_NoDup. destruct (kget K k0) as [l0 |] eqn:E0.
        -- apply (Hsets k0 l0 E0).
        -- constructor.
      * intros k l. rewrite kget_kset.
        destruct (bool_decide_reflect (k0 = k)) as [<- | Hne].
        -- cbn [from_option Datatypes.id]. rewrite setAdd_In, Hmem. split.
           ++ intros [(r' & Hin & Hs) | ->].
              ** exists r'. split; [apply in_or_app; now left | exact Hs].
              ** exists r. split; [apply in_or_app; right; now left |].
                 split; [reflexivity | exact E].
           ++ intros (r' & Hin & Hs). apply in_app_or in Hin.
              destruct Hin as [Hin | [<- | []]].
              ** left. now exists r'.
              ** right. destruct Hs as [_ Hs]. congruence.
        -- rewrite Hmem. split.
           ++ intros (r' & Hin & Hs). exists r'. split; [apply in_or_app; now left | exact Hs].
           ++ intros (r' & Hin & Hs). apply in_app_or in Hin.
              destruct Hin as [Hin | [<- | []]]; [now exists r' |].
              destruct Hs as [Hs _]. contradiction.
    + split; [exact Hnd | split; [exact Hsets |]].
      intros k l. rewrite Hmem. split.
      * intros (r' & Hin & Hs). exists r'. split; [apply in_or_app; now left | exact Hs].
      * intros (r' & Hin & Hs). apply in_app_or in Hin.
        destruct Hin as [Hin | [<- | []]]; [now exists r' |].
        destruct Hs as [_ Hs]. congruence.
Qed.

Lemma main_lookup (stops : list Stops.row) (routes : list Routes.row)
    (trips : list Trips.row) (stopTimes : list StopTimes.row) (st : string) :
  main stops routes trips stopTimes !! st =
  option_map (fun e => sort (fun a b => String.ltb b a) (snd e))
    (latest (fun e => negb (String.eqb (Arrivals.propKey (fst e)) "__proto__")
                      && bool_decide (Arrivals.propKey (fst e) = st))
       (stationToLines stops routes trips stopTimes)).
Proof.
  unfold main.
  pose proof (fold_set_lookup
                (fun e : option string * list string =>
                   negb (String.eqb (Arrivals.propKey (fst e)) "__proto__"))
                (fun e : option string * list string => Arrivals.propKey (fst e))
                (fun e => sort (fun a b => String.ltb b a) (snd e))
                (stationToLines stops routes trips stopTimes) ∅ st) as H.
  change (fold_left _ (stationToLines stops routes trips stopTimes) ∅)
    with (fold_left addOutput (stationToLines stops routes trips stopTimes) ∅) in H.
  rewrite H. destruct (latest _ _); [reflexivity | apply lookup_empty].
Qed.

Lemma lexSort_sorted (l : list string) :
  StronglySorted lexLe (sort (fun a b => String.ltb b a) l).
Proof.
  apply (sort_sorted _ (fun _ => True)).
  - intros x y _ _. apply lexLe_of_not_gt.
  - intros x y _ _. apply lexLe_of_gt.
  - apply lexLe_trans.
  - rewrite List.Forall_forall. trivial.
Qed.

End StationLines.

Section StationLinesOut.
Import Js BuildStationToLines.

Lemma latest_none {R : Type} (p : R -> bool) (rows : list R) :
  (forall r, p r = false) -> latest p rows = None.
Proof.
  intros Hp. unfold latest. induction (rev rows) as [| r l IH]; [reflexivity |].
  cbn [List.find]. now rewrite Hp.
Qed.

Lemma latest_kget {V : Type} (K : kmap V) (k : option string) :
  List.NoDup (List.map fst K) ->
  latest (fun e => bool_decide (fst e = k)) K = option_map (pair k) (kget K k).
Proof.
  intros Hnd. destruct (latest _ K) as [[k' v] |] eqn:E.
  - apply latest_Some in E. destruct E as [Hin Hk%bool_decide_eq_true].
    cbn [fst] in Hk. subst k'. now rewrite (kget_of_In K k v Hnd Hin).
  - destruct (kget K k) as [v |] eqn:Eg; [exfalso | reflexivity].
    apply kget_In in Eg. unfold latest in E.
    pose proof (find_none _ _ E (k, v)) as Hf. cbn [fst] in Hf.
    rewrite bool_decide_eq_true_2 in Hf by reflexivity.
    discriminate Hf. now apply in_rev in Eg.
Qed.

Lemma propKey_eq (k : option string) (st : string) :
  st <> "undefined" -> (Arrivals.propKey k = st <-> k = Some st).
Proof.
  intros Hne. destruct k as [s |]; cbn.
  - split; [now intros -> | now intros [= ->]].
  - split; [intros <-; now contradiction Hne | discriminate].
Qed.

Lemma sorted_strict (l : list string) :
  StronglySorted lexLe l -> List.NoDup l -> StronglySorted String_as_OT.lt l.
Proof.
  induction 1 as [| a l Hs IH Hall]; intros Hnd; constructor.
  - apply IH. now inversion Hnd.
  - inversion Hnd as [| ? ? Ha _]; subst. rewrite List.Forall_forall in *.
    intros x Hx. destruct (Hall x Hx) as [-> | Hlt]; [contradiction | exact Hlt].
Qed.

Lemma stationToLines_entry (stops : list Stops.row) (routes : list Routes.row)
    (trips : list Trips.row) (stopTimes : list StopTimes.row)
    (k : option string) (set : list string) :
  In (k, set) (stationToLines stops routes trips stopTimes) ->
  List.NoDup set /\ set <> [] /\
  forall ln, In ln set <-> exists r, In r stopTimes /\ serves stops routes trips k ln r.
Proof.
  intros Hin.
  destruct (stationToLines_inv stops routes trips stopTimes) as (Hnd & Hsets & Hmem).
  apply (kget_of_In _ _ _ Hnd) in Hin.
  destruct (Hsets k set Hin) as [H1 H2]. split; [exact H1 | split; [exact H2 |]].
  intros ln. rewrite <- Hmem.
  unfold stationToLines in Hin. cbn zeta in Hin. rewrite Hin. reflexivity.
Qed.

End StationLinesOut.

(** X19.  The list written for a station is not empty and strictly
    ascending in the order of its code units, so it names no line twice, and
    every line of it is the upper-case short name of a named route, put
    there by a row of [stop_times.txt]. *)
Theorem station_lines_list (stops : list Stops.row) (routes : list Routes.row)
    (trips : list Trips.row) (stopTimes : list StopTimes.row)
    (st : string) (lines : list string) :
  BuildStationToLines.main stops routes trips stopTimes !! st = Some lines ->
  lines <> [] /\
  StronglySorted String_as_OT.lt lines /\
  List.NoDup lines /\
  Forall
    (fun ln =>
       ln <> "" /\ Js.toUpperCase ln = ln /\
       (exists rid r, In r routes /\ namedRoute rid r = true /\
                      ln = Js.toUpperCase (shortNameOf r)) /\
       exists k r, Arrivals.propKey k = st /\ In r stopTimes /\
                   serves stops routes trips k ln r)
    lines.
Proof.
  rewrite main_lookup.
  destruct (latest _ _) as [[k set] |] eqn:E; [| discriminate].
  cbn [option_map snd]. intros [= <-].
  apply latest_Some in E. destruct E as [Hin Hk]. apply andb_true_iff in Hk.
  destruct Hk as [_ Hk%bool_decide_eq_true]. cbn [fst] in Hk.
  destruct (stationToLines_entry _ _ _ _ _ _ Hin) as (Hnd & Hne & Hmem).
  assert (Hnd' : List.NoDup (Js.sort (fun a b => String.ltb b a) set)).
  { eapply Permutation.Permutation_NoDup; [symmetry; apply sort_perm | exact Hnd]. }
  split; [| split; [| split]].
  - intros Hnil. apply Hne.
    pose proof (sort_length (fun a b => String.ltb b a) set) as Hlen.
    rewrite Hnil in Hlen. destruct set; [reflexivity | discriminate Hlen].
  - apply sorted_strict; [apply lexSort_sorted | exact Hnd'].
  - exact Hnd'.
  - rewrite List.Forall_forall. intros ln Hln%sort_In.
    apply Hmem in Hln. destruct Hln as (r & Hr & Hs).
    pose proof Hs as [_ Hline].
    destruct (tripLine_Some _ _ _ _ Hline) as (_ & t & _ & _ & _ & _ & Hl).
    destruct (lineOfTrip_Some _ _ _ Hl) as (rid & rt & _ & Hrt & Hn & Heq & Hlne).
    split; [exact Hlne |].
    split; [rewrite Heq; apply toUpperCase_idem |].
    split; [now exists rid, rt |].
    now exists k, r.
Qed.

(** X19 on a feed with two routes at one station. *)
Lemma station_lines_list_witness :
  let stops := [Stops.mk (Some "S1N") (Some "S1")] in
  let routes := [Routes.mk (Some "R") (Some "z") (Some "1");
                 Routes.mk (Some "Q") (Some "j") (Some "1")] in
  let trips := [Trips.mk (Some "T") (Some "R") (Some "Uptown") (Some "0") (Some "sh");
                Trips.mk (Some "U") (Some "Q") (Some "Uptown") (Some "0") (Some "sh")] in
  let stopTimes := [StopTimes.mk (Some "T") (Some "S1N") (Some "08:05:00");
                    StopTimes.mk (Some "U") (Some "S1N") (Some "08:06:00");
                    StopTimes.mk (Some "T") (Some "S1N") (Some "08:07:00")] in
  BuildStationToLines.main stops routes trips stopTimes !! "S1" = Some ["J"; "Z"] /\
  List.NoDup ["J"; "Z"].
Proof.
  intros stops routes trips stopTimes.
  assert (H : BuildStationToLines.main stops routes trips stopTimes !! "S1" =
              Some ["J"; "Z"]) by (vm_compute; reflexivity).
  destruct (station_lines_list stops routes trips stopTimes "S1" _ H) as (_ & _ & Hnd & _).
  split; [exact H | exact Hnd].
Defined.

(** X20.  At a station key other than the texts undefined and [__proto__],
    a line is listed exactly when a row of [stop_times.txt] puts it there:
    the trip of the row has a line and the stop of the row is filed under
    the station.  Nothing is written under the key [__proto__]. *)
Theorem station_lines_membership (stops : list Stops.row) (routes : list Routes.row)
    (trips : list Trips.row) (stopTimes : list StopTimes.row) (st ln : string) :
  st <> "undefined" -> st <> "__proto__" ->
  ((exists lines,
       BuildStationToLines.main stops routes trips stopTimes !! st = Some lines /\
       In ln lines) <->
   (exists r, In r stopTimes /\ serves stops routes trips (Some st) ln r)) /\
  BuildStationToLines.main stops routes trips stopTimes !! "__proto__" = None.
Proof.
  intros Hst Hproto. split.
  - rewrite main_lookup.
    rewrite (latest_ext _ (fun e => bool_decide (fst e = Some st))).
    2:{ intros e.
        destruct (bool_decide_reflect (Arrivals.propKey (fst e) = st)) as [He | He].
        - rewrite He. apply String.eqb_neq in Hproto. rewrite Hproto. cbn [negb andb].
          symmetry. apply bool_decide_eq_true. now apply propKey_eq.
        - rewrite andb_false_r. symmetry. apply bool_decide_eq_false.
          intros Hk. apply He. now apply propKey_eq. }
    destruct (stationToLines_inv stops routes trips stopTimes) as (Hnd & _ & Hmem).
    cbn zeta in Hnd, Hmem.
    fold (BuildStationToLines.stationToLines stops routes trips stopTimes) in Hnd, Hmem.
    rewrite (latest_kget _ _ Hnd), <- (Hmem (Some st) ln).
    destruct (BuildStationToLines.kget _ (Some st)) as [set |]; cbn.
    + split.
      * intros (lines & [= <-] & Hin). now apply sort_In in Hin.
      * intros Hin. eexists. split; [reflexivity |]. now apply sort_In.
    + split; [intros (lines & [=] & _) | contradiction].
  - rewrite main_lookup. rewrite latest_none; [reflexivity |].
    intros e. destruct (String.eqb_spec (Arrivals.propKey (fst e)) "__proto__") as [He | He].
    + reflexivity.
    + cbn [negb andb]. now apply bool_decide_eq_false.
Qed.

(** X20 for a platform whose stop has no parent station. *)
Lemma station_lines_membership_witness :
  let routes := [Routes.mk (Some "R") (Some "z") (Some "1")] in
  let trips := [Trips.mk (Some "T") (Some "R") (Some "Uptown") (Some "0") (Some "sh")] in
  let stopTimes := [StopTimes.mk (Some "T") (Some "S9") (Some "08:05:00")] in
  exists lines,
    BuildStationToLines.main [] routes trips stopTimes !! "S9" = Some lines /\ In "Z" lines.
Proof.
  intros routes trips stopTimes.
  destruct (station_lines_membership [] routes trips stopTimes "S9" "Z") as [H _];
    [discriminate | discriminate |].
  apply H.
  exists (StopTimes.mk (Some "T") (Some "S9") (Some "08:05:00")).
  split; [now left |]. split; reflexivity.
Defined.

(** ** The lines of the route shapes *)

Section ShapeLines.
Import Js RouteShapes.

Lemma chosen_dec (chosen : list string) (s : string) :
  existsb (String.eqb s) chosen = true <-> In s chosen.
Proof.
  rewrite existsb_exists. split.
  - intros (x & Hx & ->%String.eqb_eq). exact Hx.
  - intros H. exists s. split; [exact H | apply String.eqb_refl].
Qed.

Lemma addShape_lookup (chosen : list string) (m : gmap string (list Point))
    (p : Shapes.row) (s : string) :
  addShape chosen m p !! s =
  if validPoint s p && negb (String.eqb s "") && existsb (String.eqb s) chosen
  then Some (default [] (m !! s) ++ [pointOf p])%list
  else m !! s.
Proof.
  unfold addShape, validPoint, pointOf.
  destruct (Shapes.shape_id p) as [sid |] eqn:Esid;
    [change (orEmpty (Some sid)) with sid |]; cbn [truthy negb orb].
  - destruct (String.eqb_spec sid "") as [-> | Hsid]; cbn [negb orb].
    + destruct (bool_decide_reflect (Some "" = Some s)) as [[= <-] | Hne];
        [| reflexivity].
      cbn. now rewrite andb_false_r.
    + destruct (bool_decide_reflect (Some sid = Some s)) as [[= <-] | Hne].
      * rewrite (proj2 (eqb_empty_false sid) Hsid). cbn [negb andb].
        destruct (existsb (String.eqb sid) chosen); cbn [negb];
          [| now rewrite andb_false_r].
        rewrite andb_true_r.
        destruct (Shapes.shape_pt_lat p) as [la |], (Shapes.shape_pt_lon p) as [lo |],
          (Shapes.shape_pt_sequence p) as [sq |];
          rewrite ?(bool_decide_eq_true_2 (is_Some (Some _))) by (eexists; reflexivity);
          rewrite ?(bool_decide_eq_false_2 (is_Some None)) by (intros [? [=]]);
          cbn [andb]; try reflexivity.
        now rewrite lookup_insert_eq.
      * cbn [andb].
        destruct (existsb (String.eqb sid) chosen); cbn [negb]; [| reflexivity].
        destruct (Shapes.shape_pt_lat p) as [la |], (Shapes.shape_pt_lon p) as [lo |],
          (Shapes.shape_pt_sequence p) as [sq |]; try reflexivity.
        rewrite lookup_insert_ne; [reflexivity | congruence].
  - rewrite bool_decide_eq_false_2 by discriminate. reflexivity.
Qed.

Lemma rawPoints_lookup (chosen : list string) (shapes : list Shapes.row) (s : string) :
  fold_left (addShape chosen) shapes ∅ !! s =
  if negb (String.eqb s "") && existsb (String.eqb s) chosen
  then match validPoints shapes s with
       | [] => None
       | vs => Some (List.map pointOf vs)
       end
  else None.
Proof.
  unfold validPoints. induction shapes as [| p shapes IH] using rev_ind.
  - cbn. destruct (_ && _); reflexivity.
  - rewrite fold_left_app. cbn [fold_left]. rewrite addShape_lookup, IH.
    rewrite List.filter_app. cbn [List.filter].
    destruct (negb (String.eqb s "") && existsb (String.eqb s) chosen) eqn:E.
    + apply andb_true_iff in E. destruct E as [-> ->]. rewrite !andb_true_r.
      destruct (validPoint s p).
      * destruct (List.filter (validPoint s) shapes) as [| v vs]; [reflexivity |].
        cbn [from_option Datatypes.id List.app List.map]. now rewrite List.map_app.
      * now rewrite List.app_nil_r.
    + rewrite <- andb_assoc, E, andb_false_r. reflexivity.
Qed.

Lemma shapePoints_lookup (chosen : list string) (shapes : list Shapes.row) (s : string) :
  shapePoints chosen shapes !! s =
  if negb (String.eqb s "") && existsb (String.eqb s) chosen
  then match validPoints shapes s with
       | [] => None
       | _ :: _ => Some (lineOfShape shapes s)
       end
  else None.
Proof.
  unfold shapePoints, lineOfShape. rewrite lookup_fmap, rawPoints_lookup.
  destruct (_ && _); [| reflexivity].
  destruct (validPoints shapes s); reflexivity.
Qed.

Lemma lineOfShape_sorted (shapes : list Shapes.row) (s : string) :
  StronglySorted (fun a b => (seq a <= seq b)%Q) (lineOfShape shapes s).
Proof.
  apply (sort_sorted _ (fun _ => True)).
  - intros x y _ _. unfold bySeq. rewrite negb_false_iff. apply Qle_bool_imp_le.
  - intros x y _ _. unfold bySeq. rewrite negb_true_iff. intros H.
    apply Qlt_le_weak, Qnot_le_lt. intros Hle. apply Qle_bool_iff in Hle. congruence.
  - intros x y z. apply Qle_trans.
  - rewrite List.Forall_forall. trivial.
Qed.

Lemma lineOfShape_stable (shapes : list Shapes.row) (s : string) (q : Q) :
  List.filter (fun p => Qeq_bool (seq p) q) (lineOfShape shapes s) =
  List.filter (fun p => Qeq_bool (seq p) q) (List.map pointOf (validPoints shapes s)).
Proof.
  apply sort_stable. intros a b Ha%Qeq_bool_iff Hb%Qeq_bool_iff.
  unfold bySeq. rewrite negb_false_iff. apply Qle_bool_iff. rewrite Ha, Hb. apply Qle_refl.
Qed.

Lemma lineOfShape_length (shapes : list Shapes.row) (s : string) :
  List.length (lineOfShape shapes s) = List.length (validPoints shapes s).
Proof. unfold lineOfShape. now rewrite sort_length, List.length_map. Qed.

Lemma shapes_routeIdToShort_lookup (routes : list Routes.row) (id : string) :
  trim (match routeIdToShort routes !! id with
        | Some v => if String.eqb v "" then id else v
        | None => id
        end) = shapeRouteName routes id.
Proof.
  unfold routeIdToShort, shapeRouteName.
  pose proof (fold_set_lookup
                (fun r => truthy (Routes.route_id r))
                (fun r => orEmpty (Routes.route_id r))
                (fun r => if truthy (Some (shortNameOf r)) then shortNameOf r
                          else orEmpty (Routes.route_id r))
                routes ∅ id) as H.
  change (fold_left _ routes ∅) with (fold_left addRoute routes ∅) in H.
  rewrite H. clear H.
  rewrite (latest_ext _ (fun r => bool_decide (Routes.route_id r = Some id)
                                  && negb (String.eqb id "")))
    by (intros r; apply truthy_orEmpty).
  destruct (latest _ routes) as [r |] eqn:E; [| now rewrite lookup_empty].
  apply latest_Some in E. destruct E as [_ E]. apply andb_true_iff in E.
  destruct E as [Hid%bool_decide_eq_true Hne]. rewrite Hid. cbn [orEmpty from_option Datatypes.id truthy].
  destruct (String.eqb_spec (shortNameOf r) "") as [Hs | Hs]; cbn [negb].
  - apply negb_true_iff in Hne. now rewrite Hne.
  - rewrite (proj2 (eqb_empty_false _) Hs). unfold shortNameOf. apply trim_idem.
Qed.

Lemma features_In (routes : list Routes.row) (trips : list Trips.row)
    (shapes : list Shapes.row) (f : Feature) :
  In f (features routes trips shapes) ->
  exists rd b k,
    In (rd, b) (bestShapeByRouteDir (counts trips)) /\
    In (k, count b) (counts trips) /\ rdOf k = rd /\ shape_id b = shapeOfKey k /\
    In f (featureFor (routeIdToShort routes)
            (shapePoints (chosenShapeIds (bestShapeByRouteDir (counts trips))) shapes)
            (rd, b)).
Proof.
  unfold features. cbn zeta. intros ([rd b] & Hin & Hf)%in_flat_map.
  destruct (bestShape_inv (counts trips)) as (Hnd & Hget & _).
  fold (bestShapeByRouteDir (counts trips)) in Hnd, Hget.
  pose proof (omapGet_of_In _ _ _ Hnd Hin) as Hb.
  destruct (Hget rd b Hb) as (k & Hk & Hrd & Hs & _).
  exists rd, b, k. repeat split; assumption.
Qed.

End ShapeLines.

(** X21.  Step 3 keeps the points of the chosen shapes only: a chosen shape
    with a valid point is stored with the points of its valid rows, in
    ascending order of their sequence numbers, points of equal sequence
    number in the order of the file; any other shape id is not stored. *)
Theorem shape_points_stored (chosen : list string) (shapes : list Shapes.row) (s : string) :
  RouteShapes.shapePoints chosen shapes !! s =
    (if negb (String.eqb s "") && existsb (String.eqb s) chosen
     then match validPoints shapes s with
          | [] => None
          | _ :: _ => Some (lineOfShape shapes s)
          end
     else None) /\
  StronglySorted (fun a b => (RouteShapes.seq a <= RouteShapes.seq b)%Q)
    (lineOfShape shapes s) /\
  Permutation (lineOfShape shapes s) (List.map pointOf (validPoints shapes s)) /\
  (forall q : Q,
      List.filter (fun p => Qeq_bool (RouteShapes.seq p) q) (lineOfShape shapes s) =
      List.filter (fun p => Qeq_bool (RouteShapes.seq p) q)
        (List.map pointOf (validPoints shapes s))) /\
  (forall pts, RouteShapes.shapePoints chosen shapes !! s = Some pts ->
               In s chosen /\ s <> "" /\ pts <> []).
Proof.
  split; [apply shapePoints_lookup |].
  split; [apply lineOfShape_sorted |].
  split; [apply sort_perm |].
  split; [apply lineOfShape_stable |].
  intros pts. rewrite shapePoints_lookup.
  destruct (negb (String.eqb s "") && existsb (String.eqb s) chosen) eqn:E; [| discriminate].
  apply andb_true_iff in E. destruct E as [Hs%negb_true_iff%eqb_empty_false Hc%chosen_dec].
  destruct (validPoints shapes s) as [| v vs] eqn:Ev; [discriminate |].
  intros [= <-]. split; [exact Hc | split; [exact Hs |]].
  intros Hnil. pose proof (lineOfShape_length shapes s) as Hlen.
  rewrite Hnil, Ev in Hlen. discriminate Hlen.
Qed.

(** X22.  When no id of a counted trip contains the separator of the keys,
    every feature stands for a trip of the feed: it carries the route, the
    direction and the shape of that trip, the number of trips of this route
    and direction that use this shape, which is at least 1, the name the
    script shows for the route with the color of that name, and as
    coordinates the valid points of the shape in sequence order, longitude
    first, at least two of them. *)
Theorem feature_fields (routes : list Routes.row) (trips : list Trips.row)
    (shapes : list Shapes.row) (f : RouteShapes.Feature) :
  (forall t, In t trips -> validTrip t = true -> plainTrip t) ->
  In f (RouteShapes.features routes trips shapes) ->
  exists t,
    In t trips /\ validTrip t = true /\
    RouteShapes.route_id f = routeOf t /\
    RouteShapes.direction_id f = dirOf t /\
    RouteShapes.f_shape_id f = shapeOf t /\
    RouteShapes.trips_sampled f = tripsWith (routeOf t) (dirOf t) (shapeOf t) trips /\
    1 <= RouteShapes.trips_sampled f /\
    RouteShapes.route_short_name f = shapeRouteName routes (routeOf t) /\
    RouteShapes.color f = RouteShapes.colorOf (RouteShapes.route_short_name f) /\
    RouteShapes.coordinates f =
      List.map (fun p => (RouteShapes.lon p, RouteShapes.lat p))
        (lineOfShape shapes (shapeOf t)) /\
    (2 <= List.length (RouteShapes.coordinates f))%nat.
Proof.
  intros Hplain Hf.
  destruct (features_In _ _ _ _ Hf) as (rd & b & k & Hin & Hk & Hrd & Hs & Hff).
  destruct (counts_In _ _ _ Hk) as (Hcount & Hpos & t & Ht & Hv & Hkey).
  destruct (Hplain t Ht Hv) as (Hpr & Hpd & Hps).
  destruct (keyOfTrip_parts t (Hplain t Ht Hv)) as [Hrdt Hst].
  rewrite Hkey in Hrdt, Hst. rewrite Hrdt in Hrd. subst rd. rewrite Hst in Hs.
  assert (Hchosen : existsb (String.eqb (shapeOf t))
                      (RouteShapes.chosenShapeIds
                         (RouteShapes.bestShapeByRouteDir (RouteShapes.counts trips))) = true).
  { apply chosen_dec. unfold RouteShapes.chosenShapeIds. apply in_map_iff.
    exists (RouteShapes.joinKey [routeOf t; dirOf t], b). split; [exact Hs | exact Hin]. }
  assert (Hne : negb (String.eqb (shapeOf t) "") = true).
  { unfold validTrip in Hv. apply andb_true_iff in Hv. destruct Hv as [_ Hv].
    unfold shapeOf. destruct (Trips.shape_id t); [exact Hv | discriminate Hv]. }
  unfold RouteShapes.featureFor in Hff.
  rewrite (split_joinKey2 _ _ Hpr Hpd) in Hff. cbn [nth] in Hff.
  rewrite Hs, shapePoints_lookup, Hne, Hchosen in Hff. cbn [andb] in Hff.
  rewrite shapes_routeIdToShort_lookup in Hff.
  assert (Hpts : default [] (match validPoints shapes (shapeOf t) with
                             | [] => None
                             | _ :: _ => Some (lineOfShape shapes (shapeOf t))
                             end) = lineOfShape shapes (shapeOf t)).
  { pose proof (lineOfShape_length shapes (shapeOf t)) as Hlen.
    destruct (validPoints shapes (shapeOf t)); [| reflexivity].
    destruct (lineOfShape shapes (shapeOf t)); [reflexivity | discriminate Hlen]. }
  rewrite Hpts in Hff.
  destruct (List.length (lineOfShape shapes (shapeOf t)) <? 2)%nat eqn:Elen;
    [contradiction |].
  apply Nat.ltb_ge in Elen.
  destruct Hff as [<- | []].
  cbn [RouteShapes.route_id RouteShapes.direction_id RouteShapes.f_shape_id
       RouteShapes.trips_sampled RouteShapes.route_short_name RouteShapes.color
       RouteShapes.coordinates].
  exists t. split; [exact Ht |]. split; [exact Hv |].
  split; [reflexivity |]. split; [reflexivity |]. split; [reflexivity |].
  split.
  { rewrite Hcount, <- Hkey. unfold keyOfTrip.
    apply tripsAtKey_group; assumption. }
  split; [exact Hpos |].
  split; [reflexivity |]. split; [reflexivity |]. split; [reflexivity |].
  rewrite List.length_map. exact Elen.
Qed.

(** X22 on a feed with one trip and a shape of two points. *)
Lemma feature_fields_witness :
  let routes := [Routes.mk (Some "R") (Some " a ") (Some "1")] in
  let trips := [Trips.mk (Some "T") (Some "R") (Some "Uptown") (Some "0") (Some "sh")] in
  let shapes := [Shapes.mk (Some "sh") (Some 1%Q) (Some 2%Q) (Some 2%Q);
                 Shapes.mk (Some "sh") (Some 3%Q) (Some 4%Q) (Some 1%Q)] in
  let f := RouteShapes.mkFeature [(4%Q, 3%Q); (2%Q, 1%Q)] "R" "a" "0" "sh" "#0039A6" 1 in
  In f (RouteShapes.features routes trips shapes) /\
  exists t, In t trips /\ RouteShapes.f_shape_id f = shapeOf t /\
            RouteShapes.trips_sampled f = tripsWith "R" "0" "sh" trips.
Proof.
  intros routes trips shapes f.
  assert (Hin : In f (RouteShapes.features routes trips shapes))
    by (vm_compute; now left).
  assert (Hplain : forall t, In t trips -> validTrip t = true -> plainTrip t).
  { intros t [<- | []] _. repeat split. }
  split; [exact Hin |].
  destruct (feature_fields routes trips shapes f Hplain Hin)
    as (t & Ht & _ & _ & _ & Hs & Hn & _).
  exists t. split; [exact Ht |]. split; [exact Hs |].
  destruct Ht as [<- | []]. exact Hn.
Defined.

(** ** The routes of a stop *)

Section StopRoutes.
Import Js RouteShapes StopToRoutes.

Lemma tripToRoute_lookup (trips : list Trips.row) (tid : string) :
  tripToRoute trips !! tid =
  option_map (fun t => orEmpty (Trips.route_id t)) (latest (routedTrip tid) trips).
Proof.
  unfold tripToRoute.
  pose proof (fold_set_lookup
                (fun t => truthy (Trips.trip_id t) && truthy (Trips.route_id t))
                (fun t => orEmpty (Trips.trip_id t))
                (fun t => orEmpty (Trips.route_id t)) trips ∅ tid) as H.
  change (fold_left _ trips ∅) with (fold_left addTrip trips ∅) in H.
  rewrite H. clear H.
  rewrite (latest_ext _ (routedTrip tid)).
  - destruct (latest (routedTrip tid) trips); [reflexivity | apply lookup_empty].
  - intros t. unfold routedTrip. rewrite <- truthy_orEmpty.
    destruct (truthy (Trips.trip_id t)), (truthy (Trips.route_id t)),
      (bool_decide (orEmpty (Trips.trip_id t) = tid)); reflexivity.
Qed.

Lemma truthy_Some (s : string) : truthy (Some s) = negb (String.eqb s "").
Proof. reflexivity. Qed.

Lemma gtfsName_lookup (routes : list Routes.row) (rid : string) :
  rid <> "" ->
  let short := default None (GtfsJson.routeIdToShort routes !! Some rid) in
  (if truthy short then Some (toUpperCase (orEmpty short)) else None) = gtfsName routes rid.
Proof.
  intros Hne. cbn zeta. rewrite gtfs_routeIdToShort_lookup. unfold gtfsName.
  destruct (latest _ (GtfsJson.subwayRoutes routes)) as [r |] eqn:E; [| reflexivity].
  apply latest_Some in E. destruct E as [_ Hid%bool_decide_eq_true].
  cbn [option_map from_option Datatypes.id]. rewrite truthy_Some, Hid.
  destruct (String.eqb_spec (shortNameOf r) "") as [Hs | Hs]; cbn [negb].
  - rewrite truthy_Some, (proj2 (eqb_empty_false rid) Hne). reflexivity.
  - rewrite truthy_Some, (proj2 (eqb_empty_false _) Hs). reflexivity.
Qed.

Lemma gtfsName_Some (routes : list Routes.row) (rid ln : string) :
  rid <> "" -> gtfsName routes rid = Some ln ->
  ln <> "" /\ toUpperCase ln = ln /\
  exists r, In r (GtfsJson.subwayRoutes routes) /\ Routes.route_id r = Some rid /\
            ln = toUpperCase (if String.eqb (shortNameOf r) "" then rid else shortNameOf r).
Proof.
  intros Hne. unfold gtfsName.
  destruct (latest _ (GtfsJson.subwayRoutes routes)) as [r |] eqn:E; [| discriminate].
  apply latest_Some in E. destruct E as [Hin Hid%bool_decide_eq_true].
  cbn [option_map]. intros [= <-]. split; [| split].
  - rewrite toUpperCase_empty.
    destruct (String.eqb_spec (shortNameOf r) ""); assumption.
  - apply toUpperCase_idem.
  - now exists r.
Qed.

Lemma routedTrip_route (tid : string) (trips : list Trips.row) (t : Trips.row) :
  latest (routedTrip tid) trips = Some t ->
  In t trips /\ Trips.trip_id t = Some tid /\ tid <> "" /\ orEmpty (Trips.route_id t) <> "" /\
  Trips.route_id t = Some (orEmpty (Trips.route_id t)).
Proof.
  intros [Hin H]%latest_Some. unfold routedTrip in H.
  apply andb_true_iff in H. destruct H as [H Hr].
  apply andb_true_iff in H. destruct H as [Hid%bool_decide_eq_true Hne].
  apply negb_true_iff, eqb_empty_false in Hne.
  destruct (Trips.route_id t) as [rid |]; [| discriminate Hr].
  cbn in Hr. apply negb_true_iff, eqb_empty_false in Hr.
  repeat split; assumption.
Qed.

Lemma s2r_addStopTime_eq (routes : list Routes.row) (trips : list Trips.row)
    (M : omap (list string)) (row : StopTimes.row) :
  addStopTime (GtfsJson.routeIdToShort routes) (tripToRoute trips) M row =
  match StopTimes.stop_id row, stopRouteName routes trips (StopTimes.trip_id row) with
  | Some stop, Some ln =>
      if String.eqb stop "" then M
      else omapSet M stop (BuildStationToLines.setAdd (default [] (omapGet M stop)) ln)
  | _, _ => M
  end.
Proof.
  unfold addStopTime, stopRouteName. cbn zeta.
  destruct (StopTimes.trip_id row) as [tid |]; cbn [truthy negb orb];
    [| now destruct (StopTimes.stop_id row)].
  destruct (String.eqb_spec tid "") as [-> | Htid]; cbn [negb orb].
  - assert (Hnone : latest (routedTrip "") trips = None).
    { destruct (latest (routedTrip "") trips) as [t |] eqn:E; [| reflexivity].
      apply routedTrip_route in E. now destruct E as (_ & _ & Hne & _). }
    rewrite Hnone. now destruct (StopTimes.stop_id row).
  - destruct (StopTimes.stop_id row) as [stop |]; cbn [truthy negb orb]; [| reflexivity].
    destruct (String.eqb_spec stop "") as [-> | Hstop]; cbn [negb].
    + now destruct (latest (routedTrip tid) trips) as [t |];
        [destruct (gtfsName routes _) |].
    + unfold mapGet. rewrite tripToRoute_lookup.
      destruct (latest (routedTrip tid) trips) as [t |] eqn:E; [| reflexivity].
      apply routedTrip_route in E. destruct E as (_ & _ & _ & Hr & _).
      cbn [option_map]. rewrite truthy_Some, (proj2 (eqb_empty_false _) Hr). cbn [negb].
      pose proof (gtfsName_lookup routes _ Hr) as Hname. cbn zeta in Hname.
      rewrite <- Hname.
      destruct (truthy (default None (GtfsJson.routeIdToShort routes !! Some _)));
        reflexivity.
Qed.

(** The state of the [Map] of sets after the rows [rows]. *)
Lemma stopToRouteShortSet_inv (routes : list Routes.row) (trips : list Trips.row)
    (rows : list StopTimes.row) :
  let M := stopToRouteShortSet routes trips rows in
  List.NoDup (List.map fst M) /\
  (forall k set, omapGet M k = Some set -> List.NoDup set /\ set <> []) /\
  (forall k ln, In ln (default [] (omapGet M k)) <->
                exists r, In r rows /\ lists routes trips k ln r).
Proof.
  unfold stopToRouteShortSet. induction rows as [| r rows IH] using rev_ind.
  - cbn. split; [constructor | split].
    + discriminate.
    + intros k ln. split; [contradiction | intros (r & [] & _)].
  - rewrite fold_left_app. cbn [fold_left]. cbn zeta in *.
    set (M := fold_left (addStopTime (GtfsJson.routeIdToShort routes) (tripToRoute trips))
                rows []) in *.
    destruct IH as (Hnd & Hsets & Hmem).
    assert (Hskip : (forall stop ln, ~ lists routes trips stop ln r) ->
              List.NoDup (List.map fst M) /\
              (forall k set, omapGet M k = Some set -> List.NoDup set /\ set <> []) /\
              (forall k ln, In ln (default [] (omapGet M k)) <->
                            exists r', In r' (rows ++ [r]) /\ lists routes trips k ln r')).
    { intros Hno. split; [exact Hnd | split; [exact Hsets |]].
      intros k l. rewrite Hmem. split.
      - intros (r' & Hin & Hs). exists r'. split; [apply in_or_app; now left | exact Hs].
      - intros (r' & Hin & Hs). apply in_app_or in Hin.
        destruct Hin as [Hin | [<- | []]]; [now exists r' |].
        now apply Hno in Hs. }
    rewrite s2r_addStopTime_eq.
    destruct (StopTimes.stop_id r) as [stop |] eqn:Estop;
      [| apply Hskip; intros s l (H & _); congruence].
    destruct (stopRouteName routes trips (StopTimes.trip_id r)) as [ln |] eqn:E;
      [| apply Hskip; intros s l (_ & _ & H); congruence].
    destruct (String.eqb_spec stop "") as [-> | Hstop];
      [apply Hskip; intros s l (H & Hne & _); congruence |].
    split; [now apply omapSet_NoDup | split].
    + intros k set. destruct (string_dec stop k) as [<- | Hne].
      * rewrite omapGet_set_eq. intros [= <-].
        split; [| apply setAdd_nonempty].
        apply setAdd_NoDup. destruct (omapGet M stop) as [l0 |] eqn:E0.
        -- apply (Hsets stop l0 E0).
        -- constructor.
      * rewrite omapGet_set_ne by exact Hne. apply Hsets.
    + intros k l. destruct (string_dec stop k) as [<- | Hne].
      * rewrite omapGet_set_eq. cbn [from_option Datatypes.id].
        rewrite setAdd_In, Hmem. split.
        -- intros [(r' & Hin & Hs) | ->].
           ++ exists r'. split; [apply in_or_app; now left | exact Hs].
           ++ exists r. split; [apply in_or_app; right; now left |].
              split; [exact Estop | split; [exact Hstop | exact E]].
        -- intros (r' & Hin & Hs). apply in_app_or in Hin.
           destruct Hin as [Hin | [<- | []]].
           ++ left. now exists r'.
           ++ right. destruct Hs as (_ & _ & Hs). congruence.
      * rewrite omapGet_set_ne by exact Hne. rewrite Hmem. split.
        -- intros (r' & Hin & Hs). exists r'. split; [apply in_or_app; now left | exact Hs].
        -- intros (r' & Hin & Hs). apply in_app_or in Hin.
           destruct Hin as [Hin | [<- | []]]; [now exists r' |].
           destruct Hs as (Hs & _). congruence.
Qed.

Lemma latest_omapGet {V : Type} (M : omap V) (k : string) :
  List.NoDup (List.map fst M) ->
  latest (fun e => bool_decide (fst e = k)) M = option_map (pair k) (omapGet M k).
Proof.
  intros Hnd. destruct (latest _ M) as [[k' v] |] eqn:E.
  - apply latest_Some in E. destruct E as [Hin Hk%bool_decide_eq_true].
    cbn [fst] in Hk. subst k'. now rewrite (omapGet_of_In M k v Hnd Hin).
  - destruct (omapGet M k) as [v |] eqn:Eg; [exfalso | reflexivity].
    apply omapGet_In in Eg. unfold latest in E.
    pose proof (find_none _ _ E (k, v)) as Hf. cbn [fst] in Hf.
    rewrite bool_decide_eq_true_2 in Hf by reflexivity.
    discriminate Hf. now apply in_rev in Eg.
Qed.

Lemma stopToRoutesJson_lookup (routes : list Routes.row) (trips : list Trips.row)
    (stopTimes : list StopTimes.row) (stop : string) :
  stopToRoutesJson routes trips stopTimes !! stop =
  if String.eqb stop "__proto__" then None
  else option_map (sort (fun a b => String.ltb b a))
         (omapGet (stopToRouteShortSet routes trips stopTimes) stop).
Proof.
  unfold stopToRoutesJson.
  pose proof (fold_set_lookup
                (fun e : string * list string => negb (String.eqb (fst e) "__proto__"))
                (fun e : string * list string => fst e)
                (fun e => sort (fun a b => String.ltb b a) (snd e))
                (stopToRouteShortSet routes trips stopTimes) ∅ stop) as H.
  change (fold_left _ (stopToRouteShortSet routes trips stopTimes) ∅)
    with (fold_left addOutput (stopToRouteShortSet routes trips stopTimes) ∅) in H.
  rewrite H. clear H.
  destruct (String.eqb_spec stop "__proto__") as [-> | Hne].
  - rewrite latest_none; [apply lookup_empty |].
    intros e. destruct (String.eqb_spec (fst e) "__proto__") as [He | He]; [reflexivity |].
    cbn [negb andb]. now apply bool_decide_eq_false.
  - rewrite (latest_ext _ (fun e => bool_decide (fst e = stop))).
    2:{ intros e. destruct (bool_decide_reflect (fst e = stop)) as [He | He].
        - rewrite He. apply String.eqb_neq in Hne. now rewrite Hne.
        - apply andb_false_r. }
    destruct (stopToRouteShortSet_inv routes trips stopTimes) as (Hnd & _).
    rewrite (latest_omapGet _ _ Hnd).
    destruct (omapGet _ stop); [reflexivity | apply lookup_empty].
Qed.

End StopRoutes.

(** X23.  In [stop_to_routes.json] a stop id other than [__proto__] is
    listed exactly when a row of [stop_times.txt] names it together with a
    trip whose route has a name; its list is not empty, strictly ascending in
    the order of its code units, and holds exactly the names that such rows
    give, each in upper case and not empty: the short name of a kept route
    row, or its id when the short name is blank.  Nothing is written under
    the key [__proto__]. *)
Theorem stop_routes_list (routes : list Routes.row) (trips : list Trips.row)
    (stopTimes : list StopTimes.row) (stop : string) :
  (stop <> "__proto__" ->
   forall ln,
     (exists names, StopToRoutes.stopToRoutesJson routes trips stopTimes !! stop = Some names /\
                    In ln names) <->
     (exists r, In r stopTimes /\ lists routes trips stop ln r)) /\
  (forall names,
      StopToRoutes.stopToRoutesJson routes trips stopTimes !! stop = Some names ->
      stop <> "" /\ stop <> "__proto__" /\ names <> [] /\
      StronglySorted String_as_OT.lt names /\ List.NoDup names /\
      Forall (fun ln => ln <> "" /\ Js.toUpperCase ln = ln) names) /\
  StopToRoutes.stopToRoutesJson routes trips stopTimes !! "__proto__" = None.
Proof.
  destruct (stopToRouteShortSet_inv routes trips stopTimes) as (Hnd & Hsets & Hmem).
  cbn zeta in *. split; [| split].
  - intros Hproto ln. rewrite stopToRoutesJson_lookup, <- (Hmem stop ln).
    apply String.eqb_neq in Hproto. rewrite Hproto.
    destruct (RouteShapes.omapGet _ stop) as [set |]; cbn.
    + split.
      * intros (names & [= <-] & Hin). now apply sort_In in Hin.
      * intros Hin. eexists. split; [reflexivity |]. now apply sort_In.
    + split; [intros (names & [=] & _) | contradiction].
  - intros names. rewrite stopToRoutesJson_lookup.
    destruct (String.eqb_spec stop "__proto__") as [Hp | Hp]; [discriminate |].
    destruct (RouteShapes.omapGet _ stop) as [set |] eqn:E; [| discriminate].
    cbn [option_map]. intros [= <-].
    destruct (Hsets stop set E) as [Hset Hne].
    assert (Hnd' : List.NoDup (Js.sort (fun a b => String.ltb b a) set)).
    { eapply Permutation.Permutation_NoDup; [symmetry; apply sort_perm | exact Hset]. }
    assert (Hall : forall ln, In ln set ->
                     stop <> "" /\ ln <> "" /\ Js.toUpperCase ln = ln).
    { intros ln Hin. pose proof (Hmem stop ln) as Hm. rewrite E in Hm.
      apply Hm in Hin. destruct Hin as (r & _ & _ & Hstop & Hname).
      unfold stopRouteName in Hname.
      destruct (StopTimes.trip_id r) as [tid |]; [| discriminate].
      destruct (latest (routedTrip tid) trips) as [t |] eqn:Et; [| discriminate].
      apply routedTrip_route in Et. destruct Et as (_ & _ & _ & Hr & _).
      destruct (gtfsName_Some _ _ _ Hr Hname) as (H1 & H2 & _). tauto. }
    split; [| split; [exact Hp | split; [| split; [| split]]]].
    + destruct set as [| l0 set']; [now contradiction Hne |].
      apply (Hall l0). now left.
    + intros Hnil. apply Hne.
      pose proof (sort_length (fun a b => String.ltb b a) set) as Hlen.
      rewrite Hnil in Hlen. destruct set; [reflexivity | discriminate Hlen].
    + apply sorted_strict; [apply lexSort_sorted | exact Hnd'].
    + exact Hnd'.
    + rewrite List.Forall_forall. intros ln Hin%sort_In.
      destruct (Hall ln Hin) as (_ & H1 & H2). now split.
  - rewrite stopToRoutesJson_lookup. reflexivity.
Qed.

(** X23 on a stop served by a route without a short name. *)
Lemma stop_routes_list_witness :
  let routes := [Routes.mk (Some "gs") (Some " ") (Some "1");
                 Routes.mk (Some "bus") (Some "B1") (Some "3")] in
  let trips := [Trips.mk (Some "T") (Some "gs") (Some "Uptown") (Some "0") (Some "sh");
                Trips.mk (Some "U") (Some "bus") (Some "Uptown") (Some "0") (Some "sh")] in
  let stopTimes := [StopTimes.mk (Some "T") (Some "S9") (Some "08:05:00");
                    StopTimes.mk (Some "U") (Some "S9") (Some "08:06:00")] in
  StopToRoutes.stopToRoutesJson routes trips stopTimes !! "S9" = Some ["GS"] /\
  List.NoDup ["GS"].
Proof.
  intros routes trips stopTimes.
  assert (H : StopToRoutes.stopToRoutesJson routes trips stopTimes !! "S9" = Some ["GS"])
    by (vm_compute; reflexivity).
  destruct (stop_routes_list routes trips stopTimes "S9") as (_ & Hl & _).
  destruct (Hl _ H) as (_ & _ & _ & _ & Hnd & _).
  split; [exact H | exact Hnd].
Defined.

(** ** Walking time and favorites *)

Section WalkLabel.
Import Js App Walk.
Local Open Scope R_scope.

Lemma round_nearest (x : R) : IZR (round x) - / 2 <= x < IZR (round x) + / 2.
Proof.
  unfold round. destruct (base_Int_part (x + / 2)) as [H1 H2]. lra.
Qed.

Lemma append_min_nonempty (s : string) : (s ++ " min")%string <> ""%string.
Proof. destruct s; [discriminate |]. rewrite append_cons. discriminate. Qed.

End WalkLabel.

(** X24.  [fmtWalkMinutes] shows nothing for NaN, the text for less than
    one minute below 80 meters (negative values included), and from 80
    meters on the number of minutes at 80 meters per minute, rounded to the
    nearest integer with halves up; this number is at least 1, so the lower
    bound the code puts on it never applies.  The label is empty exactly
    when the distance is NaN: for every arithmetic, the label of the
    distance to a stop is empty when [Number] converts a coordinate of the
    stop to NaN, and a stop with a label has coordinates that convert to
    numbers. *)
Theorem fmtWalkMinutes_label :
  Walk.fmtWalkMinutes None = "" /\
  (forall m : R, (m < 80)%R -> Walk.fmtWalkMinutes (Some m) = "< 1 min") /\
  (forall m : R, (80 <= m)%R ->
     exists n : Z,
       Walk.fmtWalkMinutes (Some m) = Js.toString (Some n) ++ " min" /\
       n = Walk.round (m / 80) /\ 1 <= n /\
       (80 * IZR n - 40 <= m < 80 * IZR n + 40)%R) /\
  (forall d : App.rnum, Walk.fmtWalkMinutes d = "" <-> d = None) /\
  (forall ar loc s,
      (App.Number (App.lat s) = None \/ App.Number (App.lon s) = None ->
       Walk.fmtWalkMinutes (distOf ar loc s) = "") /\
      (Walk.fmtWalkMinutes (distOf ar loc s) <> "" -> validStop s)).
Proof.
  assert (Hempty : forall d : App.rnum, Walk.fmtWalkMinutes d = "" <-> d = None).
  { intros [m |]; [| split; reflexivity].
    split; [| discriminate]. unfold Walk.fmtWalkMinutes.
    destruct (App.Rltb m 80); [discriminate |].
    intros H. now apply append_min_nonempty in H. }
  split; [reflexivity | split; [| split; [| split]]].
  - intros m Hm. unfold Walk.fmtWalkMinutes. now rewrite Rltb_true.
  - intros m Hm. exists (Walk.round (m / 80)).
    pose proof (round_nearest (m / 80)) as [H1 H2].
    assert (Hpos : 1 <= Walk.round (m / 80)).
    { assert (H : (0 < Walk.round (m / 80))%Z); [| lia].
      apply lt_IZR. lra. }
    unfold Walk.fmtWalkMinutes. rewrite Rltb_false by lra.
    rewrite Z.max_r by exact Hpos.
    split; [reflexivity |]. split; [reflexivity |]. split; [exact Hpos |]. lra.
  - exact Hempty.
  - intros ar loc s. split.
    + intros Hinv. apply Hempty. now apply distOf_invalid.
    + intros Hlabel. destruct (distOf ar loc s) as [d |] eqn:Hd.
      * exact (distOf_some_valid ar loc s d Hd).
      * now contradiction Hlabel.
Qed.

Section FavoriteStops.
Import Js App Favorites.

Lemma isFav_In (favorites : list string) (id : string) :
  isFav favorites id = true <-> In id favorites.
Proof.
  unfold isFav. rewrite existsb_exists. split.
  - intros (x & Hx & ->%String.eqb_eq). exact Hx.
  - intros H. exists id. split; [exact H | apply String.eqb_refl].
Qed.

Lemma toggleFav_In (prev : list string) (id x : string) :
  In x (toggleFav prev id) <->
  if String.eqb x id then ~ In id prev else In x prev.
Proof.
  unfold toggleFav. fold (isFav prev id).
  destruct (isFav prev id) eqn:E.
  - apply isFav_In in E. rewrite filter_In.
    destruct (String.eqb_spec x id) as [-> | Hne]; cbn [negb]; [| tauto].
    split; [intros [_ [=]] | contradiction].
  - assert (Hnot : ~ In id prev) by (rewrite <- isFav_In; congruence).
    rewrite in_app_iff. cbn [In].
    destruct (String.eqb_spec x id) as [-> | Hne]; [tauto |].
    split; [intros [H | [H | []]]; [exact H | congruence] | tauto].
Qed.

Lemma filter_NoDup {A : Type} (p : A -> bool) (l : list A) :
  List.NoDup l -> List.NoDup (List.filter p l).
Proof.
  induction 1 as [| x l Hx Hl IH]; cbn [List.filter]; [constructor |].
  destruct (p x); [| exact IH].
  constructor; [| exact IH]. intros Hin%filter_In. tauto.
Qed.

Lemma filter_id {A : Type} (p : A -> bool) (l : list A) :
  (forall x, In x l -> p x = true) -> List.filter p l = l.
Proof.
  induction l as [| a l IH]; intros H; [reflexivity |].
  cbn [List.filter]. rewrite (H a) by now left.
  f_equal. apply IH. intros x Hx. apply H. now right.
Qed.

Lemma mapById_lookup (all : list Stop) (k : string) :
  mapById all !! k = latest (fun s => bool_decide (id s = k)) all.
Proof.
  unfold mapById.
  etransitivity;
    [exact (fold_set_lookup (fun _ => true) id (fun s : Stop => s) all ∅ k) |].
  cbn [andb]. destruct (latest _ all); [reflexivity | apply lookup_empty].
Qed.

Lemma favoriteStopsList_cons (STOPS : list Stop) (k : string) (favorites : list string) :
  favoriteStopsList STOPS (k :: favorites) =
  (match latest (fun s => bool_decide (id s = k)) STOPS with
   | Some s => [s]
   | None => []
   end ++ favoriteStopsList STOPS favorites)%list.
Proof.
  unfold favoriteStopsList. cbn [List.map flat_map]. now rewrite mapById_lookup.
Qed.

Lemma favoriteStopsList_ids (STOPS : list Stop) (favorites : list string) :
  List.map id (favoriteStopsList STOPS favorites) =
  List.filter (fun k => existsb (fun s => String.eqb (id s) k) STOPS) favorites.
Proof.
  induction favorites as [| k favorites IH]; [reflexivity |].
  rewrite favoriteStopsList_cons, List.map_app, IH. cbn [List.filter].
  destruct (latest _ STOPS) as [s |] eqn:E.
  - apply latest_Some in E. destruct E as [Hin Hk%bool_decide_eq_true].
    assert (Hex : existsb (fun s => String.eqb (id s) k) STOPS = true).
    { apply existsb_exists. exists s. split; [exact Hin | now apply String.eqb_eq]. }
    rewrite Hex. cbn. now rewrite Hk.
  - assert (Hex : existsb (fun s => String.eqb (id s) k) STOPS = false).
    { destruct (existsb _ STOPS) eqn:Eex; [exfalso | reflexivity].
      apply existsb_exists in Eex. destruct Eex as (s & Hin & Hs%String.eqb_eq).
      unfold latest in E. pose proof (find_none _ _ E s) as Hf. cbn in Hf.
      rewrite bool_decide_eq_true_2 in Hf by exact Hs.
      discriminate Hf. now apply in_rev in Hin. }
    now rewrite Hex.
Qed.

Lemma favoriteStopsList_In (STOPS : list Stop) (favorites : list string) (s : Stop) :
  In s (favoriteStopsList STOPS favorites) <->
  In (id s) favorites /\ latest (fun s' => bool_decide (id s' = id s)) STOPS = Some s.
Proof.
  induction favorites as [| k favorites IH]; [cbn; tauto |].
  rewrite favoriteStopsList_cons, in_app_iff, IH. cbn [In]. split.
  - intros [H | H]; [| tauto].
    destruct (latest (fun s0 => bool_decide (id s0 = k)) STOPS) as [s' |] eqn:E;
      [| contradiction].
    destruct H as [<- | []].
    pose proof (latest_Some _ _ _ E) as [_ Hk%bool_decide_eq_true].
    subst k. split; [now left | exact E].
  - intros [[<- | Hin] Hl]; [left; rewrite Hl; now left | right; tauto].
Qed.

End FavoriteStops.

(** X25.  Toggling a favorite flips its membership and leaves that of every
    other id unchanged; a new favorite goes to the end of the list, a
    present one is removed at every position, the others keeping their
    order; a list without repeats stays without repeats; and toggling twice
    an id that was not a favorite gives the list back. *)
Theorem toggleFav_flips (prev : list string) (id : string) :
  Favorites.isFav (Favorites.toggleFav prev id) id = negb (Favorites.isFav prev id) /\
  (forall x, x <> id ->
             Favorites.isFav (Favorites.toggleFav prev id) x = Favorites.isFav prev x) /\
  List.filter (fun x => negb (String.eqb x id)) (Favorites.toggleFav prev id) =
    List.filter (fun x => negb (String.eqb x id)) prev /\
  (List.NoDup prev -> List.NoDup (Favorites.toggleFav prev id)) /\
  (Favorites.isFav prev id = false ->
   Favorites.toggleFav prev id = (prev ++ [id])%list /\
   Favorites.toggleFav (Favorites.toggleFav prev id) id = prev).
Proof.
  assert (Hflip : forall x,
             Favorites.isFav (Favorites.toggleFav prev id) x =
             if String.eqb x id then negb (Favorites.isFav prev id)
             else Favorites.isFav prev x).
  { intros x. apply eq_true_iff_eq. rewrite isFav_In, toggleFav_In.
    destruct (String.eqb x id); [| now rewrite isFav_In].
    rewrite negb_true_iff, <- not_true_iff_false, isFav_In. tauto. }
  split; [| split; [| split; [| split]]].
  - now rewrite Hflip, String.eqb_refl.
  - intros x Hne. rewrite Hflip. apply String.eqb_neq in Hne. now rewrite Hne.
  - unfold Favorites.toggleFav. destruct (existsb (String.eqb id) prev).
    + rewrite filter_filter_and. apply List.filter_ext. intros x. apply andb_diag.
    + rewrite List.filter_app. cbn [List.filter]. rewrite String.eqb_refl. cbn [negb].
      apply List.app_nil_r.
  - intros Hnd. unfold Favorites.toggleFav. fold (Favorites.isFav prev id).
    destruct (Favorites.isFav prev id) eqn:E; [now apply filter_NoDup |].
    assert (Hnot : ~ In id prev) by (rewrite <- isFav_In; congruence).
    apply (Permutation.Permutation_NoDup (l := id :: prev));
      [apply Permutation_cons_append | now constructor].
  - intros E. assert (Hnot : ~ In id prev) by (rewrite <- isFav_In; congruence).
    assert (H1 : Favorites.toggleFav prev id = (prev ++ [id])%list).
    { unfold Favorites.toggleFav. fold (Favorites.isFav prev id). now rewrite E. }
    split; [exact H1 |]. rewrite H1. unfold Favorites.toggleFav.
    fold (Favorites.isFav (prev ++ [id]) id).
    assert (E2 : Favorites.isFav (prev ++ [id]) id = true).
    { apply isFav_In, in_or_app. right. now left. }
    rewrite E2, List.filter_app. cbn [List.filter]. rewrite String.eqb_refl. cbn [negb].
    rewrite List.app_nil_r. apply filter_id.
    intros x Hx. apply negb_true_iff, String.eqb_neq. intros ->. contradiction.
Qed.

(** X25 on a list of two favorites. *)
Lemma toggleFav_flips_witness :
  Favorites.toggleFav (Favorites.toggleFav ["A12"; "B04"] "C33") "C33" = ["A12"; "B04"].
Proof.
  destruct (toggleFav_flips ["A12"; "B04"] "C33") as (_ & _ & _ & _ & H).
  apply H. reflexivity.
Defined.

(** X26.  The favorites list shows, in the order of the favorites, the stop
    of every favorite id that the data knows and drops the ids it does not
    know; the stop shown for an id is the last stop of the data with this
    id; and a stop leaves the list when its id is toggled off. *)
Theorem favoriteStopsList_known (STOPS : list App.Stop) (favorites : list string) :
  List.map App.id (Favorites.favoriteStopsList STOPS favorites) =
    List.filter (fun k => existsb (fun s => String.eqb (App.id s) k) STOPS) favorites /\
  (forall s, In s (Favorites.favoriteStopsList STOPS favorites) <->
             In (App.id s) favorites /\
             latest (fun s' => bool_decide (App.id s' = App.id s)) STOPS = Some s) /\
  (forall s, In s (Favorites.favoriteStopsList STOPS favorites) -> In s STOPS) /\
  (forall k s, Favorites.isFav favorites k = true ->
               In s (Favorites.favoriteStopsList STOPS (Favorites.toggleFav favorites k)) ->
               App.id s <> k /\ In s (Favorites.favoriteStopsList STOPS favorites)).
Proof.
  split; [apply favoriteStopsList_ids |].
  split; [intros s; apply favoriteStopsList_In |].
  split.
  - intros s (_ & Hl)%favoriteStopsList_In. now apply latest_Some in Hl.
  - intros k s Hk (Hin & Hl)%favoriteStopsList_In.
    apply toggleFav_In in Hin. apply isFav_In in Hk.
    destruct (String.eqb_spec (App.id s) k) as [-> | Hne]; [contradiction |].
    split; [exact Hne |]. apply favoriteStopsList_In. split; assumption.
Qed.

(** ** The selected stop *)


(** ** The kept stops and routes *)

(** X28.  [build_gtfs_json.js] keeps the parent stations (location type 1)
    when the feed has one and every stop otherwise, so that the kept stops
    are empty only for a feed without stops; the routes have no such
    fallback: when a route row carries a route type, exactly the routes of
    type 1 are kept, possibly none, and all routes are kept only when no row
    carries a type. *)
Theorem kept_stops_and_routes (stops : list GtfsStations.row) (routes : list Routes.row) :
  (GtfsStations.stationStops stops = [] <-> stops = []) /\
  ((exists s, In s stops /\ GtfsStations.location_type s = Some "1") ->
   forall s, In s (GtfsStations.stationStops stops) <->
             In s stops /\ GtfsStations.location_type s = Some "1") /\
  ((forall s, In s stops -> GtfsStations.location_type s <> Some "1") ->
   GtfsStations.stationStops stops = stops) /\
  ((exists r, In r routes /\ Routes.route_type r <> None) ->
   forall r, In r (GtfsJson.subwayRoutes routes) <->
             In r routes /\ Routes.route_type r = Some "1") /\
  ((forall r, In r routes -> Routes.route_type r = None) ->
   GtfsJson.subwayRoutes routes = routes).
Proof.
  assert (Hst : forall s : GtfsStations.row,
             String.eqb (orEmpty (GtfsStations.location_type s)) "1" = true <->
             GtfsStations.location_type s = Some "1").
  { intros s. rewrite String.eqb_eq.
    destruct (GtfsStations.location_type s) as [x |]; cbn.
    - split; [now intros -> | now intros [= ->]].
    - split; discriminate. }
  assert (Hrt : forall r : Routes.row,
             String.eqb (default "undefined" (Routes.route_type r)) "1" = true <->
             Routes.route_type r = Some "1").
  { intros r. rewrite String.eqb_eq.
    destruct (Routes.route_type r) as [x |]; cbn.
    - split; [now intros -> | now intros [= ->]].
    - split; discriminate. }
  unfold GtfsStations.stationStops. cbn zeta.
  split; [| split; [| split; [| split]]].
  - destruct (List.filter _ stops) as [| s l] eqn:E; cbn [List.length Nat.eqb].
    + reflexivity.
    + split; [discriminate |]. intros ->. discriminate E.
  - intros (s0 & Hin0 & H0) s.
    destruct (List.filter _ stops) as [| a l] eqn:E; cbn [List.length Nat.eqb].
    + exfalso. assert (Hin : In s0 (List.filter
                  (fun s => String.eqb (orEmpty (GtfsStations.location_type s)) "1") stops)).
      { apply filter_In. split; [exact Hin0 | now apply Hst]. }
      rewrite E in Hin. contradiction.
    + rewrite <- E, filter_In, Hst. reflexivity.
  - intros Hnone.
    destruct (List.filter _ stops) as [| a l] eqn:E; cbn [List.length Nat.eqb];
      [reflexivity | exfalso].
    assert (Hin : In a (List.filter
              (fun s => String.eqb (orEmpty (GtfsStations.location_type s)) "1") stops))
      by (rewrite E; now left).
    apply filter_In in Hin. destruct Hin as [Hin Ha%Hst]. exact (Hnone a Hin Ha).
  - intros (r0 & Hin0 & H0) r. unfold GtfsJson.subwayRoutes.
    assert (Hex : existsb (fun r => bool_decide (is_Some (Routes.route_type r))) routes = true).
    { apply existsb_exists. exists r0. split; [exact Hin0 |].
      apply bool_decide_eq_true. destruct (Routes.route_type r0); [eauto | congruence]. }
    rewrite Hex, filter_In, Hrt. reflexivity.
  - intros Hnone. unfold GtfsJson.subwayRoutes.
    assert (Hex : existsb (fun r => bool_decide (is_Some (Routes.route_type r))) routes = false).
    { destruct (existsb _ routes) eqn:E; [exfalso | reflexivity].
      apply existsb_exists in E. destruct E as (r & Hin & Hr%bool_decide_eq_true).
      rewrite (Hnone r Hin) in Hr. destruct Hr as [x Hx]. discriminate. }
    now rewrite Hex.
Qed.
